(** * ScribbleToDoc: the batch transcription pipeline

    A shallow embedding of [startBatchProcess] (the batch-orchestration
    function of the [App] component), of the item type of [types.ts] and of
    the tail of [processImageOCR] (services/ocrService.ts), followed by the
    properties of the pipeline: ordered reassembly, claiming, failure
    handling, the concurrency ceiling and the start guards.

    JavaScript runs the component on one thread; an [async] function runs
    synchronously up to its next [await].  The embedding therefore has one
    atomic step per stretch of code between two suspension points, and the
    order in which suspended calls are resumed is a schedule chosen by the
    environment.  A React state setter called with an updater function is
    modelled as applying the updater once, at the call, and a handler reads
    the state of the latest render. *)

From Stdlib Require Import QArith.
From stdpp Require Import gmap strings list fin_maps sorting pretty.
Close Scope Q_scope.

(** ** types.ts *)

Inductive Status := Pending | Processing | Completed | Error.

#[global] Instance Status_eq_dec : EqDecision Status.
Proof. solve_decision. Defined.

(** [BatchImage]; the optional field [processedText] is an [option], the
    blob [file] an opaque handle, the number [progress] a rational. *)
Record BatchImage := mkBatchImage {
  img_id : string;
  file : N;
  previewUrl : string;
  processedText : option string;
  status : Status;
  progress : Q
}.

(** The three object spreads of [processItem]:
    [{ ...img, status }], [{ ...img, progress }] and
    [{ ...img, status: 'completed', processedText: text }]. *)
Definition with_status (s : Status) (img : BatchImage) : BatchImage :=
  {| img_id := img_id img; file := file img; previewUrl := previewUrl img;
     processedText := processedText img; status := s;
     progress := progress img |}.

Definition with_progress (p : Q) (img : BatchImage) : BatchImage :=
  {| img_id := img_id img; file := file img; previewUrl := previewUrl img;
     processedText := processedText img; status := status img;
     progress := p |}.

Definition with_completed (text : string) (img : BatchImage) : BatchImage :=
  {| img_id := img_id img; file := file img; previewUrl := previewUrl img;
     processedText := Some text; status := Completed;
     progress := progress img |}.

(** A freshly ingested item ([handleFileUpload], [handleCapture]). *)
Definition newImage (i : string) (f : N) (url : string) : BatchImage :=
  {| img_id := i; file := f; previewUrl := url;
     processedText := None; status := Pending; progress := 0%Q |}.

(** ** JavaScript strings *)

(** Truthiness of a string: only the empty string is falsy. *)
Definition truthy (s : string) : bool :=
  match s with
  | EmptyString => false
  | String _ _ => true
  end.

(** The separator ['\n\n']. *)
Definition blankLine : string :=
  String (Ascii.ascii_of_nat 10) (String (Ascii.ascii_of_nat 10) EmptyString).

(** ** Component state (the [useState] cells the pipeline touches) *)

Record App := mkApp {
  images : list BatchImage;
  finalText : string;
  isProcessing : bool;
  apiKey : string;
  showKeyModal : bool
}.

Definition setImages (f : list BatchImage -> list BatchImage) (a : App) : App :=
  {| images := f (images a); finalText := finalText a;
     isProcessing := isProcessing a; apiKey := apiKey a;
     showKeyModal := showKeyModal a |}.

Definition setFinalText (t : string) (a : App) : App :=
  {| images := images a; finalText := t;
     isProcessing := isProcessing a; apiKey := apiKey a;
     showKeyModal := showKeyModal a |}.

Definition setIsProcessing (b : bool) (a : App) : App :=
  {| images := images a; finalText := finalText a;
     isProcessing := b; apiKey := apiKey a;
     showKeyModal := showKeyModal a |}.

Definition setShowKeyModal (b : bool) (a : App) : App :=
  {| images := images a; finalText := finalText a;
     isProcessing := isProcessing a; apiKey := apiKey a;
     showKeyModal := b |}.

(** [prev.map((img, i) => i === index ? f(img) : img)] *)
Definition mapAt (index : nat) (f : BatchImage -> BatchImage)
    (prev : list BatchImage) : list BatchImage :=
  imap (fun i img => if decide (i = index) then f img else img) prev.

(** ** The transcription port *)

(** How one call of [processImageOCR] settles. *)
Inductive Outcome := Resolved (text : string) | Rejected.

Definition PLACEHOLDER_TEXT : string := "[Error: Failed to process this page]".

(** ** Variables local to one call of [startBatchProcess] *)

(** An element of [pendingItems]: [{ img, index }]. *)
Abbreviation Item := (BatchImage * nat)%type.

(** Where a [runWorker] coroutine stands: about to test the loop
    condition, suspended in [await processItem(item)] with the
    transcription call in flight, or returned. *)
Inductive Worker := AtLoopHead | Awaiting (item : Item) | Done.

(** [calls] is a ghost log of the invocations of [processImageOCR]
    (worker, item index), oldest first.  [oracle] is the environment of the
    run: how the call made for each index will settle. *)
Record Run := mkRun {
  pendingItems : list Item;
  nextIndexToAppend : nat;
  completedTexts : gmap nat string;
  queuePointer : nat;
  workers : list Worker;
  calls : list (nat * nat);
  oracle : nat -> Outcome
}.

Definition CONCURRENCY_LIMIT : nat := 3.

Definition setWorker (w : nat) (x : Worker) (r : Run) : Run :=
  {| pendingItems := pendingItems r;
     nextIndexToAppend := nextIndexToAppend r;
     completedTexts := completedTexts r;
     queuePointer := queuePointer r;
     workers := <[w := x]> (workers r);
     calls := calls r; oracle := oracle r |}.

(** ** tryAppendText *)

(** One iteration of the body's text update:
    [if (textChunk) newText = newText ? newText + '\n\n' + textChunk : textChunk]. *)
Definition appendChunk (newText textChunk : string) : string :=
  if truthy textChunk then
    if truthy newText then (newText +:+ blankLine) +:+ textChunk else textChunk
  else newText.

(** The [while (completedTexts.has(nextIndexToAppend))] loop.  Every
    iteration deletes an entry of the map, so [size completedTexts]
    iterations are enough (see [tryAppend_loop_exit]). *)
Fixpoint tryAppend_loop (fuel : nat) (m : gmap nat string) (next : nat)
    (newText : string) : gmap nat string * nat * string :=
  match fuel with
  | O => (m, next, newText)
  | S fuel' =>
      match m !! next with
      | Some textChunk =>
          tryAppend_loop fuel' (delete next m) (S next)
            (appendChunk newText textChunk)
      | None => (m, next, newText)
      end
  end.

Definition tryAppendText (s : App * Run) : App * Run :=
  let '(a, r) := s in
  let '(m, next, newText) :=
    tryAppend_loop (size (completedTexts r)) (completedTexts r)
      (nextIndexToAppend r) (finalText a) in
  (setFinalText newText a,
   {| pendingItems := pendingItems r;
      nextIndexToAppend := next;
      completedTexts := m;
      queuePointer := queuePointer r;
      workers := workers r;
      calls := calls r; oracle := oracle r |}).

(** [completedTexts.set(index, text)] *)
Definition publish (index : nat) (text : string) (r : Run) : Run :=
  {| pendingItems := pendingItems r;
     nextIndexToAppend := nextIndexToAppend r;
     completedTexts := <[index := text]> (completedTexts r);
     queuePointer := queuePointer r;
     workers := workers r;
     calls := calls r; oracle := oracle r |}.

(** ** processItem *)

(** From the call up to [await processImageOCR(...)]: the status is set
    and the port is invoked; worker [w] is now suspended on [item]. *)
Definition processItem_call (w : nat) (item : Item) (s : App * Run)
    : App * Run :=
  let '(a, r) := s in
  (setImages (mapAt item.2 (with_status Processing)) a,
   {| pendingItems := pendingItems r;
      nextIndexToAppend := nextIndexToAppend r;
      completedTexts := completedTexts r;
      queuePointer := queuePointer r;
      workers := <[w := Awaiting item]> (workers r);
      calls := calls r ++ [(w, item.2)]; oracle := oracle r |}).

(** The progress callback handed to the port. *)
Definition onProgress (item : Item) (p : Q) (s : App * Run) : App * Run :=
  (setImages (mapAt item.2 (with_progress p)) s.1, s.2).

(** From the settling of the port call to the end of [processItem]:
    the [try] continuation or the [catch] block, then [finally]. *)
Definition processItem_settle (item : Item) (o : Outcome) (s : App * Run)
    : App * Run :=
  let '(a, r) := s in
  match o with
  | Resolved text =>
      tryAppendText
        (setImages (mapAt item.2 (with_completed text)) a,
         publish item.2 text r)
  | Rejected =>
      tryAppendText
        (setImages (mapAt item.2 (with_status Error)) a,
         publish item.2 PLACEHOLDER_TEXT r)
  end.

(** ** runWorker *)

(** Worker [w] at the head of its loop: [queuePointer < pendingItems.length]
    holds exactly when the lookup succeeds; then the item is claimed, the
    pointer incremented and [processItem] entered, else the worker returns. *)
Definition runWorker (w : nat) (s : App * Run) : App * Run :=
  let '(a, r) := s in
  match pendingItems r !! queuePointer r with
  | Some item =>
      processItem_call w item
        (a, {| pendingItems := pendingItems r;
               nextIndexToAppend := nextIndexToAppend r;
               completedTexts := completedTexts r;
               queuePointer := S (queuePointer r);
               workers := workers r;
               calls := calls r; oracle := oracle r |})
  | None => (a, setWorker w Done r)
  end.

(** ** startBatchProcess, up to [await Promise.all(workers)] *)

(** [images.map((img, index) => ({ img, index }))
          .filter(item => item.img.status !== 'completed')] *)
Definition selectPending (imgs : list BatchImage) : list Item :=
  filter (fun item : Item => status item.1 <> Completed)
         (imap (fun index img => (img, index)) imgs).

(** The result is the component state and, when a pool was started, the
    variables of the run. *)
Definition startBatchProcess (orc : nat -> Outcome) (a : App)
    : App * option Run :=
  if isProcessing a then (a, None)
  else if negb (truthy (apiKey a)) then (setShowKeyModal true a, None)
  else
    let a1 := setIsProcessing true a in
    let pending := selectPending (images a) in
    match pending with
    | [] => (setIsProcessing false a1, None)
    | first :: _ =>
        let n := Nat.min CONCURRENCY_LIMIT (length pending) in
        let r0 := {| pendingItems := pending;
                     nextIndexToAppend := first.2;
                     completedTexts := ∅;
                     queuePointer := 0;
                     workers := replicate n AtLoopHead;
                     calls := []; oracle := orc |} in
        let s := foldl (fun s w => runWorker w s) (a1, r0) (seq 0 n) in
        (s.1, Some s.2)
    end.

(** [Promise.all(workers)] has resolved. *)
Definition is_Done (x : Worker) : bool :=
  match x with Done => true | _ => false end.

Definition finished (r : Run) : bool := forallb is_Done (workers r).

(** The statement after the join: [setIsProcessing(false)]. *)
Definition joinBatch (a : App) : App := setIsProcessing false a.

(** ** The scheduler's events *)

Inductive Event :=
| EProgress (w : nat) (p : Q)   (* the port reports progress to worker w *)
| ESettle (w : nat)             (* the port call of worker w settles *)
| EResume (w : nat).            (* worker w resumes after processItem *)

Definition step (e : Event) (s : App * Run) : option (App * Run) :=
  match e with
  | EProgress w p =>
      match workers s.2 !! w with
      | Some (Awaiting item) => Some (onProgress item p s)
      | _ => None
      end
  | ESettle w =>
      match workers s.2 !! w with
      | Some (Awaiting item) =>
          let s' := processItem_settle item (oracle s.2 item.2) s in
          Some (s'.1, setWorker w AtLoopHead s'.2)
      | _ => None
      end
  | EResume w =>
      match workers s.2 !! w with
      | Some AtLoopHead => Some (runWorker w s)
      | _ => None
      end
  end.

Fixpoint exec (sched : list Event) (s : App * Run) : option (App * Run) :=
  match sched with
  | [] => Some s
  | e :: sched' =>
      match step e s with
      | Some s' => exec sched' s'
      | None => None
      end
  end.

(** ** Views of a run used in the statements *)

(** The original indices of the pending items, in queue order. *)
Definition indices (r : Run) : list nat := (pendingItems r).*2.

(** The indices claimed so far. *)
Definition claimed (r : Run) : list nat := take (queuePointer r) (indices r).

Definition awaitedIndex (x : Worker) : option nat :=
  match x with Awaiting item => Some item.2 | _ => None end.

(** The indices whose transcription call is in flight. *)
Definition awaited (ws : list Worker) : list nat := omap awaitedIndex ws.

(** Claimed and no longer in flight: the call has settled and
    [processItem] has run to its end. *)
Definition settled (r : Run) (i : nat) : Prop :=
  i ∈ claimed r ∧ i ∉ awaited (workers r).

(** The chunk [processItem] publishes for an outcome. *)
Definition chunkOf (o : Outcome) : string :=
  match o with Resolved text => text | Rejected => PLACEHOLDER_TEXT end.

(** What [processItem] has made of an item once its call has settled. *)
Definition settleImage (o : Outcome) (img : BatchImage) : BatchImage :=
  match o with
  | Resolved text => with_completed text img
  | Rejected => with_status Error img
  end.

(** The number of items shown as processing. *)
Definition processingCount (imgs : list BatchImage) : nat :=
  length (filter (fun img => status img = Processing) imgs).

(** Steps still to be taken by the pool: two per unclaimed item (its
    settling and the resumption after it), two per call in flight, one per
    worker that has yet to look at the queue. *)
Definition weight (x : Worker) : nat :=
  match x with Awaiting _ => 2 | AtLoopHead => 1 | Done => 0 end.

Definition remaining (r : Run) : nat :=
  2 * (length (pendingItems r) - queuePointer r)
  + sum_list_with weight (workers r).

(** Events that move the pool forward (progress reports do not). *)
Definition effective (e : Event) : bool :=
  match e with EProgress _ _ => false | _ => true end.

(** ** Invariants of a run *)

(** The queue and the workers. *)
Record Struct (r : Run) : Prop := mkStruct {
  st_nodup : NoDup (indices r);
  st_qp : queuePointer r ≤ length (pendingItems r);
  st_aw_nodup : NoDup (awaited (workers r));
  st_aw_claimed : ∀ i, i ∈ awaited (workers r) → i ∈ claimed r;
  st_calls : (calls r).*2 = claimed r;
  st_done : Done ∈ workers r → length (pendingItems r) ≤ queuePointer r;
  st_workers :
    length (workers r) = Nat.min CONCURRENCY_LIMIT (length (pendingItems r));
  st_nonempty : 0 < length (pendingItems r)
}.

(** The reassembly buffer [m], the frontier [next] and the output [text],
    for a set [S] of settled indices, a run that started with output [prev]
    and frontier [first]. *)
Record Reasm (orc : nat -> Outcome) (prev : string) (first : nat)
    (S : nat -> Prop) (m : gmap nat string) (next : nat) (text : string)
    : Prop := mkReasm {
  re_first : first ≤ next;
  re_buffer : ∀ i c, m !! i = Some c ↔ S i ∧ next ≤ i ∧ c = chunkOf (orc i);
  re_flushed : ∀ i, first ≤ i < next → S i;
  re_text :
    text = foldl appendChunk prev ((chunkOf ∘ orc) <$> seq first (next - first))
}.

(** The reassembler of a run: its buffer holds exactly the settled chunks
    at or past the frontier, the frontier is not in the buffer (the loop of
    [tryAppendText] has run), and no index has been passed that has yet to
    settle. *)
Definition ReasmInv (orc : nat → Outcome) (prev : string) (first : nat)
    (s : App * Run) : Prop :=
  Reasm orc prev first (settled s.2) (completedTexts s.2)
    (nextIndexToAppend s.2) (finalText s.1)
  ∧ completedTexts s.2 !! nextIndexToAppend s.2 = None
  ∧ ∀ i, i ∈ indices s.2 → ¬ settled s.2 i → nextIndexToAppend s.2 ≤ i.

(** The item store, relative to the list [imgs0] the run started from. *)
Record Store (imgs0 : list BatchImage) (imgs : list BatchImage) (r : Run)
    : Prop := mkStore {
  so_length : length imgs = length imgs0;
  so_bounds : ∀ i, i ∈ indices r → is_Some (imgs0 !! i);
  so_untouched : ∀ i, i ∉ claimed r → imgs !! i = imgs0 !! i;
  so_awaited : ∀ i, i ∈ awaited (workers r) →
    ∃ img0 p, imgs0 !! i = Some img0 ∧
      imgs !! i = Some (with_progress p (with_status Processing img0));
  so_settled : ∀ i, settled r i →
    ∃ img0 p, imgs0 !! i = Some img0 ∧
      imgs !! i = Some (with_progress p (settleImage (oracle r i) img0))
}.

(** Everything together, for the run started by
    [startBatchProcess orc a0]. *)
Record RunInv (orc : nat -> Outcome) (a0 : App) (s : App * Run)
    : Prop := mkRunInv {
  ri_pending : pendingItems s.2 = selectPending (images a0);
  ri_oracle : oracle s.2 = orc;
  ri_struct : Struct s.2;
  ri_reasm : ReasmInv orc (finalText a0) (hd 0 (indices s.2)) s;
  ri_store : Store (images a0) (images s.1) s.2;
  ri_flags :
    isProcessing s.1 = true ∧ apiKey s.1 = apiKey a0
    ∧ showKeyModal s.1 = showKeyModal a0
}.

(** ** The output as the specification words it *)

(** The non-empty chunks joined by one blank line. *)
Definition joinChunks (chunks : list string) : string :=
  String.concat blankLine (filter (fun c => c <> "") chunks).

(** ** Worked inputs *)

Definition okAll (texts : list string) : nat -> Outcome :=
  fun i => match texts !! i with Some t => Resolved t | None => Rejected end.

Definition app3 : App :=
  {| images := [newImage "a" 1 "u0"; newImage "b" 2 "u1"; newImage "c" 3 "u2"];
     finalText := ""; isProcessing := false; apiKey := "k";
     showKeyModal := false |}.

Definition run_of (orc : nat -> Outcome) (a : App) (sched : list Event)
    : option (App * Run) :=
  match startBatchProcess orc a with
  | (a1, Some r1) => exec sched (a1, r1)
  | (_, None) => None
  end.

(** The pending indices have no gap. *)
Definition contiguous (l : list nat) : Prop := l = seq (hd 0 l) (length l).

(** How often the port was invoked for index [i]. *)
Definition callCount (r : Run) (i : nat) : nat :=
  length (filter (fun j => j = i) (calls r).*2).

(** A batch with one page and text already in the editor. *)
Definition appX : App :=
  {| images := [newImage "a" 1 "u0"];
     finalText := "X"; isProcessing := false; apiKey := "k";
     showKeyModal := false |}.

(** Pages 1 and 3 fail, page 2 succeeds. *)
Definition failOuter : nat -> Outcome :=
  fun i => match i with 1 => Resolved "B" | _ => Rejected end.

(** The state reached by the three-page batch when pages 1 and 3 fail:
    statuses error, completed, error. *)
Definition appAfterFailures : App :=
  match run_of failOuter app3
          [ESettle 0; ESettle 1; ESettle 2; EResume 0; EResume 1; EResume 2]
  with
  | Some (a, _) => joinBatch a
  | None => app3
  end.

(** ** services/ocrService.ts: processImageOCR *)

(** What the browser and the backend do during one call: whether the
    image loads, whether the canvas yields a 2d context, and the reply of
    [generateContent] ([None]: the request throws; [Some t]: a response
    whose [text] is [t], [None] standing for [undefined]). *)
Record OcrEnv := mkOcrEnv {
  imageLoads : bool;
  canvasContext : bool;
  backendReply : option (option string)
}.

(** [text || fallback] on a string that may be undefined. *)
Definition orElse (text : option string) (fallback : string) : string :=
  match text with
  | Some t => if truthy t then t else fallback
  | None => fallback
  end.

Definition NO_TEXT : string := "No text detected in the image.".

(** The progress reports made and the way the call settles.  The two
    revisions of the file differ in the first report ([0.2], and [0.3]
    after the image has been scaled down) and in nothing that bears on the
    result. *)
Definition processImageOCR_from (firstReport : Q) (env : OcrEnv)
    (key : string) : list Q * Outcome :=
  if negb (imageLoads env) then ([], Rejected)
  else if negb (canvasContext env) then ([], Rejected)
  else if negb (truthy key) then ([firstReport], Rejected)
  else
    match backendReply env with
    | None => ([firstReport], Rejected)
    | Some text => ([firstReport; 1%Q], Resolved (orElse text NO_TEXT))
    end.

Definition processImageOCR : OcrEnv -> string -> list Q * Outcome :=
  processImageOCR_from (2 # 10).

Definition processImageOCR_scaled : OcrEnv -> string -> list Q * Outcome :=
  processImageOCR_from (3 # 10).

(** A page store in which every page is done. *)
Definition appDone : App :=
  {| images := [with_completed "A" (newImage "a" 1 "u0")];
     finalText := "A"; isProcessing := false; apiKey := "k";
     showKeyModal := false |}.

(** ** The component over time *)

(** The component state together with the variables of the run in
    progress, if any. *)
Record Sys := mkSys {
  app : App;
  run : option Run
}.

Definition setApiKey (k : string) (a : App) : App :=
  {| images := images a; finalText := finalText a;
     isProcessing := isProcessing a; apiKey := k;
     showKeyModal := showKeyModal a |}.

(** What can happen to the component: pages are added ([handleFileUpload],
    [handleCapture]), the text is edited, the key is saved or removed, the
    queue is cleared or a page removed (between runs only: the pipeline
    addresses pages by index), the batch button is pressed, the pool takes
    a step, the join resolves. *)
Inductive Action :=
| AUpload (news : list (string * N * string))
| AEdit (val : string)
| ASaveKey (key : string)
| ARemoveKey
| AClearAll
| ARemove (i : string)
| AStart (orc : nat -> Outcome)
| APool (e : Event)
| AJoin.

Definition act (x : Action) (s : Sys) : option Sys :=
  match x with
  | AUpload news =>
      Some {| app := setImages
                (fun prev =>
                   prev ++ ((fun n : string * N * string =>
                               newImage n.1.1 n.1.2 n.2) <$> news))
                (app s);
              run := run s |}
  | AEdit val => Some {| app := setFinalText val (app s); run := run s |}
  | ASaveKey key =>
      Some {| app := setShowKeyModal false (setApiKey key (app s));
              run := run s |}
  | ARemoveKey =>
      Some {| app := setShowKeyModal true (setApiKey "" (app s));
              run := run s |}
  | AClearAll =>
      match run s with
      | None =>
          Some {| app := setFinalText "" (setImages (fun _ => []) (app s));
                  run := None |}
      | Some _ => None
      end
  | ARemove i =>
      match run s with
      | None =>
          Some {| app := setImages
                    (filter (fun img => img_id img <> i)) (app s);
                  run := None |}
      | Some _ => None
      end
  | AStart orc =>
      match startBatchProcess orc (app s), run s with
      | (a', Some r'), None => Some {| app := a'; run := Some r' |}
      | (a', Some r'), Some _ => None
      | (a', None), rn => Some {| app := a'; run := rn |}
      end
  | APool e =>
      match run s with
      | Some r =>
          match step e (app s, r) with
          | Some (a', r') => Some {| app := a'; run := Some r' |}
          | None => None
          end
      | None => None
      end
  | AJoin =>
      match run s with
      | Some r =>
          if finished r
          then Some {| app := joinBatch (app s); run := None |}
          else None
      | None => None
      end
  end.

Fixpoint acts (trace : list Action) (s : Sys) : option Sys :=
  match trace with
  | [] => Some s
  | x :: trace' =>
      match act x s with
      | Some s' => acts trace' s'
      | None => None
      end
  end.

(** The component when it is mounted. *)
Definition initial : Sys :=
  {| app := {| images := []; finalText := ""; isProcessing := false;
               apiKey := ""; showKeyModal := false |};
     run := None |}.

(** What holds of every page at every moment. *)
Definition ItemOK (img : BatchImage) : Prop :=
  (status img = Pending → progress img = 0%Q)
  ∧ (is_Some (processedText img) ↔ status img = Completed).

(** The pages and the pool during a run. *)
Record PoolOK (a : App) (r : Run) : Prop := mkPoolOK {
  po_struct : Struct r;
  po_flag : isProcessing a = true;
  po_awaited : ∀ i, i ∈ awaited (workers r) →
    ∃ img, images a !! i = Some img ∧ status img = Processing;
  po_processing : ∀ i img, images a !! i = Some img →
    status img = Processing → i ∈ awaited (workers r);
  po_unclaimed : ∀ i, i ∈ drop (queuePointer r) (indices r) →
    ∃ img, images a !! i = Some img ∧ status img ≠ Completed
}.

Definition SysInv (s : Sys) : Prop :=
  Forall ItemOK (images (app s))
  ∧ match run s with
    | Some r => PoolOK (app s) r
    | None =>
        isProcessing (app s) = false
        ∧ ∀ img, img ∈ images (app s) → status img ≠ Processing
    end.

(** One page; its first transcription reports progress and then fails. *)
Definition traceRetry : list Action :=
  [ASaveKey "k"; AUpload [("a", 1%N, "u0")];
   AStart (fun _ => Rejected);
   APool (EProgress 0 (3 # 10)); APool (ESettle 0); APool (EResume 0);
   AJoin].

(** The page of [traceRetry] and the component once [traceRetry] has
    run. *)
Definition pageInError : BatchImage :=
  {| img_id := "a"; file := 1; previewUrl := "u0"; processedText := None;
     status := Error; progress := 3 # 10 |}.

Definition afterRetry : Sys :=
  {| app := {| images := [pageInError];
               finalText := PLACEHOLDER_TEXT; isProcessing := false;
               apiKey := "k"; showKeyModal := false |};
     run := None |}.

(** One fresh page, key saved. *)
Definition appFresh : App :=
  {| images := [newImage "a" 1 "u0"]; finalText := "";
     isProcessing := false; apiKey := "k"; showKeyModal := false |}.

(** The variables of a run with nothing in it, where a statement needs
    some. *)
Definition noRun : Run :=
  {| pendingItems := []; nextIndexToAppend := 0; completedTexts := ∅;
     queuePointer := 0; workers := []; calls := [];
     oracle := fun _ => Rejected |}.

(** ** The batch button (render of [App]) *)

(** [images.filter(img => img.status === 'completed').length] *)
Definition processedCount (a : App) : nat :=
  length (filter (fun img => status img = Completed) (images a)).

(** [images.length > 0 && processedCount === images.length] *)
Definition isAllDone (a : App) : bool :=
  (0 <? length (images a)) && (processedCount a =? length (images a)).

(** The [disabled] attribute of the button; the button itself is rendered
    when [images.length > 0]. *)
Definition startDisabled (a : App) : bool := isProcessing a || isAllDone a.

(** ** checkLibs (the export libraries are polled for) *)

(** The globals a poll looks at: [window.docx], [window.DOCX],
    [window.JSZip], [window.saveAs], each present or not. *)
Record Globals := mkGlobals {
  hasDocx : bool;
  hasDOCX : bool;
  hasJSZip : bool;
  hasSaveAs : bool
}.

(** [docxReady && jszipReady && saveAsReady] *)
Definition libsReady (g : Globals) : bool :=
  (hasDocx g || hasDOCX g) && hasJSZip g && hasSaveAs g.

Record LibFlags := mkLibFlags {
  libsLoaded : bool;
  libsError : bool
}.

Definition maxAttempts : nat := 60.

(** The inner function [check]; [env k] are the globals at the poll made
    with [attempts = k].  The result is the flags when polling stops and
    the number of [setTimeout(check, 500)] calls made on the way.  A poll
    that fails increments [attempts], so [maxAttempts - attempts] polls are
    enough; [None] stands for a poll still scheduled when the fuel is
    used up, which [checkLibs] never meets. *)
Fixpoint check (fuel : nat) (env : nat -> Globals) (attempts : nat)
    (f : LibFlags) : option (LibFlags * nat) :=
  match fuel with
  | O => None
  | S fuel' =>
      if libsReady (env attempts)
      then Some ({| libsLoaded := true; libsError := false |}, 0)
      else
        if maxAttempts <=? S attempts
        then Some ({| libsLoaded := libsLoaded f; libsError := true |}, 0)
        else
          match check fuel' env (S attempts) f with
          | Some (f', timers) => Some (f', S timers)
          | None => None
          end
  end.

(** [checkLibs]: [setLibsError(false)], a fresh counter, the first poll. *)
Definition checkLibs (env : nat -> Globals) (f : LibFlags)
    : option (LibFlags * nat) :=
  check maxAttempts env 0 {| libsLoaded := libsLoaded f; libsError := false |}.

(** ** The API key (mount effect, handleSaveKey, handleRemoveKey, the key
    dialog) *)

(** The component state and the entry ['gemini_api_key'] of
    [localStorage]. *)
Abbreviation KeyUI := (App * option string)%type.

(** The mount effect. *)
Definition mountKey (s : KeyUI) : KeyUI :=
  match s.2 with
  | Some storedKey =>
      if truthy storedKey then (setApiKey storedKey s.1, s.2)
      else (setShowKeyModal true s.1, s.2)
  | None => (setShowKeyModal true s.1, s.2)
  end.

Definition handleSaveKey (key : string) (s : KeyUI) : KeyUI :=
  (setShowKeyModal false (setApiKey key s.1), Some key).

Definition handleRemoveKey (s : KeyUI) : KeyUI :=
  (setShowKeyModal true (setApiKey "" s.1), None).

(** What the user can do about the key: submit the form of the dialog,
    press "Remove saved key" or the close button (both rendered only with a
    key, all three only while the dialog shows), press the key button of
    the header, press the batch button. *)
Inductive KeyAction :=
| KSubmit (val : string)
| KRemove
| KClose
| KOpen
| KStart (orc : nat -> Outcome).

Definition keyAct (x : KeyAction) (s : KeyUI) : option KeyUI :=
  match x with
  | KSubmit val =>
      if showKeyModal s.1
      then Some (if truthy val then handleSaveKey val s else s)
      else None
  | KRemove =>
      if showKeyModal s.1 && truthy (apiKey s.1)
      then Some (handleRemoveKey s) else None
  | KClose =>
      if showKeyModal s.1 && truthy (apiKey s.1)
      then Some (setShowKeyModal false s.1, s.2) else None
  | KOpen => Some (setShowKeyModal true s.1, s.2)
  | KStart orc => Some ((startBatchProcess orc s.1).1, s.2)
  end.

Fixpoint keyActs (trace : list KeyAction) (s : KeyUI) : option KeyUI :=
  match trace with
  | [] => Some s
  | x :: trace' =>
      match keyAct x s with
      | Some s' => keyActs trace' s'
      | None => None
      end
  end.

(** ** handleDownloadZip *)

Inductive ZipContent := TxtFile (text : string) | DocxFile (blob : N).

Inductive ZipResult :=
| ZipNoLibs                (* alert: export libraries failed to load *)
| ZipNothing               (* alert: no processed notes *)
| ZipFailed                (* an await threw: alert, nothing saved *)
| ZipSaved (entries : list (string * ZipContent)).

(** The body of the [for] loop from page [i] on; [render text title] is
    how [generateDocxBlob] settles ([None]: it throws).  [zip.file] is an
    append to the list of entries: the names are pairwise distinct, so
    no call overwrites an earlier one. *)
Fixpoint zipPages (render : string -> string -> option N) (i : nat)
    (completedImages : list BatchImage)
    : option (list (string * ZipContent)) :=
  match completedImages with
  | [] => Some []
  | img :: rest =>
      let text := orElse (processedText img) "" in
      let filename := "Note_Page_" +:+ pretty (i + 1) in
      match render text ("Note Page " +:+ pretty (i + 1)) with
      | None => None
      | Some docBlob =>
          match zipPages render (S i) rest with
          | None => None
          | Some entries =>
              Some ((filename +:+ ".txt", TxtFile text)
                    :: (filename +:+ ".docx", DocxFile docBlob)
                    :: entries)
          end
      end
  end.

(** [packs]: whether [zip.generateAsync] resolves. *)
Definition handleDownloadZip (loaded : bool)
    (render : string -> string -> option N) (packs : bool) (a : App)
    : ZipResult :=
  if negb loaded then ZipNoLibs
  else
    let completedImages :=
      filter (fun img => status img = Completed) (images a) in
    match completedImages with
    | [] => ZipNothing
    | _ :: _ =>
        match zipPages render 0 completedImages with
        | Some entries => if packs then ZipSaved entries else ZipFailed
        | None => ZipFailed
        end
    end.

(** The contents of the [.txt] entries, in the order of the archive. *)
Definition txtFiles (entries : list (string * ZipContent)) : list string :=
  omap (fun e : string * ZipContent =>
          match e.2 with
          | TxtFile text => Some text
          | DocxFile _ => None
          end) entries.

(** A string as the sequence of its characters. *)
Fixpoint chars (s : string) : list Ascii.ascii :=
  match s with
  | EmptyString => []
  | String c s' => c :: chars s'
  end.

Fixpoint str (l : list Ascii.ascii) : string :=
  match l with
  | [] => EmptyString
  | c :: l' => String c (str l')
  end.

(** ** The page list is edited while a run is in progress *)

(** [onRemove] of the queue and the Clear All button, which are not
    disabled during a run. *)
Definition onRemove (i : string) (a : App) : App :=
  setImages (filter (fun img => img_id img <> i)) a.

Definition onClearAll (a : App) : App :=
  setFinalText "" (setImages (fun _ => []) a).

(** ** services/ocrService.ts: the size of the canvas *)

Definition MAX_DIMENSION : Z := 1536.

(** [Math.round(a / b)] on integers [0 <= a] and [0 < b]: the integer
    nearest to the quotient, a half going up.  The quotient of the source
    is a floating-point one; it lies on the same side of every half-integer
    as the exact quotient as long as [a < 2^52], which [height * 1536] is
    for every image a browser decodes. *)
Definition roundDiv (a b : Z) : Z := (2 * a + b) / (2 * b).

(** [width] and [height] of the canvas for an image of the given size. *)
Definition canvasSize (width height : Z) : Z * Z :=
  if (MAX_DIMENSION <? width)%Z || (MAX_DIMENSION <? height)%Z
  then
    if (height <? width)%Z
    then (MAX_DIMENSION, roundDiv (height * MAX_DIMENSION) width)
    else (roundDiv (width * MAX_DIMENSION) height, MAX_DIMENSION)
  else (width, height).

(** ** components/Editor.tsx: insertText *)

(** [s.substring(start, end)]: both bounds are clamped to the length and
    taken in order. *)
Definition substring (s : string) (start end_ : nat) : string :=
  let a := Nat.min start (String.length s) in
  let b := Nat.min end_ (String.length s) in
  str (take (Nat.max a b - Nat.min a b) (drop (Nat.min a b) (chars s))).

(** [s.substring(start)] *)
Definition substringFrom (s : string) (start : nat) : string :=
  str (drop start (chars s)).

(** The textarea ['main-editor']: its value and its selection. *)
Record TextArea := mkTextArea {
  value : string;
  selectionStart : nat;
  selectionEnd : nat
}.

(** [textarea.setSelectionRange(start, end)]: the bounds are clamped to
    the length of the value, and a start beyond the end is set to the
    end. *)
Definition setSelectionRange (start end_ : nat) (t : TextArea) : TextArea :=
  let e := Nat.min end_ (String.length (value t)) in
  {| value := value t;
     selectionStart := Nat.min start e;
     selectionEnd := e |}.

(** [insertText(before, after)]: the new text goes to [onChange], which is
    [setFinalText]; the textarea is rendered with it before the timer sets
    the selection. *)
Definition insertText (before after : string) (t : TextArea) : TextArea :=
  let start := selectionStart t in
  let end_ := selectionEnd t in
  let text := value t in
  let selectedText := substring text start end_ in
  let newText :=
    (((substring text 0 start +:+ before) +:+ selectedText) +:+ after)
    +:+ substringFrom text end_ in
  setSelectionRange (start + String.length before)
    (end_ + String.length before)
    {| value := newText; selectionStart := start; selectionEnd := end_ |}.

(** ** services/docxService.ts: the paragraphs of the document *)

(** Characters are code units below 256. *)
Definition LF : Ascii.ascii := Ascii.ascii_of_nat 10.

(** The white space [String.prototype.trim] removes. *)
Definition isWhite (c : Ascii.ascii) : bool :=
  let n := Ascii.nat_of_ascii c in
  (9 <=? n) && (n <=? 13) || (n =? 32) || (n =? 160).

(** The class [[\x00-\x08\x0B\x0C\x0E-\x1F\x7F]]. *)
Definition isControl (c : Ascii.ascii) : bool :=
  let n := Ascii.nat_of_ascii c in
  (n <=? 8) || (n =? 11) || (n =? 12) || (14 <=? n) && (n <=? 31)
  || (n =? 127).

Fixpoint trimStart (l : list Ascii.ascii) : list Ascii.ascii :=
  match l with
  | [] => []
  | c :: l' => if isWhite c then trimStart l' else l
  end.

Definition trim (s : string) : string :=
  str (reverse (trimStart (reverse (trimStart (chars s))))).

(** [sanitize]; on the empty string the early return and the [replace]
    agree. *)
Definition sanitize (s : string) : string :=
  str (filter (fun c => isControl c = false) (chars s)).

Definition startsWith (s prefix : string) : bool :=
  bool_decide (take (String.length prefix) (chars s) = chars prefix).

(** [content.split('\n')] *)
Fixpoint splitLines (l : list Ascii.ascii) : list string :=
  match l with
  | [] => [EmptyString]
  | c :: l' =>
      if bool_decide (c = LF) then EmptyString :: splitLines l'
      else
        match splitLines l' with
        | line :: lines => String c line :: lines
        | [] => [String c EmptyString]
        end
  end.

Inductive ParaStyle := Heading1 | Heading2 | Bullet | Body.

Record Paragraph := mkParagraph {
  para_style : ParaStyle;
  para_text : string
}.

(** The body of [lines.forEach]: what a line pushes onto [sections]. *)
Definition paragraphOf (line : string) : option Paragraph :=
  let rawText := trim line in
  if negb (truthy rawText) then None
  else
    let text := sanitize rawText in
    if startsWith text "# "
    then Some (mkParagraph Heading1 (trim (substringFrom text 2)))
    else if startsWith text "## "
    then Some (mkParagraph Heading2 (trim (substringFrom text 3)))
    else if startsWith text "- "
    then Some (mkParagraph Bullet (trim (substringFrom text 2)))
    else Some (mkParagraph Body text).

Definition sections (content : string) : list Paragraph :=
  omap paragraphOf (splitLines (chars content)).

(** The earlier revision of the file: no [sanitize], and the text after
    a marker is not trimmed again. *)
Definition paragraphOf_v1 (line : string) : option Paragraph :=
  let text := trim line in
  if negb (truthy text) then None
  else if startsWith text "# "
  then Some (mkParagraph Heading1 (substringFrom text 2))
  else if startsWith text "## "
  then Some (mkParagraph Heading2 (substringFrom text 3))
  else if startsWith text "- "
  then Some (mkParagraph Bullet (substringFrom text 2))
  else Some (mkParagraph Body text).

Definition sections_v1 (content : string) : list Paragraph :=
  omap paragraphOf_v1 (splitLines (chars content)).

(** * Properties *)

(** Reduce the projections of explicit records, and nothing else. *)
Tactic Notation "proj_simpl" :=
  cbn [fst snd pendingItems nextIndexToAppend completedTexts queuePointer
       workers calls oracle images finalText isProcessing apiKey
       showKeyModal setImages setFinalText setIsProcessing setShowKeyModal
       setWorker].
Tactic Notation "proj_simpl" "in" hyp(H) :=
  cbn [fst snd pendingItems nextIndexToAppend completedTexts queuePointer
       workers calls oracle images finalText isProcessing apiKey
       showKeyModal setImages setFinalText setIsProcessing setShowKeyModal
       setWorker] in H.

(** The scenario of the design notes: index 1 resolves first, then 0,
    then 2. *)
Example scenario_B_A_C :
  (fun s => (finalText s.1, finished s.2)) <$>
    run_of (okAll ["A"; "B"; "C"]) app3
      [ESettle 1; ESettle 0; ESettle 2; EResume 0; EResume 1; EResume 2]
  = Some ("A" +:+ blankLine +:+ "B" +:+ blankLine +:+ "C", true).
Proof. vm_compute. reflexivity. Qed.

(** ** Lists of items and workers *)

Lemma length_mapAt index f prev : length (mapAt index f prev) = length prev.
Proof. apply length_imap. Qed.

Lemma lookup_mapAt_eq index f (prev : list BatchImage) :
  mapAt index f prev !! index = f <$> prev !! index.
Proof.
  unfold mapAt. rewrite list_lookup_imap.
  destruct (prev !! index); simpl; [|done]. by rewrite decide_True.
Qed.

Lemma lookup_mapAt_ne index f (prev : list BatchImage) j :
  j ≠ index → mapAt index f prev !! j = prev !! j.
Proof.
  intros Hne. unfold mapAt. rewrite list_lookup_imap.
  destruct (prev !! j); simpl; [|done]. by rewrite decide_False.
Qed.

Lemma workers_split (ws : list Worker) w x :
  ws !! w = Some x →
  ∃ l1 l2, ws = l1 ++ x :: l2 ∧ ∀ y, <[w := y]> ws = l1 ++ y :: l2.
Proof.
  intros Hw. exists (take w ws), (drop (S w) ws). split.
  - by rewrite take_drop_middle.
  - intros y. apply insert_take_drop. by eapply lookup_lt_Some.
Qed.

Lemma awaited_insert (ws : list Worker) w x :
  ws !! w = Some x →
  ∃ rest, awaited ws ≡ₚ option_list (awaitedIndex x) ++ rest
    ∧ ∀ y, awaited (<[w := y]> ws) ≡ₚ option_list (awaitedIndex y) ++ rest.
Proof.
  intros (l1 & l2 & -> & Hins)%workers_split.
  exists (awaited l1 ++ awaited l2). split.
  - unfold awaited. rewrite omap_app. simpl.
    destruct (awaitedIndex x); simpl; [|done].
    by rewrite Permutation_middle.
  - intros y. rewrite Hins. unfold awaited. rewrite omap_app. simpl.
    destruct (awaitedIndex y); simpl; [|done].
    by rewrite Permutation_middle.
Qed.

Lemma weight_insert (ws : list Worker) w x y :
  ws !! w = Some x →
  sum_list_with weight (<[w := y]> ws) + weight x
  = sum_list_with weight ws + weight y.
Proof.
  intros (l1 & l2 & -> & Hins)%workers_split. rewrite Hins.
  rewrite !sum_list_with_app. simpl. lia.
Qed.

(** ** The pending list *)

Lemma pending_sorted_from (imgs : list BatchImage) k :
  let l := (filter (fun item : Item => status item.1 <> Completed)
              (imap (fun index img => (img, k + index)) imgs)).*2 in
  StronglySorted lt l ∧ Forall (fun i => k ≤ i) l.
Proof.
  revert k. induction imgs as [|img imgs IH]; intros k; cbv zeta.
  { split; constructor. }
  rewrite imap_cons.
  replace (imap ((fun index img0 => (img0, k + index)) ∘ S) imgs)
    with (imap (fun index img0 => (img0, S k + index)) imgs)
    by (apply imap_ext; intros; simpl; f_equal; lia).
  destruct (IH (S k)) as [Hs Hf]. rewrite filter_cons.
  assert (Hf' : Forall (fun i => k ≤ i)
    (filter (fun item : Item => status item.1 <> Completed)
       (imap (fun index img0 => (img0, S k + index)) imgs)).*2).
  { eapply Forall_impl; [exact Hf|]. simpl. intros; lia. }
  case_decide; simpl; [|done]. split.
  - constructor; [done|]. eapply Forall_impl; [exact Hf|]. simpl. intros; lia.
  - constructor; [lia|done].
Qed.

Lemma selectPending_sorted imgs : StronglySorted lt (selectPending imgs).*2.
Proof. apply (pending_sorted_from imgs 0). Qed.

Lemma selectPending_NoDup imgs : NoDup (selectPending imgs).*2.
Proof.
  generalize (selectPending_sorted imgs).
  induction 1 as [|x l _ IH Hx]; constructor; [|done].
  intros Hin. rewrite Forall_forall in Hx. specialize (Hx _ Hin). lia.
Qed.

Lemma selectPending_hd_le imgs i :
  i ∈ (selectPending imgs).*2 → hd 0 (selectPending imgs).*2 ≤ i.
Proof.
  generalize (selectPending_sorted imgs).
  destruct 1 as [|x l _ Hx]; [by intros ?%elem_of_nil|].
  simpl. intros [->|Hin]%elem_of_cons; [done|].
  rewrite Forall_forall in Hx. specialize (Hx _ Hin). lia.
Qed.

Lemma elem_of_selectPending imgs (item : Item) :
  item ∈ selectPending imgs ↔
  imgs !! item.2 = Some item.1 ∧ status item.1 ≠ Completed.
Proof.
  unfold selectPending. rewrite list_elem_of_filter, elem_of_lookup_imap.
  split.
  - intros (Hst & i & img & -> & Hi). done.
  - intros (Hi & Hst). split; [done|].
    exists item.2, item.1. by destruct item.
Qed.

Lemma elem_of_selectPending_indices imgs i :
  i ∈ (selectPending imgs).*2 ↔
  ∃ img, imgs !! i = Some img ∧ status img ≠ Completed.
Proof.
  rewrite list_elem_of_fmap. split.
  - intros ([img j] & -> & Hin). apply elem_of_selectPending in Hin.
    by exists img.
  - intros (img & Hi & Hst). exists (img, i). split; [done|].
    by apply elem_of_selectPending.
Qed.

(** ** tryAppendText: the loop *)

(** The loop pops the entries at [next], [next + 1], ... up to the first
    index absent from the map, and appends them in that order. *)
Lemma tryAppend_loop_spec fuel (m : gmap nat string) next text :
  size m ≤ fuel →
  ∃ k m',
    tryAppend_loop fuel m next text
    = (m', next + k,
       foldl appendChunk text (omap (fun j => m !! j) (seq next k)))
    ∧ (∀ j, next ≤ j < next + k → is_Some (m !! j))
    ∧ m !! (next + k) = None
    ∧ ∀ i, m' !! i = if decide (next ≤ i < next + k) then None else m !! i.
Proof.
  revert m next text. induction fuel as [|fuel IH]; intros m next text Hsz.
  - assert (m = ∅) as -> by (apply map_size_empty_inv; lia).
    exists 0, ∅. simpl. rewrite Nat.add_0_r. split_and!; try done.
    + intros j ?; lia.
    + intros i. by case_decide.
  - simpl. destruct (m !! next) as [c|] eqn:Hc.
    + destruct (IH (delete next m) (S next) (appendChunk text c))
        as (k & m' & Heq & Hsome & Hnone & Hm').
      { rewrite map_size_delete, Hc. lia. }
      exists (S k), m'. rewrite Heq.
      replace (next + S k) with (S next + k) by lia. split_and!.
      * simpl. rewrite Hc. simpl. do 2 f_equal.
        apply list_omap_ext, Forall_Forall2_diag, Forall_forall.
        intros j (Hj & _)%elem_of_seq. rewrite lookup_delete_ne; [done|lia].
      * intros j Hj. destruct (decide (j = next)) as [->|Hne]; [by eexists|].
        specialize (Hsome j ltac:(lia)).
        by rewrite lookup_delete_ne in Hsome by lia.
      * by rewrite lookup_delete_ne in Hnone by lia.
      * intros i. rewrite Hm'. repeat case_decide; try lia; try done.
        -- assert (i = next) as -> by lia. by rewrite lookup_delete_eq.
        -- rewrite lookup_delete_ne; [done|lia].
    + exists 0, m. rewrite Nat.add_0_r. split_and!; try done.
      * intros j ?; lia.
      * intros i. case_decide; [lia|done].
Qed.

Lemma omap_total {A B} (f : A → option B) (g : A → B) (l : list A) :
  (∀ x, x ∈ l → f x = Some (g x)) → omap f l = g <$> l.
Proof.
  induction l as [|x l IH]; intros H; [done|]. csimpl.
  rewrite (H x) by left. rewrite IH; [done|].
  intros y Hy. apply H. by right.
Qed.

(** ** The steps, spelled out *)

Lemma processItem_settle_eq item o a r :
  processItem_settle item o (a, r)
  = tryAppendText (setImages (mapAt item.2 (settleImage o)) a,
                   publish item.2 (chunkOf o) r).
Proof. by destruct o. Qed.

Lemma step_progress_inv w p a r a' r' :
  step (EProgress w p) (a, r) = Some (a', r') →
  ∃ item, workers r !! w = Some (Awaiting item)
    ∧ a' = setImages (mapAt item.2 (with_progress p)) a ∧ r' = r.
Proof.
  unfold step; simpl. destruct (workers r !! w) as [[|item|]|]; try done.
  intros [= <- <-]. by exists item.
Qed.

Lemma step_resume_inv w a r a' r' :
  step (EResume w) (a, r) = Some (a', r') →
  workers r !! w = Some AtLoopHead ∧
  ((∃ item, pendingItems r !! queuePointer r = Some item
      ∧ a' = setImages (mapAt item.2 (with_status Processing)) a
      ∧ r' = {| pendingItems := pendingItems r;
                nextIndexToAppend := nextIndexToAppend r;
                completedTexts := completedTexts r;
                queuePointer := S (queuePointer r);
                workers := <[w := Awaiting item]> (workers r);
                calls := calls r ++ [(w, item.2)]; oracle := oracle r |})
   ∨ (pendingItems r !! queuePointer r = None ∧ a' = a
      ∧ r' = setWorker w Done r)).
Proof.
  unfold step; simpl. destruct (workers r !! w) as [[|item|]|]; try done.
  destruct (pendingItems r !! queuePointer r) as [item|]; simpl;
    intros [= <- <-]; (split; [done|]); [left; by exists item|by right].
Qed.

Lemma step_settle_inv w a r a' r' :
  step (ESettle w) (a, r) = Some (a', r') →
  ∃ item k m',
    workers r !! w = Some (Awaiting item)
    ∧ (∀ j, nextIndexToAppend r ≤ j < nextIndexToAppend r + k →
         is_Some (<[item.2 := chunkOf (oracle r item.2)]> (completedTexts r) !! j))
    ∧ <[item.2 := chunkOf (oracle r item.2)]> (completedTexts r)
        !! (nextIndexToAppend r + k) = None
    ∧ (∀ i, m' !! i =
         if decide (nextIndexToAppend r ≤ i < nextIndexToAppend r + k)
         then None
         else <[item.2 := chunkOf (oracle r item.2)]> (completedTexts r) !! i)
    ∧ a' = setFinalText
             (foldl appendChunk (finalText a)
                (omap (fun j => <[item.2 := chunkOf (oracle r item.2)]>
                                  (completedTexts r) !! j)
                   (seq (nextIndexToAppend r) k)))
             (setImages (mapAt item.2 (settleImage (oracle r item.2))) a)
    ∧ r' = {| pendingItems := pendingItems r;
              nextIndexToAppend := nextIndexToAppend r + k;
              completedTexts := m';
              queuePointer := queuePointer r;
              workers := <[w := AtLoopHead]> (workers r);
              calls := calls r; oracle := oracle r |}.
Proof.
  unfold step; cbn [fst snd].
  destruct (workers r !! w) as [[|item|]|]; try done.
  rewrite processItem_settle_eq. unfold tryAppendText, publish; simpl.
  destruct (tryAppend_loop_spec
    (size (<[item.2 := chunkOf (oracle r item.2)]> (completedTexts r)))
    (<[item.2 := chunkOf (oracle r item.2)]> (completedTexts r))
    (nextIndexToAppend r) (finalText a)) as (k & m' & Heq & H1 & H2 & H3);
    [done|].
  rewrite Heq. simpl. intros [= <- <-]. by exists item, k, m'.
Qed.

(** Every event is enabled exactly on the worker state it resumes. *)
Lemma step_enabled e a r :
  is_Some (step e (a, r)) ↔
  match e with
  | EProgress w _ | ESettle w => ∃ item, workers r !! w = Some (Awaiting item)
  | EResume w => workers r !! w = Some AtLoopHead
  end.
Proof.
  destruct e as [w p|w|w]; unfold step; simpl;
    destruct (workers r !! w) as [[|item|]|]; split;
    try (intros [? [=]]); try (intros [? [=]]); try done; eauto.
Qed.

(** ** The queue and the workers: [Struct] is an invariant *)

Lemma NoDup_not_in_take {A} (l : list A) n x :
  NoDup l → l !! n = Some x → x ∉ take n l.
Proof.
  intros Hnd Hn (i & Hi & Hlt)%elem_of_take.
  assert (i = n) by (eapply NoDup_lookup; eauto). lia.
Qed.

Lemma elem_of_workers_insert (ws : list Worker) w x y :
  x ∈ <[w := y]> ws → x = y ∨ x ∈ ws.
Proof.
  intros (i & Hi)%list_elem_of_lookup.
  destruct (decide (i = w)) as [->|Hne].
  - left. apply lookup_lt_Some in Hi as Hlt. rewrite length_insert in Hlt.
    rewrite list_lookup_insert_eq in Hi by done. congruence.
  - right. rewrite list_lookup_insert_ne in Hi by done.
    apply list_elem_of_lookup; eauto.
Qed.

Lemma claimed_next (r : Run) (item : Item) :
  pendingItems r !! queuePointer r = Some item →
  take (S (queuePointer r)) (indices r) = claimed r ++ [item.2].
Proof.
  intros Hq. unfold claimed, indices. apply take_S_r.
  by rewrite list_lookup_fmap, Hq.
Qed.

Lemma Struct_step e a r a' r' :
  Struct r → step e (a, r) = Some (a', r') →
  Struct r' ∧ pendingItems r' = pendingItems r ∧ oracle r' = oracle r.
Proof.
  intros [Hnd Hqp Hawn Hawc Hcalls Hdone Hws Hne] Hstep.
  destruct e as [w p|w|w].
  - apply step_progress_inv in Hstep as (item & _ & _ & ->). by split.
  - apply step_settle_inv in Hstep
      as (item & k & m' & Hw & _ & _ & _ & _ & ->).
    split; [|done].
    destruct (awaited_insert _ _ _ Hw) as (rest & Hold & Hnew).
    specialize (Hnew AtLoopHead). simpl in Hold, Hnew.
    constructor; unfold claimed, indices in *; simpl; try done.
    + rewrite Hnew. rewrite Hold in Hawn. by apply NoDup_cons in Hawn as [_ ?].
    + intros i Hi. apply Hawc. rewrite Hold. rewrite Hnew in Hi. by right.
    + intros [[=]|Hin]%elem_of_workers_insert. by apply Hdone.
    + by rewrite length_insert.
  - apply step_resume_inv in Hstep
      as (Hw & [(item & Hq & _ & ->)|(Hq & _ & ->)]).
    + split; [|done].
      destruct (awaited_insert _ _ _ Hw) as (rest & Hold & Hnew).
      specialize (Hnew (Awaiting item)). simpl in Hold, Hnew.
      pose proof (claimed_next r item Hq) as Hcl.
      assert (Hfresh : item.2 ∉ claimed r).
      { apply NoDup_not_in_take; [done|].
        unfold indices. by rewrite list_lookup_fmap, Hq. }
      apply lookup_lt_Some in Hq as Hlt.
      constructor; unfold claimed, indices in *; simpl; try done.
      * rewrite Hnew. apply NoDup_cons. split; [|by rewrite <- Hold].
        intros Hin. apply Hfresh, Hawc. by rewrite Hold.
      * intros i. rewrite Hnew, Hcl.
        intros [->|Hin]%elem_of_cons; apply elem_of_app.
        -- right. by left.
        -- left. apply Hawc. by rewrite Hold.
      * by rewrite fmap_app, Hcalls, Hcl.
      * intros [[=]|Hin]%elem_of_workers_insert. apply Hdone in Hin. lia.
      * by rewrite length_insert.
    + split; [|done].
      destruct (awaited_insert _ _ _ Hw) as (rest & Hold & Hnew).
      specialize (Hnew Done). simpl in Hold, Hnew.
      apply lookup_ge_None_1 in Hq.
      constructor; unfold claimed, indices in *; simpl; try done.
      * by rewrite Hnew, <- Hold.
      * intros i Hi. apply Hawc. rewrite Hold. by rewrite Hnew in Hi.
      * by rewrite length_insert.
Qed.

(** ** The reassembler: [Reasm] is an invariant *)

Lemma Reasm_iff orc prev first (S S' : nat → Prop) m next text :
  (∀ i, S i ↔ S' i) →
  Reasm orc prev first S m next text → Reasm orc prev first S' m next text.
Proof.
  intros HS [H1 H2 H3 H4]. constructor; try done.
  - intros i c. rewrite H2. by rewrite HS.
  - intros i Hi. by apply HS, H3.
Qed.

(** Publishing the chunk of an index that had not settled. *)
Lemma Reasm_publish orc prev first (S : nat → Prop) m next text i :
  Reasm orc prev first S m next text → ¬ S i → next ≤ i →
  Reasm orc prev first (fun j => S j ∨ j = i)
    (<[i := chunkOf (orc i)]> m) next text.
Proof.
  intros [H1 H2 H3 H4] HnS Hle. constructor; try done.
  - intros j c. destruct (decide (j = i)) as [->|Hne].
    + rewrite lookup_insert_eq. split.
      * intros [= <-]. auto.
      * intros (_ & _ & ->). done.
    + rewrite lookup_insert_ne by done. rewrite H2. tauto.
  - intros j Hj. left. by apply H3.
Qed.

(** Flushing the [k] entries found at the frontier. *)
Lemma Reasm_flush orc prev first (S : nat → Prop) m m' next text k :
  Reasm orc prev first S m next text →
  (∀ j, next ≤ j < next + k → is_Some (m !! j)) →
  (∀ i, m' !! i = if decide (next ≤ i < next + k) then None else m !! i) →
  Reasm orc prev first S m' (next + k)
    (foldl appendChunk text (omap (fun j => m !! j) (seq next k))).
Proof.
  intros [H1 H2 H3 H4] Hsome Hm'.
  assert (Hin : ∀ j, next ≤ j < next + k →
            S j ∧ m !! j = Some (chunkOf (orc j))).
  { intros j Hj. destruct (Hsome j Hj) as [c Hc].
    pose proof Hc as Hc'. apply H2 in Hc' as (? & _ & ->). done. }
  constructor.
  - lia.
  - intros i c. rewrite Hm'. case_decide as Hd.
    + split; [done|]. intros (_ & ? & _). lia.
    + rewrite H2. split.
      * intros (? & ? & ?). split_and!; try done. lia.
      * intros (? & ? & ?). split_and!; try done. lia.
  - intros i Hi. destruct (decide (i < next)); [apply H3; lia|].
    apply Hin. lia.
  - rewrite H4, <- foldl_app. f_equal.
    rewrite (omap_total _ (chunkOf ∘ orc)).
    + rewrite <- fmap_app. f_equal.
      replace (next + k - first) with ((next - first) + k) by lia.
      rewrite seq_app. do 2 f_equal. lia.
    + intros j (Hj1 & Hj2)%elem_of_seq. simpl. by apply Hin.
Qed.

Lemma settled_after_settle (r : Run) w item r' :
  Struct r → workers r !! w = Some (Awaiting item) →
  pendingItems r' = pendingItems r → queuePointer r' = queuePointer r →
  workers r' = <[w := AtLoopHead]> (workers r) →
  ∀ j, settled r' j ↔ settled r j ∨ j = item.2.
Proof.
  intros Hst Hw Hp Hq Hws j. unfold settled, claimed, indices.
  rewrite Hp, Hq, Hws.
  destruct (awaited_insert _ _ _ Hw) as (rest & Hold & Hnew).
  specialize (Hnew AtLoopHead). simpl in Hold, Hnew.
  pose proof (st_aw_nodup _ Hst) as Hnd. rewrite Hold in Hnd.
  apply NoDup_cons in Hnd as [Hnotin _].
  pose proof (st_aw_claimed _ Hst item.2) as Hcl. rewrite Hold in Hcl.
  rewrite Hnew, Hold. rewrite not_elem_of_cons. split.
  - intros [? ?]. destruct (decide (j = item.2)); [by right|by left].
  - intros [(? & ? & ?)| ->]; [done|]. split; [|done]. apply Hcl. by left.
Qed.

Lemma settled_after_claim (r : Run) w (item : Item) r' :
  Struct r → workers r !! w = Some AtLoopHead →
  pendingItems r !! queuePointer r = Some item →
  pendingItems r' = pendingItems r → queuePointer r' = S (queuePointer r) →
  workers r' = <[w := Awaiting item]> (workers r) →
  ∀ j, settled r' j ↔ settled r j.
Proof.
  intros Hst Hw Hitem Hp Hq Hws j. unfold settled.
  assert (Hcl : claimed r' = claimed r ++ [item.2]).
  { unfold claimed at 1. unfold indices. rewrite Hp, Hq.
    by apply claimed_next. }
  assert (Hfresh : item.2 ∉ claimed r).
  { apply NoDup_not_in_take; [by apply st_nodup|].
    unfold indices. by rewrite list_lookup_fmap, Hitem. }
  rewrite Hcl, Hws.
  destruct (awaited_insert _ _ _ Hw) as (rest & Hold & Hnew).
  specialize (Hnew (Awaiting item)). simpl in Hold, Hnew.
  rewrite Hnew, Hold, not_elem_of_cons, elem_of_app, list_elem_of_singleton.
  split.
  - intros [[?|?] [? ?]]; done.
  - intros [? ?]. split_and!; [by left| |done]. intros ->. done.
Qed.

Lemma settled_after_exit (r : Run) w r' :
  workers r !! w = Some AtLoopHead →
  pendingItems r' = pendingItems r → queuePointer r' = queuePointer r →
  workers r' = <[w := Done]> (workers r) →
  ∀ j, settled r' j ↔ settled r j.
Proof.
  intros Hw Hp Hq Hws j. unfold settled, claimed, indices.
  rewrite Hp, Hq, Hws.
  destruct (awaited_insert _ _ _ Hw) as (rest & Hold & Hnew).
  specialize (Hnew Done). simpl in Hold, Hnew. by rewrite Hnew, Hold.
Qed.

Lemma ReasmInv_step orc prev first e a r a' r' :
  Struct r → oracle r = orc →
  ReasmInv orc prev first (a, r) → step e (a, r) = Some (a', r') →
  ReasmInv orc prev first (a', r').
Proof.
  intros Hst Horc (Hre & Hexit & Hun) Hstep. cbn [fst snd] in *.
  destruct e as [w p|w|w].
  - apply step_progress_inv in Hstep as (item & _ & -> & ->). done.
  - apply step_settle_inv in Hstep
      as (item & k & m' & Hw & Hsome & Hnone & Hm' & -> & ->).
    rewrite Horc in *.
    set (r' := {| pendingItems := pendingItems r;
                  nextIndexToAppend := nextIndexToAppend r + k;
                  completedTexts := m';
                  queuePointer := queuePointer r;
                  workers := <[w := AtLoopHead]> (workers r);
                  calls := calls r; oracle := orc |}).
    pose proof (settled_after_settle r w item r' Hst Hw eq_refl eq_refl eq_refl)
      as Hset.
    assert (Hin : item.2 ∈ awaited (workers r)).
    { apply list_elem_of_omap. exists (Awaiting item). split; [|done].
      apply list_elem_of_lookup; eauto. }
    assert (Hns : ¬ settled r item.2) by (intros [_ ?]; done).
    assert (Hidx : item.2 ∈ indices r).
    { apply (st_aw_claimed _ Hst) in Hin. unfold claimed in Hin.
      by apply elem_of_take in Hin as (? & ?%list_elem_of_lookup_2 & _). }
    pose proof (Hun _ Hidx Hns) as Hle.
    pose proof (Reasm_publish _ _ _ _ _ _ _ item.2 Hre Hns Hle) as Hpub.
    pose proof (Reasm_flush _ _ _ _ _ m' _ _ k Hpub Hsome Hm') as Hfl.
    unfold ReasmInv; cbn [fst snd]. split_and!.
    + eapply Reasm_iff; [|exact Hfl]. intros i. symmetry. apply Hset.
    + change (m' !! (nextIndexToAppend r + k) = None).
      rewrite Hm'. case_decide; [lia|done].
    + intros i Hi Hnot. rewrite Hset in Hnot.
      change (nextIndexToAppend r + k ≤ i).
      assert (nextIndexToAppend r ≤ i) by (apply Hun; [done|tauto]).
      destruct (decide (i < nextIndexToAppend r + k)); [|lia].
      destruct (Hsome i ltac:(lia)) as [c Hc].
      apply (re_buffer _ _ _ _ _ _ _ Hpub) in Hc as (? & _). tauto.
  - apply step_resume_inv in Hstep
      as (Hw & [(item & Hq & -> & ->)|(Hq & -> & ->)]).
    + set (r' := {| pendingItems := pendingItems r;
                    nextIndexToAppend := nextIndexToAppend r;
                    completedTexts := completedTexts r;
                    queuePointer := S (queuePointer r);
                    workers := <[w := Awaiting item]> (workers r);
                    calls := calls r ++ [(w, item.2)];
                    oracle := oracle r |}).
      pose proof (settled_after_claim r w item r' Hst Hw Hq
                    eq_refl eq_refl eq_refl) as Hset.
      unfold ReasmInv; cbn [fst snd]. split_and!; [|done|].
      * eapply Reasm_iff; [|exact Hre]. intros i. symmetry. apply Hset.
      * intros i Hi Hnot. rewrite Hset in Hnot. by apply Hun.
    + pose proof (settled_after_exit r w (setWorker w Done r) Hw
                    eq_refl eq_refl eq_refl) as Hset.
      unfold ReasmInv; cbn [fst snd]. split_and!; [|done|].
      * eapply Reasm_iff; [|exact Hre]. intros i. symmetry. apply Hset.
      * intros i Hi Hnot. rewrite Hset in Hnot. by apply Hun.
Qed.

(** ** The item store: [Store] is an invariant *)

Lemma awaited_lookup (ws : list Worker) w item :
  ws !! w = Some (Awaiting item) → item.2 ∈ awaited ws.
Proof.
  intros Hw. apply list_elem_of_omap. exists (Awaiting item).
  split; [|done]. apply list_elem_of_lookup; eauto.
Qed.

Lemma awaited_after_settle (ws : list Worker) w item i :
  NoDup (awaited ws) → ws !! w = Some (Awaiting item) →
  i ∈ awaited (<[w := AtLoopHead]> ws) ↔ i ∈ awaited ws ∧ i ≠ item.2.
Proof.
  intros Hnd Hw. destruct (awaited_insert _ _ _ Hw) as (rest & Hold & Hnew).
  specialize (Hnew AtLoopHead). simpl in Hold, Hnew.
  rewrite Hold in Hnd. apply NoDup_cons in Hnd as [Hnotin _].
  rewrite Hnew, Hold, elem_of_cons. split.
  - intros Hin. split; [by right|]. by intros ->.
  - intros [[?|?] ?]; done.
Qed.

Lemma awaited_after_claim (ws : list Worker) w item i :
  ws !! w = Some AtLoopHead →
  i ∈ awaited (<[w := Awaiting item]> ws) ↔ i = item.2 ∨ i ∈ awaited ws.
Proof.
  intros Hw. destruct (awaited_insert _ _ _ Hw) as (rest & Hold & Hnew).
  specialize (Hnew (Awaiting item)). simpl in Hold, Hnew.
  by rewrite Hnew, Hold, elem_of_cons.
Qed.

Lemma awaited_after_exit (ws : list Worker) w i :
  ws !! w = Some AtLoopHead →
  i ∈ awaited (<[w := Done]> ws) ↔ i ∈ awaited ws.
Proof.
  intros Hw. destruct (awaited_insert _ _ _ Hw) as (rest & Hold & Hnew).
  specialize (Hnew Done). simpl in Hold, Hnew. by rewrite Hnew, Hold.
Qed.

Lemma settleImage_processing o p img :
  settleImage o (with_progress p (with_status Processing img))
  = with_progress p (settleImage o img).
Proof. by destruct o. Qed.

Lemma Store_step imgs0 e a r a' r' :
  Struct r → Store imgs0 (images a) r → step e (a, r) = Some (a', r') →
  Store imgs0 (images a') r'.
Proof.
  intros Hst [Hlen Hbd Hun Haw Hse] Hstep. destruct e as [w p|w|w].
  - apply step_progress_inv in Hstep as (item & Hw & -> & ->).
    pose proof (awaited_lookup _ _ _ Hw) as Hin.
    constructor; simpl; try done.
    + by rewrite length_mapAt.
    + intros i Hi. rewrite lookup_mapAt_ne; [by apply Hun|].
      intros ->. by apply Hi, (st_aw_claimed _ Hst).
    + intros i Hi. destruct (Haw i Hi) as (img0 & q & H0 & Hi').
      exists img0. destruct (decide (i = item.2)) as [->|Hne].
      * exists p. split; [done|]. by rewrite lookup_mapAt_eq, Hi'.
      * exists q. split; [done|]. by rewrite lookup_mapAt_ne.
    + intros i Hi. destruct (Hse i Hi) as (img0 & q & H0 & Hi').
      exists img0, q. split; [done|]. rewrite lookup_mapAt_ne; [done|].
      intros ->. by destruct Hi.
  - apply step_settle_inv in Hstep
      as (item & k & m' & Hw & _ & _ & _ & -> & ->).
    pose proof (awaited_lookup _ _ _ Hw) as Hin.
    set (r' := {| pendingItems := pendingItems r;
                  nextIndexToAppend := nextIndexToAppend r + k;
                  completedTexts := m';
                  queuePointer := queuePointer r;
                  workers := <[w := AtLoopHead]> (workers r);
                  calls := calls r; oracle := oracle r |}).
    pose proof (settled_after_settle r w item r' Hst Hw eq_refl eq_refl eq_refl)
      as Hset.
    constructor; try done.
    + cbn. by rewrite length_mapAt.
    + intros i Hi. cbn. rewrite lookup_mapAt_ne; [by apply Hun|].
      intros ->. by apply Hi, (st_aw_claimed _ Hst).
    + intros i Hi.
      apply (awaited_after_settle (workers r) w item) in Hi as [Hi Hne];
        [|by apply st_aw_nodup|done].
      cbn. rewrite lookup_mapAt_ne by done. by apply Haw.
    + intros i Hi. apply Hset in Hi as [Hi| ->]; cbn.
      * destruct (Hse i Hi) as (img0 & q & H0 & Hi').
        exists img0, q. split; [done|]. rewrite lookup_mapAt_ne; [done|].
        intros ->. by destruct Hi.
      * destruct (Haw _ Hin) as (img0 & q & H0 & Hi').
        exists img0, q. split; [done|].
        by rewrite lookup_mapAt_eq, Hi', <- settleImage_processing.
  - apply step_resume_inv in Hstep
      as (Hw & [(item & Hq & -> & ->)|(Hq & -> & ->)]).
    + set (r' := {| pendingItems := pendingItems r;
                    nextIndexToAppend := nextIndexToAppend r;
                    completedTexts := completedTexts r;
                    queuePointer := S (queuePointer r);
                    workers := <[w := Awaiting item]> (workers r);
                    calls := calls r ++ [(w, item.2)];
                    oracle := oracle r |}).
      pose proof (settled_after_claim r w item r' Hst Hw Hq
                    eq_refl eq_refl eq_refl) as Hset.
      assert (Hcl : claimed r' = claimed r ++ [item.2])
        by exact (claimed_next r item Hq).
      assert (Hfresh : item.2 ∉ claimed r).
      { apply NoDup_not_in_take; [by apply st_nodup|].
        unfold indices. by rewrite list_lookup_fmap, Hq. }
      assert (Hidx : item.2 ∈ indices r).
      { unfold indices. apply list_elem_of_fmap. exists item.
        split; [done|]. by eapply list_elem_of_lookup_2. }
      constructor; try done.
      * cbn. by rewrite length_mapAt.
      * intros i Hi. rewrite Hcl in Hi.
        apply not_elem_of_app in Hi as [Hi Hne].
        rewrite list_elem_of_singleton in Hne.
        cbn. rewrite lookup_mapAt_ne by done. by apply Hun.
      * intros i Hi.
        apply (awaited_after_claim (workers r) w item) in Hi; [|done].
        destruct (decide (i = item.2)) as [->|Hne].
        -- destruct (Hbd _ Hidx) as [img0 H0]. exists img0, (progress img0).
           split; [done|]. cbn.
           by rewrite lookup_mapAt_eq, (Hun _ Hfresh), H0.
        -- destruct Hi as [?|Hi]; [done|].
           destruct (Haw i Hi) as (img0 & q & H0 & Hi').
           exists img0, q. split; [done|]. cbn.
           by rewrite lookup_mapAt_ne.
      * intros i Hi. apply Hset in Hi.
        destruct (Hse i Hi) as (img0 & q & H0 & Hi').
        exists img0, q. split; [done|]. cbn.
        rewrite lookup_mapAt_ne; [done|]. intros ->. by destruct Hi.
    + pose proof (settled_after_exit r w (setWorker w Done r) Hw
                    eq_refl eq_refl eq_refl) as Hset.
      constructor; try done.
      * intros i Hi. apply (awaited_after_exit (workers r) w) in Hi; [|done].
        by apply Haw.
      * intros i Hi. apply Hset in Hi. by apply Hse.
Qed.

(** ** [RunInv] holds from the start of a run to its end *)

Lemma step_flags e a r a' r' :
  step e (a, r) = Some (a', r') →
  isProcessing a' = isProcessing a ∧ apiKey a' = apiKey a
  ∧ showKeyModal a' = showKeyModal a.
Proof.
  intros Hstep. destruct e as [w p|w|w].
  - by apply step_progress_inv in Hstep as (item & _ & -> & _).
  - by apply step_settle_inv in Hstep as (item & k & m' & _ & _ & _ & _ & -> & _).
  - by apply step_resume_inv in Hstep
      as (_ & [(item & _ & -> & _)|(_ & -> & _)]).
Qed.

Lemma RunInv_step orc a0 e s s' :
  RunInv orc a0 s → step e s = Some s' → RunInv orc a0 s'.
Proof.
  destruct s as [a r], s' as [a' r'].
  intros [Hp Ho Hst Hre Hso (Hf1 & Hf2 & Hf3)] Hstep. cbn [fst snd] in *.
  destruct (Struct_step _ _ _ _ _ Hst Hstep) as (Hst' & Hp' & Ho').
  destruct (step_flags _ _ _ _ _ Hstep) as (Hg1 & Hg2 & Hg3).
  constructor; cbn [fst snd].
  - congruence.
  - congruence.
  - done.
  - unfold indices. rewrite Hp'.
    exact (ReasmInv_step orc _ _ e a r a' r' Hst Ho Hre Hstep).
  - exact (Store_step _ e a r a' r' Hst Hso Hstep).
  - split_and!; congruence.
Qed.

Lemma RunInv_exec orc a0 sched s s' :
  RunInv orc a0 s → exec sched s = Some s' → RunInv orc a0 s'.
Proof.
  revert s. induction sched as [|e sched IH]; intros s Hinv; simpl.
  - by intros [= <-].
  - destruct (step e s) as [s1|] eqn:Hstep; [|done].
    apply IH. by eapply RunInv_step.
Qed.

Lemma awaited_replicate n : awaited (replicate n AtLoopHead) = [].
Proof. induction n; [done|]. by simpl. Qed.

Lemma runWorker_workers_ne w w' s :
  w' ≠ w → workers (runWorker w s).2 !! w' = workers s.2 !! w'.
Proof.
  intros Hne. destruct s as [a r]. unfold runWorker.
  destruct (pendingItems r !! queuePointer r); simpl;
    by rewrite list_lookup_insert_ne.
Qed.

(** The synchronous start of the workers is the schedule that resumes
    them in turn. *)
Lemma spawn_exec (l : list nat) s :
  NoDup l → (∀ w, w ∈ l → workers s.2 !! w = Some AtLoopHead) →
  exec (EResume <$> l) s = Some (foldl (fun s w => runWorker w s) s l).
Proof.
  revert s. induction l as [|w l IH]; intros s Hnd Hl; [done|].
  apply NoDup_cons in Hnd as [Hw Hnd]. simpl.
  rewrite (Hl w) by left. apply IH; [done|].
  intros w' Hw'. rewrite runWorker_workers_ne; [|by intros ->].
  apply Hl. by right.
Qed.

(** The state in which [startBatchProcess] creates the workers. *)
Lemma startBatchProcess_Some orc a a1 r1 :
  startBatchProcess orc a = (a1, Some r1) →
  ∃ first rest,
    isProcessing a = false ∧ truthy (apiKey a) = true
    ∧ selectPending (images a) = first :: rest
    ∧ let n := Nat.min CONCURRENCY_LIMIT (length (first :: rest)) in
      let r0 := {| pendingItems := first :: rest;
                   nextIndexToAppend := first.2;
                   completedTexts := ∅;
                   queuePointer := 0;
                   workers := replicate n AtLoopHead;
                   calls := []; oracle := orc |} in
      exec (EResume <$> seq 0 n) (setIsProcessing true a, r0)
      = Some (a1, r1).
Proof.
  unfold startBatchProcess.
  destruct (isProcessing a) eqn:Hp; [done|].
  destruct (truthy (apiKey a)) eqn:Hk; [|done]. cbn [negb].
  destruct (selectPending (images a)) as [|first rest] eqn:Hsel; [done|].
  cbv zeta. intros [= <- <-]. exists first, rest.
  split; [done|]. split; [done|]. split; [done|].
  rewrite spawn_exec.
  - by destruct (foldl _ _ _).
  - apply NoDup_seq.
  - intros w (_ & Hw)%elem_of_seq. cbn [snd workers].
    apply lookup_replicate_2. lia.
Qed.

Lemma RunInv_initial orc a first rest n :
  selectPending (images a) = first :: rest →
  n = Nat.min CONCURRENCY_LIMIT (length (first :: rest)) →
  RunInv orc a
    (setIsProcessing true a,
     {| pendingItems := first :: rest;
        nextIndexToAppend := first.2;
        completedTexts := ∅;
        queuePointer := 0;
        workers := replicate n AtLoopHead;
        calls := []; oracle := orc |}).
Proof.
  intros Hsel Hn.
  assert (Hset : ∀ r i, queuePointer r = 0 → ¬ settled r i).
  { intros r i Hq [Hin _]. unfold claimed in Hin. rewrite Hq in Hin.
    by apply elem_of_nil in Hin. }
  constructor; cbn [fst snd].
  - done.
  - done.
  - constructor; unfold claimed, indices; proj_simpl.
    + rewrite <- Hsel. apply selectPending_NoDup.
    + lia.
    + rewrite awaited_replicate. constructor.
    + intros i. rewrite awaited_replicate. by intros ?%elem_of_nil.
    + done.
    + by intros [? _]%elem_of_replicate.
    + by rewrite length_replicate.
    + simpl. lia.
  - split_and!; cbn [fst snd].
    + constructor; proj_simpl.
      * done.
      * intros i c. rewrite lookup_empty. split; [done|].
        intros [Hs _]. by apply Hset in Hs.
      * intros i ?. simpl in *. lia.
      * unfold indices; proj_simpl. simpl hd. by rewrite Nat.sub_diag.
    + apply lookup_empty.
    + intros i Hi _. unfold indices in Hi; proj_simpl in Hi. proj_simpl.
      rewrite <- Hsel in Hi. apply selectPending_hd_le in Hi.
      by rewrite Hsel in Hi.
  - constructor; proj_simpl.
    + done.
    + intros i Hi. unfold indices in Hi; proj_simpl in Hi.
      rewrite <- Hsel in Hi.
      apply elem_of_selectPending_indices in Hi as (img & -> & _). by eexists.
    + done.
    + intros i. rewrite awaited_replicate. by intros ?%elem_of_nil.
    + intros i Hs. by apply Hset in Hs.
  - done.
Qed.

Lemma RunInv_start orc a a1 r1 :
  startBatchProcess orc a = (a1, Some r1) → RunInv orc a (a1, r1).
Proof.
  intros (first & rest & _ & _ & Hsel & Hexec)%startBatchProcess_Some.
  eapply RunInv_exec; [|exact Hexec]. by apply RunInv_initial.
Qed.

Lemma RunInv_run orc a a1 r1 sched s :
  startBatchProcess orc a = (a1, Some r1) → exec sched (a1, r1) = Some s →
  RunInv orc a s.
Proof. intros Hstart Hexec. eapply RunInv_exec; [|exact Hexec]. by apply RunInv_start. Qed.

(** ** Progress of the pool *)

Lemma weight_zero_iff (ws : list Worker) :
  sum_list_with weight ws = 0 ↔ forallb is_Done ws = true.
Proof.
  induction ws as [|x ws IH]; [done|]. simpl.
  destruct x; simpl; rewrite <- ?IH; split; try done; lia.
Qed.

Lemma remaining_step e a r a' r' :
  step e (a, r) = Some (a', r') →
  remaining r' + (if effective e then 1 else 0) = remaining r.
Proof.
  intros Hstep. unfold remaining. destruct e as [w p|w|w]; simpl.
  - apply step_progress_inv in Hstep as (item & _ & _ & ->). lia.
  - apply step_settle_inv in Hstep as (item & k & m' & Hw & _ & _ & _ & _ & ->).
    pose proof (weight_insert _ _ _ AtLoopHead Hw). simpl in *. lia.
  - apply step_resume_inv in Hstep
      as (Hw & [(item & Hq & _ & ->)|(Hq & _ & ->)]).
    + pose proof (weight_insert _ _ _ (Awaiting item) Hw).
      apply lookup_lt_Some in Hq. simpl in *. lia.
    + pose proof (weight_insert _ _ _ Done Hw). simpl in *. lia.
Qed.

Lemma remaining_exec sched s s' :
  exec sched s = Some s' →
  remaining s'.2 + length (filter (fun e => effective e = true) sched)
  = remaining s.2.
Proof.
  revert s. induction sched as [|e sched IH]; intros s; simpl.
  - intros [= <-]. lia.
  - destruct (step e s) as [s1|] eqn:Hstep; [|done]. intros Hexec.
    specialize (IH _ Hexec). destruct s as [a r], s1 as [a1 r1].
    apply remaining_step in Hstep. rewrite filter_cons.
    cbn [fst snd] in *. case_decide as He.
    + rewrite He in Hstep. cbn [length]. lia.
    + apply not_true_is_false in He. rewrite He in Hstep. lia.
Qed.

Lemma finished_remaining r :
  Struct r → finished r = true ↔ remaining r = 0.
Proof.
  intros Hst. unfold finished, remaining. rewrite <- weight_zero_iff. split.
  - intros Hw. rewrite Hw.
    assert (Hdone : Done ∈ workers r).
    { pose proof (st_workers _ Hst) as Hlen.
      pose proof (st_nonempty _ Hst) as Hne.
      destruct (workers r) as [|x ws] eqn:Hws.
      { cbn [length] in Hlen. unfold CONCURRENCY_LIMIT in Hlen. lia. }
      simpl in Hw. destruct x; simpl in Hw; try lia. left. }
    apply (st_done _ Hst) in Hdone. lia.
  - lia.
Qed.

Lemma finished_all_settled r i :
  Struct r → finished r = true → settled r i ↔ i ∈ indices r.
Proof.
  intros Hst Hfin.
  assert (Haw : awaited (workers r) = []).
  { unfold finished in Hfin. unfold awaited.
    induction (workers r) as [|x ws IH]; [done|]. simpl in *.
    destruct x; simpl in *; try done. by apply IH. }
  assert (Hq : claimed r = indices r).
  { apply (finished_remaining _ Hst) in Hfin. unfold remaining in Hfin.
    unfold claimed. apply take_ge. unfold indices. rewrite length_fmap.
    pose proof (st_qp _ Hst). lia. }
  unfold settled. rewrite Haw, Hq. split; [tauto|].
  intros ?. split; [done|]. by intros ?%elem_of_nil.
Qed.

(** What is left to do when a run has just started: two steps per
    pending item. *)
Lemma remaining_start orc a a1 r1 :
  startBatchProcess orc a = (a1, Some r1) →
  remaining r1 = 2 * length (selectPending (images a)).
Proof.
  intros (first & rest & _ & _ & Hsel & Hexec)%startBatchProcess_Some.
  cbv zeta in Hexec. apply remaining_exec in Hexec. revert Hexec.
  generalize (Nat.min_spec CONCURRENCY_LIMIT (length (first :: rest))).
  generalize (Nat.min CONCURRENCY_LIMIT (length (first :: rest))) as n.
  intros n Hn. unfold remaining at 2. proj_simpl. rewrite Hsel.
  assert (Heff : ∀ k, length (filter (fun e => effective e = true)
                                (EResume <$> seq k n)) = n).
  { clear. induction n as [|n IH]; intros k; [done|].
    simpl seq. rewrite fmap_cons, filter_cons_True by done.
    cbn [length]. by rewrite IH. }
  assert (Hsum : sum_list_with weight (replicate n AtLoopHead) = n).
  { clear. induction n; simpl; [done|]. lia. }
  rewrite Heff, Hsum. cbn [fst snd]. lia.
Qed.

(** ** The output, as the source computes it and as the design words it *)

Lemma string_app_assoc (s1 s2 s3 : string) :
  (s1 +:+ s2) +:+ s3 = s1 +:+ (s2 +:+ s3).
Proof.
  induction s1 as [|c s1 IH]; [done|].
  change (String c ((s1 +:+ s2) +:+ s3) = String c (s1 +:+ (s2 +:+ s3))).
  by rewrite IH.
Qed.

Lemma truthy_true s : truthy s = true ↔ s ≠ "".
Proof. by destruct s. Qed.

Lemma joinChunks_appendChunk prev c cs :
  joinChunks (appendChunk prev c :: cs) = joinChunks (prev :: c :: cs).
Proof.
  unfold joinChunks.
  rewrite (filter_cons _ prev), (filter_cons _ c),
    (filter_cons _ (appendChunk prev c)).
  destruct c as [|x c]; [|destruct prev as [|y prev]];
    unfold appendChunk; cbn [truthy].
  - repeat case_decide; done.
  - repeat case_decide; done.
  - assert (Hne : (String y prev +:+ blankLine) +:+ String x c ≠ "")
      by (intros H; discriminate H).
    rewrite !decide_True by done.
    cbn [String.concat].
    destruct (filter (fun c0 : string => c0 ≠ "") cs) as [|z zs].
    + by rewrite string_app_assoc.
    + by rewrite !string_app_assoc.
Qed.

Lemma foldl_appendChunk prev cs :
  foldl appendChunk prev cs = joinChunks (prev :: cs).
Proof.
  revert prev. induction cs as [|c cs IH]; intros prev; simpl.
  - unfold joinChunks. rewrite filter_cons. case_decide; simpl; [done|].
    destruct prev; [done|]. by exfalso.
  - by rewrite IH, joinChunks_appendChunk.
Qed.

(** ** Runs from start to join *)

Lemma run_of_Some orc a sched s :
  run_of orc a sched = Some s ↔
  ∃ a1 r1, startBatchProcess orc a = (a1, Some r1)
           ∧ exec sched (a1, r1) = Some s.
Proof.
  unfold run_of. destruct (startBatchProcess orc a) as [a1 [r1|]]; split.
  - intros H. by exists a1, r1.
  - by intros (? & ? & [= <- <-] & ?).
  - done.
  - by intros (? & ? & [= ] & ?).
Qed.

Lemma RunInv_run_of orc a sched s :
  run_of orc a sched = Some s → RunInv orc a s.
Proof.
  intros (a1 & r1 & Hstart & Hexec)%run_of_Some. by eapply RunInv_run.
Qed.

Lemma run_indices orc a sched s :
  run_of orc a sched = Some s → indices s.2 = (selectPending (images a)).*2.
Proof.
  intros Hinv%RunInv_run_of. unfold indices. by rewrite (ri_pending _ _ _ Hinv).
Qed.

(** When the pending indices have no gap, a finished run has flushed
    every chunk: the frontier is one past the last index, the buffer is
    empty and the output is the fold of [appendChunk] over the chunks in
    index order. *)
Lemma run_drains orc a s :
  RunInv orc a s → finished s.2 = true → contiguous (indices s.2) →
  nextIndexToAppend s.2 = hd 0 (indices s.2) + length (indices s.2)
  ∧ completedTexts s.2 = ∅
  ∧ finalText s.1
    = foldl appendChunk (finalText a) ((chunkOf ∘ orc) <$> indices s.2).
Proof.
  destruct s as [a' r]. cbn [fst snd].
  intros [_ _ Hst (Hre & Hexit & Hun) _ _] Hfin Hctg. cbn [fst snd] in *.
  pose proof (finished_all_settled r) as Hall.
  unfold contiguous in Hctg.
  remember (hd 0 (indices r)) as first eqn:Hfirst.
  remember (length (indices r)) as n eqn:Hn.
  assert (Hidx : ∀ i, settled r i ↔ first ≤ i < first + n).
  { intros i. rewrite Hall by done. rewrite Hctg, elem_of_seq. lia. }
  pose proof (re_first _ _ _ _ _ _ _ Hre) as Hle.
  assert (Hnext : nextIndexToAppend r = first + n).
  { destruct (decide (nextIndexToAppend r < first + n)) as [Hlt|Hge].
    - assert (Hs : settled r (nextIndexToAppend r)) by (apply Hidx; lia).
      assert (Hc : completedTexts r !! nextIndexToAppend r
                   = Some (chunkOf (orc (nextIndexToAppend r)))).
      { apply (re_buffer _ _ _ _ _ _ _ Hre). done. }
      congruence.
    - destruct (decide (nextIndexToAppend r = first + n)) as [|Hne]; [done|].
      assert (Hs : settled r (first + n)).
      { apply (re_flushed _ _ _ _ _ _ _ Hre). lia. }
      apply Hidx in Hs. lia. }
  split_and!.
  - done.
  - apply map_empty. intros i.
    destruct (completedTexts r !! i) as [c|] eqn:Hc; [|done].
    apply (re_buffer _ _ _ _ _ _ _ Hre) in Hc as (Hs & Hge & _).
    apply Hidx in Hs. lia.
  - rewrite (re_text _ _ _ _ _ _ _ Hre), Hnext.
    replace (first + n - first) with n by lia. by rewrite <- Hctg.
Qed.

Lemma count_NoDup (l : list nat) i :
  NoDup l →
  length (filter (fun j => j = i) l) = if decide (i ∈ l) then 1 else 0.
Proof.
  induction 1 as [|x l Hx Hnd IH].
  - rewrite decide_False; [done|]. by intros ?%elem_of_nil.
  - destruct (decide (x = i)) as [->|Hne].
    + rewrite filter_cons_True by done.
      rewrite (decide_True (P := i ∈ i :: l)) by left.
      cbn [length]. rewrite IH. by rewrite decide_False.
    + rewrite filter_cons_False by done. rewrite IH.
      destruct (decide (i ∈ l)) as [Hin|Hnin].
      * rewrite decide_True; [done|by right].
      * rewrite decide_False; [done|]. intros [->|?]%elem_of_cons; done.
Qed.

Lemma NoDup_snd_unique (l : list (nat * nat)) w1 w2 i :
  NoDup l.*2 → (w1, i) ∈ l → (w2, i) ∈ l → w1 = w2.
Proof.
  intros Hnd (k1 & H1)%list_elem_of_lookup (k2 & H2)%list_elem_of_lookup.
  assert (k1 = k2).
  { eapply (NoDup_lookup _ _ _ i Hnd); rewrite list_lookup_fmap.
    - by rewrite H1.
    - by rewrite H2. }
  congruence.
Qed.

(** * The claims *)

(** ** Ordered reassembly *)

(** C1, as stated, fails: the output of a run is appended to the text
    already in the editor.  With ["X"] in the editor and one page resolving
    to ["A"], the final output is ["X\n\nA"], not the joined chunks
    ["A"]. *)
Lemma C1_output_is_chunks_only_counterexample :
  ¬ (∀ orc a sched a' r',
       run_of orc a sched = Some (a', r') → finished r' = true →
       finalText a' = joinChunks ((chunkOf ∘ orc) <$> indices r')).
Proof.
  intros H.
  specialize (H (okAll ["A"]) appX [ESettle 0; EResume 0]).
  destruct (run_of (okAll ["A"]) appX [ESettle 0; EResume 0])
    as [[a' r']|] eqn:E; [|by vm_compute in E].
  specialize (H a' r' eq_refl).
  vm_compute in E. injection E as <- <-. vm_compute in H.
  specialize (H eq_refl). discriminate H.
Qed.

(** C1 (amended): for every run whose pending indices have no gap and for
    every schedule (completion order), the final output is the text present
    at the start of the run followed by the chunk of each dispatched item in
    index order, the non-empty pieces joined by exactly one blank line; an
    empty chunk adds neither text nor separator, and the frontier still
    ends one past the last dispatched index. *)
Theorem C1_ordered_reassembly orc a sched a' r' :
  run_of orc a sched = Some (a', r') →
  contiguous (selectPending (images a)).*2 →
  finished r' = true →
  finalText a'
  = joinChunks (finalText a
                :: ((chunkOf ∘ orc) <$> (selectPending (images a)).*2))
  ∧ nextIndexToAppend r'
    = hd 0 (selectPending (images a)).*2
      + length (selectPending (images a)).*2.
Proof.
  intros Hrun Hctg Hfin.
  pose proof (RunInv_run_of _ _ _ _ Hrun) as Hinv.
  pose proof (run_indices _ _ _ _ Hrun) as Hidx. cbn [snd] in Hidx.
  rewrite <- Hidx in *.
  destruct (run_drains _ _ _ Hinv Hfin Hctg) as (Hnext & _ & Htext).
  split; [|done]. cbn [fst] in Htext.
  by rewrite Htext, foldl_appendChunk.
Qed.

Lemma C1_ordered_reassembly_witness :
  ∃ a' r',
    run_of (okAll ["A"; ""; "C"]) app3
      [ESettle 2; ESettle 1; EResume 2; ESettle 0; EResume 1; EResume 0]
    = Some (a', r')
    ∧ contiguous (selectPending (images app3)).*2
    ∧ finished r' = true
    ∧ finalText a' = "A" +:+ blankLine +:+ "C"
    ∧ nextIndexToAppend r' = 3.
Proof.
  destruct (run_of (okAll ["A"; ""; "C"]) app3
      [ESettle 2; ESettle 1; EResume 2; ESettle 0; EResume 1; EResume 0])
    as [[a' r']|] eqn:E; [|by vm_compute in E].
  exists a', r'. split; [done|].
  assert (Hctg : contiguous (selectPending (images app3)).*2)
    by (vm_compute; reflexivity).
  split; [exact Hctg|].
  pose proof (C1_ordered_reassembly _ _ _ _ _ E Hctg) as H.
  vm_compute in E. injection E as <- <-.
  split; [reflexivity|]. destruct (H eq_refl) as [Ht Hn].
  split; [rewrite Ht|rewrite Hn]; vm_compute; reflexivity.
Defined.

(** The other half of the invariant of the run state, where it holds: with
    contiguous pending indices a finished run has an empty buffer and its
    frontier one past the last dispatched index. *)
Lemma drained_when_contiguous orc a sched a' r' :
  run_of orc a sched = Some (a', r') →
  contiguous (selectPending (images a)).*2 →
  finished r' = true →
  completedTexts r' = ∅
  ∧ nextIndexToAppend r'
    = hd 0 (selectPending (images a)).*2
      + length (selectPending (images a)).*2.
Proof.
  intros Hrun Hctg Hfin.
  pose proof (RunInv_run_of _ _ _ _ Hrun) as Hinv.
  pose proof (run_indices _ _ _ _ Hrun) as Hidx. cbn [snd] in Hidx.
  rewrite <- Hidx in *.
  by destruct (run_drains _ _ _ Hinv Hfin Hctg) as (Hnext & Hbuf & _).
Qed.

(** C2: the run over the pages left in error around a completed page,
    pending indices 0 and 2.  Both calls settle and both workers return,
    yet the chunk of index 2 is still in the buffer, the frontier stands at
    1 and the output lacks that chunk. *)
Theorem C2_gap_leaves_chunk_in_buffer :
  (status <$> images appAfterFailures) = [Error; Completed; Error]
  ∧ (selectPending (images appAfterFailures)).*2 = [0; 2]
  ∧ ∃ a' r',
      run_of (okAll ["A2"; "B"; "C2"]) appAfterFailures
        [ESettle 0; ESettle 1; EResume 0; EResume 1] = Some (a', r')
      ∧ finished r' = true
      ∧ completedTexts r' = {[ 2 := "C2" ]}
      ∧ nextIndexToAppend r' = 1
      ∧ finalText a'
        = finalText appAfterFailures +:+ blankLine +:+ "A2".
Proof.
  split; [vm_compute; reflexivity|]. split; [vm_compute; reflexivity|].
  eexists _, _. split; [vm_compute; reflexivity|].
  split_and!; vm_compute; reflexivity.
Qed.

Lemma seq_sorted k n : StronglySorted lt (seq k n).
Proof.
  revert k. induction n as [|n IH]; intros k; simpl; constructor.
  - apply IH.
  - apply Forall_forall. intros i (Hi & _)%elem_of_seq. lia.
Qed.

(** In general the buffer of a finished run is empty exactly when the
    pending indices have no gap: with a gap, some dispatched chunk stays in
    the buffer for good. *)
Lemma buffer_empty_iff_contiguous orc a sched a' r' :
  run_of orc a sched = Some (a', r') → finished r' = true →
  completedTexts r' = ∅ ↔ contiguous (selectPending (images a)).*2.
Proof.
  intros Hrun Hfin. split;
    [|intros Hctg; by destruct (drained_when_contiguous _ _ _ _ _
                                  Hrun Hctg Hfin)].
  intros Hempty.
  pose proof (RunInv_run_of _ _ _ _ Hrun) as Hinv.
  pose proof (run_indices _ _ _ _ Hrun) as Hidx. cbn [snd] in Hidx.
  pose proof (ri_struct _ _ _ Hinv) as Hst. cbn [snd] in Hst.
  destruct (ri_reasm _ _ _ Hinv) as (Hre & _ & _). cbn [fst snd] in Hre.
  pose proof (selectPending_sorted (images a)) as Hsorted.
  pose proof (selectPending_hd_le (images a)) as Hhd.
  rewrite <- Hidx in *.
  pose proof (re_first _ _ _ _ _ _ _ Hre) as Hle.
  assert (Hmem : ∀ i, i ∈ indices r'
            ↔ hd 0 (indices r') ≤ i < nextIndexToAppend r').
  { intros i. split.
    - intros Hi. split; [by apply Hhd|].
      destruct (decide (i < nextIndexToAppend r')) as [|Hge]; [done|].
      assert (completedTexts r' !! i = Some (chunkOf (orc i))) as Hc.
      { apply (re_buffer _ _ _ _ _ _ _ Hre). split_and!; [|lia|done].
        by apply finished_all_settled. }
      by rewrite Hempty, lookup_empty in Hc.
    - intros Hi. apply (re_flushed _ _ _ _ _ _ _ Hre) in Hi.
      by apply (finished_all_settled _ _ Hst Hfin) in Hi. }
  assert (Heq : indices r'
            = seq (hd 0 (indices r'))
                (nextIndexToAppend r' - hd 0 (indices r'))).
  { apply (StronglySorted_unique_strong lt); try done.
    - intros; lia.
    - apply seq_sorted.
    - apply NoDup_Permutation.
      + by apply st_nodup.
      + apply NoDup_seq.
      + intros i. rewrite Hmem, elem_of_seq. lia. }
  unfold contiguous. rewrite Heq at 3. rewrite length_seq. exact Heq.
Qed.

(** ** Claiming *)

(** C3: at every moment of a run the log of port invocations is, index for
    index, the prefix of the pending list up to the queue pointer, so no
    index is invoked twice and no two workers claim the same index; when
    the run has finished the log is the whole pending list in order, so the
    port was invoked exactly once for every pending index and never for any
    other. *)
Theorem C3_each_pending_index_claimed_once orc a sched a' r' :
  run_of orc a sched = Some (a', r') →
  (calls r').*2 = take (queuePointer r') (selectPending (images a)).*2
  ∧ NoDup (calls r').*2
  ∧ (∀ w1 w2 i, (w1, i) ∈ calls r' → (w2, i) ∈ calls r' → w1 = w2)
  ∧ (finished r' = true →
       (calls r').*2 = (selectPending (images a)).*2
       ∧ ∀ i, callCount r' i
              = if decide (i ∈ (selectPending (images a)).*2)
                then 1 else 0).
Proof.
  intros Hrun.
  pose proof (RunInv_run_of _ _ _ _ Hrun) as Hinv.
  pose proof (run_indices _ _ _ _ Hrun) as Hidx. cbn [snd] in Hidx.
  pose proof (ri_struct _ _ _ Hinv) as Hst. cbn [snd] in Hst.
  pose proof (st_calls _ Hst) as Hcalls. unfold claimed in Hcalls.
  rewrite Hidx in Hcalls.
  assert (Hnd : NoDup (calls r').*2).
  { rewrite Hcalls.
    eapply sublist_NoDup; [apply selectPending_NoDup|apply sublist_take]. }
  split_and!; try done.
  - intros w1 w2 i. by apply NoDup_snd_unique.
  - intros Hfin.
    assert (Hall : (calls r').*2 = (selectPending (images a)).*2).
    { rewrite Hcalls. apply take_ge.
      apply (finished_remaining _ Hst) in Hfin. unfold remaining in Hfin.
      pose proof (st_qp _ Hst). rewrite <- Hidx. unfold indices.
      rewrite length_fmap. lia. }
    split; [done|]. intros i. unfold callCount.
    rewrite count_NoDup by done. by rewrite Hall.
Qed.

Lemma C3_each_pending_index_claimed_once_witness :
  ∃ a' r',
    run_of (okAll ["A2"; "B"; "C2"]) appAfterFailures
      [ESettle 1; EResume 1; ESettle 0; EResume 0] = Some (a', r')
    ∧ finished r' = true
    ∧ (calls r').*2 = (selectPending (images appAfterFailures)).*2
    ∧ callCount r' 1 = 0.
Proof.
  destruct (run_of (okAll ["A2"; "B"; "C2"]) appAfterFailures
              [ESettle 1; EResume 1; ESettle 0; EResume 0])
    as [[a' r']|] eqn:E; [|by vm_compute in E].
  exists a', r'. split; [done|].
  destruct (C3_each_pending_index_claimed_once _ _ _ _ _ E)
    as (_ & _ & _ & Hfin).
  vm_compute in E. injection E as <- <-.
  split; [reflexivity|]. destruct (Hfin eq_refl) as [Hall Hcount].
  split; [exact Hall|]. rewrite Hcount. vm_compute. reflexivity.
Defined.

(** ** Failures *)

Lemma unfinished_worker (ws : list Worker) :
  forallb is_Done ws = false →
  ∃ w, ws !! w = Some AtLoopHead ∨ ∃ item, ws !! w = Some (Awaiting item).
Proof.
  induction ws as [|x ws IH]; [done|]. simpl.
  destruct x as [|item|]; simpl.
  - intros _. exists 0. by left.
  - intros _. exists 0. right. by exists item.
  - intros (w & Hw)%IH. by exists (S w).
Qed.

(** C4: in every state of a run, when the call a worker is suspended on
    fails, the settling step is the [catch] path followed by [finally]: it
    sets the item's status to error, publishes the placeholder at the
    item's index and runs [tryAppendText]; the step always succeeds and
    leaves the worker at the head of its loop, ready to claim again.  The
    pool always completes: whatever the outcomes, each settle or resume
    step uses up one of the [2 * P] steps of a run with [P] pending items,
    the run has finished exactly when none is left, and until then some
    worker can take a step. *)
Theorem C4_failure_is_contained orc a sched a' r' :
  run_of orc a sched = Some (a', r') →
  (∀ w item,
     workers r' !! w = Some (Awaiting item) → orc item.2 = Rejected →
     ∃ a2 r2,
       step (ESettle w) (a', r') = Some (a2, r2)
       ∧ (a2, r2)
         = (let s := tryAppendText
                       (setImages (mapAt item.2 (with_status Error)) a',
                        publish item.2 PLACEHOLDER_TEXT r') in
            (s.1, setWorker w AtLoopHead s.2))
       ∧ status <$> images a2 !! item.2 = Some Error
       ∧ (nextIndexToAppend r2 ≤ item.2 →
          completedTexts r2 !! item.2 = Some PLACEHOLDER_TEXT)
       ∧ workers r2 !! w = Some AtLoopHead)
  ∧ remaining r' + length (filter (fun e => effective e = true) sched)
    = 2 * length (selectPending (images a))
  ∧ (finished r' = true ↔ remaining r' = 0)
  ∧ (finished r' = false →
     ∃ e, effective e = true ∧ is_Some (step e (a', r'))).
Proof.
  intros Hrun.
  pose proof (RunInv_run_of _ _ _ _ Hrun) as Hinv.
  pose proof (ri_struct _ _ _ Hinv) as Hst. cbn [snd] in Hst.
  pose proof (ri_oracle _ _ _ Hinv) as Horc. cbn [snd] in Horc.
  split_and!.
  - intros w item Hw Hrej.
    destruct (step (ESettle w) (a', r')) as [[a2 r2]|] eqn:Hstep.
    2:{ unfold step in Hstep. cbn [snd] in Hstep. by rewrite Hw in Hstep. }
    exists a2, r2. split; [done|].
    pose proof (RunInv_step _ _ _ _ _ Hinv Hstep) as Hinv2.
    assert (Hset : settled r2 item.2).
    { pose proof Hstep as Hs.
      apply step_settle_inv in Hs as (item' & k & m' & Hw' & _ & _ & _ & _ & ->).
      assert (item' = item) as -> by congruence.
      eapply settled_after_settle; eauto. }
    pose proof (ri_oracle _ _ _ Hinv2) as Horc2. cbn [snd] in Horc2.
    split_and!.
    + unfold step in Hstep. cbn [fst snd] in Hstep. rewrite Hw in Hstep.
      rewrite Horc, Hrej in Hstep. cbn [processItem_settle] in Hstep.
      by injection Hstep as <- <-.
    + destruct (so_settled _ _ _ (ri_store _ _ _ Hinv2) _ Hset)
        as (img0 & p & _ & Himg). cbn [fst snd] in Himg.
      by rewrite Himg, Horc2, Hrej.
    + intros Hle. destruct (ri_reasm _ _ _ Hinv2) as (Hre & _ & _).
      cbn [fst snd] in Hre.
      apply (re_buffer _ _ _ _ _ _ _ Hre). rewrite Hrej. done.
    + apply step_settle_inv in Hstep
        as (item' & k & m' & Hw' & _ & _ & _ & _ & ->).
      cbn [workers]. apply list_lookup_insert_eq. by eapply lookup_lt_Some.
  - apply run_of_Some in Hrun as (a1 & r1 & Hstart & Hexec).
    apply remaining_exec in Hexec. cbn [snd] in Hexec.
    by rewrite Hexec, (remaining_start _ _ _ _ Hstart).
  - by apply finished_remaining.
  - intros (w & [Hw|[item Hw]])%unfinished_worker.
    + exists (EResume w). split; [done|]. by apply step_enabled.
    + exists (ESettle w). split; [done|]. apply step_enabled. by exists item.
Qed.

(** A run in which every call fails: it still finishes after [2 * 3]
    effective steps, with every page in error and three placeholders in
    the output. *)
Lemma C4_failure_is_contained_witness :
  ∃ a' r',
    run_of (fun _ => Rejected) app3
      [ESettle 2; EProgress 0 (1 # 2); ESettle 0; EResume 2; ESettle 1;
       EResume 0; EResume 1] = Some (a', r')
    ∧ remaining r' = 0 ∧ finished r' = true
    ∧ (status <$> images a') = [Error; Error; Error].
Proof.
  destruct (run_of (fun _ => Rejected) app3
      [ESettle 2; EProgress 0 (1 # 2); ESettle 0; EResume 2; ESettle 1;
       EResume 0; EResume 1]) as [[a' r']|] eqn:E; [|by vm_compute in E].
  exists a', r'. split; [done|].
  destruct (C4_failure_is_contained _ _ _ _ _ E) as (_ & Hrem & Hfin & _).
  vm_compute in E. injection E as <- <-.
  split; [reflexivity|]. split; [apply Hfin; reflexivity|]. reflexivity.
Defined.

(** ** The concurrency ceiling *)

(** The state after the first [m] workers have been started. *)
Lemma spawn_state orc a (pending : list Item) first M m :
  m ≤ M → m ≤ length pending →
  foldl (fun s w => runWorker w s)
    (a, {| pendingItems := pending; nextIndexToAppend := first;
           completedTexts := ∅; queuePointer := 0;
           workers := replicate M AtLoopHead;
           calls := []; oracle := orc |})
    (seq 0 m)
  = (foldl (fun a' (it : Item) =>
              setImages (mapAt it.2 (with_status Processing)) a')
       a (take m pending),
     {| pendingItems := pending; nextIndexToAppend := first;
        completedTexts := ∅; queuePointer := m;
        workers := (Awaiting <$> take m pending)
                   ++ replicate (M - m) AtLoopHead;
        calls := imap (fun w (it : Item) => (w, it.2)) (take m pending);
        oracle := orc |}).
Proof.
  induction m as [|m IH]; intros HM Hlen.
  { cbn [seq foldl take fmap list_fmap imap app]. by rewrite Nat.sub_0_r. }
  rewrite seq_S, foldl_app, IH by lia. cbn [foldl Nat.add].
  destruct (lookup_lt_is_Some_2 pending m ltac:(lia)) as [item Hitem].
  unfold runWorker. proj_simpl. rewrite Hitem.
  unfold processItem_call. proj_simpl.
  rewrite (take_S_r _ _ _ Hitem), foldl_app, fmap_app, imap_app.
  assert (Hl : length (take m pending) = m) by (rewrite length_take; lia).
  f_equal. f_equal.
  - rewrite insert_app_r_alt by (rewrite length_fmap, Hl; lia).
    rewrite length_fmap, Hl, Nat.sub_diag.
    replace (M - m) with (S (M - S m)) by lia.
    cbn [replicate]. rewrite <- app_assoc. done.
  - cbn [imap]. by rewrite Hl, Nat.add_0_r.
Qed.

Lemma filter_ext_in {A} (P1 P2 : A → Prop)
    `{!∀ x, Decision (P1 x), !∀ x, Decision (P2 x)} (l : list A) :
  (∀ x, x ∈ l → P1 x ↔ P2 x) → filter P1 l = filter P2 l.
Proof.
  induction l as [|x l IH]; intros Hext; [done|].
  rewrite !filter_cons. rewrite IH by (intros y Hy; apply Hext; by right).
  destruct (decide (P1 x)) as [H1|H1].
  - rewrite decide_True; [done|]. apply Hext; [by left|done].
  - rewrite decide_False; [done|]. intros H2.
    apply H1, Hext; [by left|done].
Qed.

Lemma processingCount_indices imgs :
  processingCount imgs
  = length (filter (fun i => status <$> imgs !! i = Some Processing)
              (seq 0 (length imgs))).
Proof.
  unfold processingCount.
  induction imgs as [|x imgs IH] using rev_ind; [done|].
  rewrite length_app. cbn [length]. rewrite Nat.add_1_r, seq_S.
  rewrite !filter_app, !length_app, IH. f_equal.
  - f_equal. apply filter_ext_in. intros i (_ & Hi)%elem_of_seq.
    by rewrite lookup_app_l by lia.
  - rewrite !filter_cons, !filter_nil. cbn [Nat.add].
    rewrite list_lookup_middle by done. cbn [fmap option_fmap option_map].
    destruct (decide (status x = Processing)) as [Hx|Hx].
    + rewrite decide_True; [done|]. by rewrite Hx.
    + rewrite decide_False; [done|]. by intros [= ?].
Qed.

(** With no page shown as processing when the run starts, the pages
    shown as processing are exactly those whose call is in flight. *)
Lemma processing_are_awaited orc a s :
  RunInv orc a s →
  (∀ img, img ∈ images a → status img ≠ Processing) →
  processingCount (images s.1) = length (awaited (workers s.2)).
Proof.
  intros Hinv Hno. rewrite processingCount_indices.
  pose proof (ri_struct _ _ _ Hinv) as Hst.
  pose proof (ri_store _ _ _ Hinv) as Hso.
  apply Permutation_length, NoDup_Permutation.
  - apply NoDup_filter, NoDup_seq.
  - by apply st_aw_nodup.
  - intros i. rewrite list_elem_of_filter, elem_of_seq. split.
    + intros [Hp _].
      destruct (decide (i ∈ awaited (workers s.2))) as [|Hna]; [done|].
      exfalso. destruct (decide (i ∈ claimed s.2)) as [Hcl|Hncl].
      * destruct (so_settled _ _ _ Hso i (conj Hcl Hna))
          as (img0 & p & _ & Himg).
        rewrite Himg in Hp. by destruct (oracle s.2 i).
      * rewrite (so_untouched _ _ _ Hso i Hncl) in Hp.
        destruct (images a !! i) as [img|] eqn:Himg; [|done].
        injection Hp as Hp. eapply Hno; [|done].
        by eapply list_elem_of_lookup_2.
    + intros Hi. destruct (so_awaited _ _ _ Hso i Hi)
        as (img0 & p & _ & Himg).
      rewrite Himg. split; [done|]. split; [lia|].
      apply lookup_lt_Some in Himg. lia.
Qed.

Lemma length_awaited (ws : list Worker) : length (awaited ws) ≤ length ws.
Proof.
  unfold awaited. induction ws as [|x ws IH]; [done|]. csimpl.
  destruct (awaitedIndex x); csimpl; lia.
Qed.

Lemma startBatchProcess_workers orc a a1 r1 :
  startBatchProcess orc a = (a1, Some r1) →
  workers r1 = Awaiting <$> take CONCURRENCY_LIMIT (selectPending (images a)).
Proof.
  unfold startBatchProcess.
  destruct (isProcessing a); [done|].
  destruct (negb (truthy (apiKey a))); [done|].
  destruct (selectPending (images a)) as [|first rest] eqn:Hsel; [done|].
  cbv zeta.
  remember (Nat.min CONCURRENCY_LIMIT (length (first :: rest))) as n eqn:Hn.
  rewrite spawn_state by lia. cbn [fst snd]. intros H.
  injection H as _ <-. cbn [workers].
  rewrite Nat.sub_diag. cbn [replicate]. rewrite app_nil_r. f_equal.
  destruct (Nat.min_spec CONCURRENCY_LIMIT (length (first :: rest)))
    as [[_ Hm]|[Hle Hm]]; rewrite Hm in Hn; subst n; [done|].
  by rewrite !take_ge by (done || lia).
Qed.

(** C5: a run over [P] pending items starts the first [min 3 P] pending
    items on as many workers, and the number of workers never changes;
    provided no page is shown as processing when the run starts, the pages
    shown as processing are at every moment the calls in flight, at most
    3. *)
Theorem C5_concurrency_ceiling orc a sched a' r' :
  run_of orc a sched = Some (a', r') →
  (∀ img, img ∈ images a → status img ≠ Processing) →
  CONCURRENCY_LIMIT = 3
  ∧ (∃ a1 r1,
       startBatchProcess orc a = (a1, Some r1)
       ∧ workers r1
         = Awaiting <$> take CONCURRENCY_LIMIT (selectPending (images a))
       ∧ length (workers r1)
         = Nat.min 3 (length (selectPending (images a))))
  ∧ length (workers r')
    = Nat.min 3 (length (selectPending (images a)))
  ∧ processingCount (images a') = length (awaited (workers r'))
  ∧ processingCount (images a') ≤ 3.
Proof.
  intros Hrun Hno.
  pose proof (RunInv_run_of _ _ _ _ Hrun) as Hinv.
  pose proof (ri_struct _ _ _ Hinv) as Hst. cbn [snd] in Hst.
  pose proof (st_workers _ Hst) as Hws.
  pose proof (ri_pending _ _ _ Hinv) as Hp. cbn [snd] in Hp.
  rewrite Hp in Hws.
  pose proof (processing_are_awaited _ _ _ Hinv Hno) as Hcount.
  cbn [fst snd] in Hcount.
  split; [done|]. split; [|split; [done|split; [done|]]].
  - apply run_of_Some in Hrun as (a1 & r1 & Hstart & _).
    exists a1, r1. split; [done|].
    pose proof (RunInv_start _ _ _ _ Hstart) as Hinv1.
    pose proof (st_workers _ (ri_struct _ _ _ Hinv1)) as Hws1.
    rewrite (ri_pending _ _ _ Hinv1) in Hws1. cbn [snd] in Hws1.
    split; [|done]. by eapply startBatchProcess_workers.
  - rewrite Hcount. pose proof (length_awaited (workers r')).
    unfold CONCURRENCY_LIMIT in Hws. lia.
Qed.

Lemma C5_concurrency_ceiling_witness :
  ∃ a' r',
    run_of (okAll ["A"; "B"; "C"]) app3 [ESettle 1; EProgress 0 (1 # 2)]
    = Some (a', r')
    ∧ (∀ img, img ∈ images app3 → status img ≠ Processing)
    ∧ length (workers r') = 3
    ∧ processingCount (images a') = 2.
Proof.
  destruct (run_of (okAll ["A"; "B"; "C"]) app3
              [ESettle 1; EProgress 0 (1 # 2)])
    as [[a' r']|] eqn:E; [|by vm_compute in E].
  exists a', r'. split; [done|].
  assert (Hno : ∀ img, img ∈ images app3 → status img ≠ Processing).
  { intros img Hin. unfold app3 in Hin. cbn [images] in Hin.
    repeat (apply elem_of_cons in Hin as [->|Hin]; [done|]).
    by apply elem_of_nil in Hin. }
  split; [exact Hno|].
  destruct (C5_concurrency_ceiling _ _ _ _ _ E Hno)
    as (_ & _ & Hlen & Hcount & _).
  vm_compute in E. injection E as <- <-.
  split; [rewrite Hlen|rewrite Hcount]; reflexivity.
Defined.

(** ** The start guards *)

Lemma selectPending_nil imgs :
  selectPending imgs = [] ↔ ∀ img, img ∈ imgs → status img = Completed.
Proof.
  split.
  - intros Hnil img (i & Hi)%list_elem_of_lookup.
    destruct (decide (status img = Completed)) as [|Hne]; [done|].
    assert (Hin : (img, i) ∈ selectPending imgs)
      by (by apply elem_of_selectPending).
    rewrite Hnil in Hin. by apply elem_of_nil in Hin.
  - intros Hall. destruct (selectPending imgs) as [|[img i] l] eqn:Hsel;
      [done|].
    assert (Hin : (img, i) ∈ selectPending imgs) by (rewrite Hsel; left).
    apply elem_of_selectPending in Hin as [Hi Hst]. exfalso. apply Hst.
    apply Hall. by eapply list_elem_of_lookup_2.
Qed.

Lemma setIsProcessing_back a :
  isProcessing a = false →
  setIsProcessing false (setIsProcessing true a) = a.
Proof. destruct a. simpl. by intros ->. Qed.

(** C7: [startBatchProcess] returns at once, without starting a pool, in
    three cases.  While a run is in progress it changes nothing at all.
    With an empty API key it only raises [showKeyModal].  With nothing
    pending (every page completed) it leaves the component state as it
    was.  In none of them is any page's status, progress or result
    touched. *)
Theorem C7_start_guards orc a :
  (isProcessing a = true → startBatchProcess orc a = (a, None))
  ∧ (isProcessing a = false → apiKey a = "" →
     startBatchProcess orc a = (setShowKeyModal true a, None)
     ∧ showKeyModal (startBatchProcess orc a).1 = true
     ∧ images (startBatchProcess orc a).1 = images a)
  ∧ (isProcessing a = false → apiKey a ≠ "" →
     (∀ img, img ∈ images a → status img = Completed) →
     startBatchProcess orc a = (a, None))
  ∧ (∀ a', startBatchProcess orc a = (a', None) →
     images a' = images a ∧ finalText a' = finalText a).
Proof.
  split_and!.
  - intros Hp. unfold startBatchProcess. by rewrite Hp.
  - intros Hp Hk. unfold startBatchProcess. by rewrite Hp, Hk.
  - intros Hp Hk Hall. unfold startBatchProcess. rewrite Hp.
    apply truthy_true in Hk. rewrite Hk. cbn [negb].
    apply selectPending_nil in Hall. rewrite Hall.
    by rewrite setIsProcessing_back.
  - intros a'. unfold startBatchProcess.
    destruct (isProcessing a); [by intros [= <-]|].
    destruct (negb (truthy (apiKey a))); [by intros [= <-]|].
    destruct (selectPending (images a)); [by intros [= <-]|done].
Qed.

Lemma C7_start_guards_witness :
  startBatchProcess (okAll []) (setIsProcessing true app3)
  = (setIsProcessing true app3, None)
  ∧ startBatchProcess (okAll []) appDone = (appDone, None).
Proof.
  destruct (C7_start_guards (okAll []) (setIsProcessing true app3))
    as (H1 & _).
  destruct (C7_start_guards (okAll []) appDone) as (_ & _ & H3 & _).
  split; [apply H1; reflexivity|]. apply H3; [reflexivity|done|].
  intros img Hin. unfold appDone in Hin. cbn [images] in Hin.
  apply elem_of_cons in Hin as [->|Hin]; [done|].
  by apply elem_of_nil in Hin.
Defined.

(** ** The transcription service *)

(** C10: in both revisions of the service a call that resolves never
    resolves to the empty string; an empty or missing backend text resolves
    to the fixed fallback.  So no chunk published for a call of this
    service is empty. *)
Theorem C10_resolved_text_never_empty firstReport env key :
  (∀ text, (processImageOCR_from firstReport env key).2 = Resolved text →
     text ≠ "")
  ∧ (backendReply env = Some None ∨ backendReply env = Some (Some "") →
     imageLoads env = true → canvasContext env = true → key ≠ "" →
     processImageOCR_from firstReport env key
     = ([firstReport; 1%Q], Resolved NO_TEXT))
  ∧ chunkOf (processImageOCR env key).2 ≠ ""
  ∧ chunkOf (processImageOCR_scaled env key).2 ≠ "".
Proof.
  assert (Hor : ∀ t, orElse t NO_TEXT ≠ "").
  { intros [t|]; unfold orElse; [|done]. destruct t; done. }
  assert (Hres : ∀ f text,
            (processImageOCR_from f env key).2 = Resolved text → text ≠ "").
  { intros f text. unfold processImageOCR_from.
    destruct (imageLoads env), (canvasContext env), (truthy key),
      (backendReply env); simpl; try done.
    intros [= <-]. apply Hor. }
  assert (Hchunk : ∀ f, chunkOf (processImageOCR_from f env key).2 ≠ "").
  { intros f. destruct (processImageOCR_from f env key).2 as [text|] eqn:E.
    - simpl. by apply (Hres f).
    - done. }
  split_and!.
  - apply Hres.
  - intros Hb Hl Hc Hk%truthy_true. unfold processImageOCR_from.
    rewrite Hl, Hc, Hk. simpl. by destruct Hb as [-> | ->].
  - apply Hchunk.
  - apply Hchunk.
Qed.

Lemma C10_resolved_text_never_empty_witness :
  processImageOCR
    {| imageLoads := true; canvasContext := true;
       backendReply := Some (Some "") |} "k"
  = ([(2 # 10)%Q; 1%Q], Resolved "No text detected in the image.")
  ∧ "No text detected in the image." ≠ "".
Proof.
  destruct (C10_resolved_text_never_empty (2 # 10)
    {| imageLoads := true; canvasContext := true;
       backendReply := Some (Some "") |} "k") as (H1 & H2 & _).
  split.
  - apply H2; [by right|reflexivity|reflexivity|done].
  - apply H1. reflexivity.
Defined.

(** ** Running the batch again *)





(** ** The pages over the life of the component *)

Lemma Forall_mapAt (P : BatchImage → Prop) i f imgs :
  Forall P imgs → (∀ img, imgs !! i = Some img → P img → P (f img)) →
  Forall P (mapAt i f imgs).
Proof.
  rewrite !Forall_lookup. intros Hall Hf j x.
  destruct (decide (j = i)) as [->|Hne].
  - rewrite lookup_mapAt_eq.
    destruct (imgs !! i) as [img|] eqn:Hi; [|done].
    intros [= <-]. apply Hf; [done|]. by eapply Hall.
  - rewrite lookup_mapAt_ne by done. apply Hall.
Qed.

Lemma take_drop_disjoint {A} (l : list A) n x :
  NoDup l → x ∈ take n l → x ∉ drop n l.
Proof.
  intros Hnd. rewrite <- (take_drop n l) in Hnd.
  apply NoDup_app in Hnd as (_ & Hd & _). apply Hd.
Qed.

Lemma ItemOK_processing img :
  ItemOK img → status img ≠ Completed → ItemOK (with_status Processing img).
Proof.
  intros [_ H2] Hne. split; simpl; [done|]. split; [|done].
  intros Hs. by apply H2 in Hs.
Qed.

Lemma ItemOK_progress p img :
  ItemOK img → status img = Processing → ItemOK (with_progress p img).
Proof.
  intros [_ H2] Hp. split; simpl; [by rewrite Hp|]. done.
Qed.

Lemma ItemOK_settle o img :
  ItemOK img → status img = Processing → ItemOK (settleImage o img).
Proof.
  intros [_ H2] Hp. destruct o as [text|]; split; simpl; try done.
  split; [|done]. intros Hs. apply H2 in Hs. congruence.
Qed.

Lemma PoolInv_step e a r a' r' :
  Forall ItemOK (images a) → PoolOK a r → step e (a, r) = Some (a', r') →
  Forall ItemOK (images a') ∧ PoolOK a' r'.
Proof.
  intros Hit [Hst Hflag Haw Hpr Hun] Hstep.
  destruct (Struct_step _ _ _ _ _ Hst Hstep) as (Hst' & _ & _).
  destruct (step_flags _ _ _ _ _ Hstep) as (Hflag' & _ & _).
  destruct e as [w p|w|w].
  - apply step_progress_inv in Hstep as (item & Hw & -> & ->).
    pose proof (awaited_lookup _ _ _ Hw) as Hin.
    destruct (Haw _ Hin) as (img0 & Hi0 & Hs0). split.
    + cbn [images setImages]. apply Forall_mapAt; [done|].
      intros img Hi Hok. apply ItemOK_progress; [done|]. congruence.
    + constructor; try done; cbn [images setImages].
      * intros i Hi. destruct (Haw i Hi) as (img & Himg & Hs).
        destruct (decide (i = item.2)) as [->|Hne].
        -- exists (with_progress p img).
           by rewrite lookup_mapAt_eq, Himg.
        -- exists img. by rewrite lookup_mapAt_ne.
      * intros i img. destruct (decide (i = item.2)) as [->|Hne].
        -- by intros _ _.
        -- rewrite lookup_mapAt_ne by done. apply Hpr.
      * intros i Hi. destruct (Hun i Hi) as (img & Himg & Hs).
        destruct (decide (i = item.2)) as [->|Hne].
        -- exists (with_progress p img).
           by rewrite lookup_mapAt_eq, Himg.
        -- exists img. by rewrite lookup_mapAt_ne.
  - apply step_settle_inv in Hstep
      as (item & k & m' & Hw & _ & _ & _ & -> & ->).
    pose proof (awaited_lookup _ _ _ Hw) as Hin.
    destruct (Haw _ Hin) as (img0 & Hi0 & Hs0). split.
    + cbn [images setImages setFinalText]. apply Forall_mapAt; [done|].
      intros img Hi Hok. apply ItemOK_settle; [done|]. congruence.
    + assert (Hst0 : status (settleImage (oracle r item.2) img0) ≠ Processing)
        by (by destruct (oracle r item.2)).
      constructor; try done;
        cbn [images setImages setFinalText workers queuePointer].
      * intros i Hi.
        apply (awaited_after_settle (workers r) w item) in Hi as [Hi Hne];
          [|by apply st_aw_nodup|done].
        rewrite lookup_mapAt_ne by done. by apply Haw.
      * intros i img. destruct (decide (i = item.2)) as [->|Hne].
        -- rewrite lookup_mapAt_eq, Hi0. by intros [= <-] ?.
        -- rewrite lookup_mapAt_ne by done. intros Hi Hs.
           apply (awaited_after_settle (workers r) w item);
             [by apply st_aw_nodup|done|]. split; [|done]. by eapply Hpr.
      * intros i Hi. change (i ∈ drop (queuePointer r) (indices r)) in Hi.
        rewrite lookup_mapAt_ne; [by apply Hun|]. intros ->.
        revert Hi. apply take_drop_disjoint; [by apply st_nodup|].
        by apply (st_aw_claimed _ Hst).
  - apply step_resume_inv in Hstep
      as (Hw & [(item & Hq & -> & ->)|(Hq & -> & ->)]).
    + assert (Hnext : item.2 ∈ drop (queuePointer r) (indices r)).
      { apply list_elem_of_lookup. exists 0.
        rewrite lookup_drop, Nat.add_0_r. unfold indices.
        by rewrite list_lookup_fmap, Hq. }
      destruct (Hun _ Hnext) as (img0 & Hi0 & Hs0). split.
      * cbn [images setImages]. apply Forall_mapAt; [done|].
        intros img Hi Hok. apply ItemOK_processing; [done|]. congruence.
      * constructor; try done;
          cbn [images setImages workers queuePointer].
        -- intros i Hi.
           apply (awaited_after_claim (workers r) w item) in Hi; [|done].
           destruct (decide (i = item.2)) as [->|Hne].
           ++ exists (with_status Processing img0).
              by rewrite lookup_mapAt_eq, Hi0.
           ++ destruct Hi as [?|Hi]; [done|].
              rewrite lookup_mapAt_ne by done. by apply Haw.
        -- intros i img Hi Hs.
           apply (awaited_after_claim (workers r) w item); [done|].
           destruct (decide (i = item.2)) as [|Hne]; [by left|right].
           rewrite lookup_mapAt_ne in Hi by done. by eapply Hpr.
        -- intros i Hi.
           change (i ∈ drop (S (queuePointer r)) (indices r)) in Hi.
           assert (Hi' : i ∈ drop (queuePointer r) (indices r)).
           { apply list_elem_of_lookup in Hi as (j & Hj).
             rewrite lookup_drop in Hj. apply list_elem_of_lookup.
             exists (S j). rewrite lookup_drop. rewrite <- Hj. f_equal. lia. }
           destruct (Hun i Hi') as (img & Himg & Hs).
           destruct (decide (i = item.2)) as [->|Hne].
           ++ exists (with_status Processing img).
              by rewrite lookup_mapAt_eq, Himg.
           ++ exists img. by rewrite lookup_mapAt_ne.
    + split; [done|]. constructor; try done; cbn [workers setWorker].
      * intros i Hi.
        apply (awaited_after_exit (workers r) w) in Hi; [|done].
        by apply Haw.
      * intros i img Hi Hs.
        apply (awaited_after_exit (workers r) w); [done|]. by eapply Hpr.
Qed.

Lemma PoolInv_exec sched a r a' r' :
  Forall ItemOK (images a) → PoolOK a r →
  exec sched (a, r) = Some (a', r') →
  Forall ItemOK (images a') ∧ PoolOK a' r'.
Proof.
  revert a r. induction sched as [|e sched IH]; intros a r Hit Hpo; simpl.
  - by intros [= <- <-].
  - destruct (step e (a, r)) as [[a1 r1]|] eqn:Hstep; [|done].
    destruct (PoolInv_step _ _ _ _ _ Hit Hpo Hstep) as [Hit1 Hpo1].
    by apply IH.
Qed.

Lemma ItemOK_newImage i f url : ItemOK (newImage i f url).
Proof.
  split; simpl; [done|]. split; [by intros [? [=]]|done].
Qed.

Lemma PoolOK_start orc a a1 r1 :
  Forall ItemOK (images a) →
  (∀ img, img ∈ images a → status img ≠ Processing) →
  startBatchProcess orc a = (a1, Some r1) →
  Forall ItemOK (images a1) ∧ PoolOK a1 r1.
Proof.
  intros Hit Hno (first & rest & _ & _ & Hsel & Hexec)%startBatchProcess_Some.
  cbv zeta in Hexec. eapply PoolInv_exec; [| |exact Hexec]; [done|].
  pose proof (RunInv_initial orc a first rest _ Hsel eq_refl) as Hinv.
  constructor; cbn [images setIsProcessing workers queuePointer].
  - exact (ri_struct _ _ _ Hinv).
  - done.
  - intros i. rewrite awaited_replicate. by intros ?%elem_of_nil.
  - intros i img Hi Hs. exfalso. eapply Hno; [|done].
    by eapply list_elem_of_lookup_2.
  - intros i Hi. rewrite drop_0 in Hi. unfold indices in Hi.
    cbn [pendingItems] in Hi. rewrite <- Hsel in Hi.
    by apply elem_of_selectPending_indices.
Qed.

Lemma finished_no_awaited r : finished r = true → awaited (workers r) = [].
Proof.
  unfold finished, awaited. induction (workers r) as [|x ws IH]; [done|].
  simpl. destruct x; simpl; done.
Qed.

Lemma SysInv_act x s s' : SysInv s → act x s = Some s' → SysInv s'.
Proof.
  destruct s as [a rn]. intros [Hit Hrun]. cbn [app run] in *.
  destruct x as [news|val|key| | |i|orc|e| ]; cbn [act app run].
  - (* pages are added *)
    intros [= <-]. split; cbn [app run images setImages].
    + apply Forall_app. split; [done|]. apply Forall_fmap, Forall_forall.
      intros [[? ?] ?] _. apply ItemOK_newImage.
    + destruct rn as [r|].
      * destruct Hrun as [Hst Hflag Haw Hpr Hun].
        constructor; try done; cbn [images setImages].
        -- intros j Hj. destruct (Haw j Hj) as (img & Hi & Hs).
           exists img. split; [|done]. by apply lookup_app_l_Some.
        -- intros j img Hj Hs. apply lookup_app_Some in Hj as [Hj|[_ Hj]].
           ++ by eapply Hpr.
           ++ apply list_lookup_fmap_Some in Hj as ([[? ?] ?] & -> & _).
              done.
        -- intros j Hj. destruct (Hun j Hj) as (img & Hi & Hs).
           exists img. split; [|done]. by apply lookup_app_l_Some.
      * destruct Hrun as [Hflag Hno]. split; [done|].
        intros img [Hin|Hin]%elem_of_app; [by apply Hno|].
        apply list_elem_of_fmap in Hin as ([[? ?] ?] & -> & _). done.
  - (* the text is edited *)
    intros [= <-]. split; [done|]. destruct rn as [r|]; [|done].
    by destruct Hrun.
  - (* the key is saved *)
    intros [= <-]. split; [done|]. destruct rn as [r|]; [|done].
    by destruct Hrun.
  - (* the key is removed *)
    intros [= <-]. split; [done|]. destruct rn as [r|]; [|done].
    by destruct Hrun.
  - (* clear all *)
    destruct rn as [r|]; [done|]. intros [= <-]. destruct Hrun as [Hflag _].
    split; cbn [app run images setImages setFinalText]; [constructor|].
    split; [done|]. by intros img ?%elem_of_nil.
  - (* a page is removed *)
    destruct rn as [r|]; [done|]. intros [= <-].
    destruct Hrun as [Hflag Hno].
    split; cbn [app run images setImages].
    + rewrite Forall_forall in *.
      intros img [_ Hin]%list_elem_of_filter. by apply Hit.
    + split; [done|]. intros img [_ Hin]%list_elem_of_filter. by apply Hno.
  - (* the batch button *)
    destruct (startBatchProcess orc a) as [a1 [r1|]] eqn:Hstart.
    + destruct rn as [r|]; [done|]. intros [= <-].
      destruct Hrun as [Hflag Hno]. cbn [app run].
      by eapply PoolOK_start.
    + intros [= <-]. unfold SysInv. cbn [app run].
      assert (Hsame : images a1 = images a ∧ isProcessing a1 = isProcessing a).
      { revert Hstart. unfold startBatchProcess.
        destruct (isProcessing a) eqn:Hp; [by intros [= <-]|].
        destruct (negb (truthy (apiKey a))); [by intros [= <-]|].
        destruct (selectPending (images a)); [by intros [= <-]|done]. }
      destruct Hsame as [Himgs Hflag]. rewrite Himgs. split; [done|].
      destruct rn as [r|].
      * assert (a1 = a) as ->; [|done].
        unfold startBatchProcess in Hstart.
        rewrite (po_flag _ _ Hrun) in Hstart. congruence.
      * by rewrite Hflag.
  - (* the pool takes a step *)
    destruct rn as [r|]; [|done].
    destruct (step e (a, r)) as [[a1 r1]|] eqn:Hstep; [|done].
    intros [= <-]. cbn [app run]. by eapply PoolInv_step.
  - (* the join resolves *)
    destruct rn as [r|]; [|done]. destruct (finished r) eqn:Hfin; [|done].
    intros [= <-]. split; cbn [app run]; [done|]. split; [done|].
    intros img (j & Hj)%list_elem_of_lookup Hs.
    pose proof (po_processing _ _ Hrun j img Hj Hs) as Hin.
    rewrite (finished_no_awaited _ Hfin) in Hin. by apply elem_of_nil in Hin.
Qed.

Lemma SysInv_acts trace s s' : SysInv s → acts trace s = Some s' → SysInv s'.
Proof.
  revert s. induction trace as [|x trace IH]; intros s Hinv; simpl.
  - by intros [= <-].
  - destruct (act x s) as [s1|] eqn:Hact; [|done].
    apply IH. by eapply SysInv_act.
Qed.

Lemma SysInv_reachable trace s : acts trace initial = Some s → SysInv s.
Proof.
  apply SysInv_acts. split; [constructor|]. split; [done|].
  by intros img ?%elem_of_nil.
Qed.

(** ** The result text of a page *)

(** C8, as stated, fails: the [catch] block of [processItem] writes the
    status only; the placeholder goes to the reassembly buffer and is never
    stored on the page.  After a failed transcription the page is in error
    and has no result text. *)
Lemma C8_error_holds_placeholder_counterexample :
  ¬ (∀ trace s img,
       acts trace initial = Some s → img ∈ images (app s) →
       (is_Some (processedText img)
        ↔ status img = Completed ∨ status img = Error)
       ∧ (status img = Error → processedText img = Some PLACEHOLDER_TEXT)).
Proof.
  intros H.
  destruct (acts traceRetry initial) as [s|] eqn:E; [|by vm_compute in E].
  specialize (H traceRetry s).
  vm_compute in E. injection E as <-.
  destruct (H _ eq_refl ltac:(left)) as [_ H2].
  specialize (H2 eq_refl). discriminate H2.
Qed.

(** C8 (amended): at every moment of the life of the component, a page has
    a result text if and only if its status is completed; a page in error
    has none (its placeholder chunk exists in the reassembly buffer and the
    output only). *)
Theorem C8_result_text_iff_completed trace s img :
  acts trace initial = Some s → img ∈ images (app s) →
  (is_Some (processedText img) ↔ status img = Completed)
  ∧ (status img = Error → processedText img = None).
Proof.
  intros [Hit _]%SysInv_reachable Hin.
  rewrite Forall_forall in Hit. destruct (Hit _ Hin) as [_ H2].
  split; [done|]. intros Hs.
  destruct (processedText img) as [t|] eqn:Ht; [|done].
  assert (Hc : status img = Completed) by (apply H2; eauto). congruence.
Qed.

Lemma C8_result_text_iff_completed_witness :
  ∃ s img,
    acts traceRetry initial = Some s ∧ images (app s) = [img]
    ∧ status img = Error ∧ processedText img = None.
Proof.
  destruct (acts traceRetry initial) as [s|] eqn:E; [|by vm_compute in E].
  exists s.
  pose proof (C8_result_text_iff_completed traceRetry s) as H.
  vm_compute in E. injection E as <-.
  eexists. split; [reflexivity|]. split; [reflexivity|].
  split; [reflexivity|].
  exact (proj2 (H _ eq_refl ltac:(left)) eq_refl).
Defined.

(** ** The first step of processItem *)

(** The first statement of [processItem] writes the status and nothing
    else: the page keeps every other field, its progress included. *)
Lemma processItem_call_sets_status_only w (item : Item) a r :
  images a !! item.2 = Some item.1 →
  images (processItem_call w item (a, r)).1 !! item.2
  = Some (with_status Processing item.1)
  ∧ progress (with_status Processing item.1) = progress item.1.
Proof.
  intros Hi. split; [|done].
  unfold processItem_call. cbn [fst images setImages].
  by rewrite lookup_mapAt_eq, Hi.
Qed.

(** C9: at every moment the component can reach, when a worker claims an
    item whose page is in status pending, the step sets the page's status
    to processing and the page's progress is 0 after it.  The step writes
    the status only; the progress is 0 because a pending page always has
    progress 0. *)
Theorem C9_pending_to_processing_progress_zero trace s w (item : Item) r :
  acts trace initial = Some s →
  item ∈ selectPending (images (app s)) →
  status item.1 = Pending →
  ∃ img',
    images (processItem_call w item (app s, r)).1 !! item.2 = Some img'
    ∧ img' = with_status Processing item.1
    ∧ status img' = Processing ∧ progress img' = 0%Q.
Proof.
  intros [Hit _]%SysInv_reachable [Hi Hs]%elem_of_selectPending Hp.
  destruct (processItem_call_sets_status_only w item (app s) r Hi)
    as [Hlook Hprog].
  exists (with_status Processing item.1).
  split; [exact Hlook|]. split; [done|]. split; [done|].
  rewrite Hprog. rewrite Forall_forall in Hit.
  destruct (Hit _ (list_elem_of_lookup_2 _ _ _ Hi)) as [H1 _].
  by apply H1.
Qed.

Lemma C9_pending_to_processing_progress_zero_witness :
  acts [ASaveKey "k"; AUpload [("a", 1%N, "u0")]] initial
  = Some {| app := appFresh; run := None |}
  ∧ (newImage "a" 1 "u0", 0) ∈ selectPending (images appFresh)
  ∧ ∃ img',
      images (processItem_call 0 (newImage "a" 1 "u0", 0)
                (appFresh, noRun)).1 !! 0 = Some img'
      ∧ status img' = Processing ∧ progress img' = 0%Q.
Proof.
  assert (E : acts [ASaveKey "k"; AUpload [("a", 1%N, "u0")]] initial
              = Some {| app := appFresh; run := None |})
    by (vm_compute; reflexivity).
  assert (Hin : (newImage "a" 1 "u0", 0) ∈ selectPending (images appFresh))
    by (by apply elem_of_selectPending).
  destruct (C9_pending_to_processing_progress_zero _ _ 0
              (newImage "a" 1 "u0", 0) noRun E Hin eq_refl)
    as (img' & H1 & _ & H2 & H3).
  split; [exact E|]. split; [exact Hin|].
  exists img'. split; [exact H1|]. split; [exact H2|exact H3].
Defined.

(** The store with pages in error around a completed page is one the
    component reaches: three uploads, a run in which pages 1 and 3 fail. *)
Example failures_reachable :
  acts [ASaveKey "k";
        AUpload [("a", 1%N, "u0"); ("b", 2%N, "u1"); ("c", 3%N, "u2")];
        AStart failOuter;
        APool (ESettle 0); APool (ESettle 1); APool (ESettle 2);
        APool (EResume 0); APool (EResume 1); APool (EResume 2);
        AJoin] initial
  = Some {| app := appAfterFailures; run := None |}.
Proof. vm_compute. reflexivity. Qed.

(** A failed call leaves its page in error with the progress it last
    reported. *)
Example failed_page_keeps_progress :
  acts traceRetry initial = Some afterRetry.
Proof. vm_compute. reflexivity. Qed.

(** Pressing the button again after [traceRetry]: the page, in status
    error and not pending, is taken up with the progress of the failed
    attempt. *)
Example retry_keeps_progress :
  (fun s => (fun img => (status img, progress img)) <$> images (app s)) <$>
    acts (traceRetry ++ [AStart (okAll ["A"])]) initial
  = Some [(Processing, (3 # 10)%Q)].
Proof. vm_compute. reflexivity. Qed.

(** ** The ceiling over the life of the component *)

(** Between runs no page is shown as processing: the assumption made
    on the store for the ceiling of a run holds whenever the component can
    start one. *)
Lemma idle_no_processing trace s img :
  acts trace initial = Some s → run s = None → img ∈ images (app s) →
  status img ≠ Processing.
Proof.
  intros [_ Hrun]%SysInv_reachable Hidle. rewrite Hidle in Hrun.
  by apply Hrun.
Qed.

(** At every moment, whatever is uploaded or edited meanwhile, at most
    three pages are shown as processing. *)
Lemma ceiling_always trace s :
  acts trace initial = Some s → processingCount (images (app s)) ≤ 3.
Proof.
  intros [_ Hrun]%SysInv_reachable. rewrite processingCount_indices.
  destruct (run s) as [r|].
  - destruct Hrun as [Hst _ _ Hpr _].
    transitivity (length (awaited (workers r))).
    + apply submseteq_length, NoDup_submseteq.
      * apply NoDup_filter, NoDup_seq.
      * intros i [Hp _]%list_elem_of_filter.
        destruct (images (app s) !! i) as [img|] eqn:Hi; [|done].
        injection Hp as Hp. by eapply Hpr.
    + pose proof (length_awaited (workers r)).
      pose proof (st_workers _ Hst) as Hws.
      unfold CONCURRENCY_LIMIT in Hws. lia.
  - destruct Hrun as [_ Hno].
    transitivity (length (@nil nat)); [|simpl; lia].
    apply submseteq_length, NoDup_submseteq.
    + apply NoDup_filter, NoDup_seq.
    + intros i [Hp _]%list_elem_of_filter. exfalso.
      destruct (images (app s) !! i) as [img|] eqn:Hi; [|done].
      injection Hp as Hp. eapply Hno; [|done].
      by eapply list_elem_of_lookup_2.
Qed.

(** * Further properties of the code *)

(** ** tryAppendText as a function *)

(** On any state, [tryAppendText] flushes exactly the maximal run of
    consecutive indices found in the buffer at the frontier: the frontier
    moves past them and stops at the first index that is absent, they are
    deleted from the buffer and every other entry is kept, their chunks are
    appended to the output in index order, and nothing else changes: the
    component state is the old one with the new output text, and the
    variables of the run are the old ones with the new frontier and the
    new buffer. *)
Theorem tryAppendText_flushes_maximal_run a r :
  ∃ k,
    nextIndexToAppend (tryAppendText (a, r)).2 = nextIndexToAppend r + k
    ∧ (∀ j, nextIndexToAppend r ≤ j < nextIndexToAppend r + k →
         is_Some (completedTexts r !! j))
    ∧ completedTexts r !! (nextIndexToAppend r + k) = None
    ∧ (∀ i, completedTexts (tryAppendText (a, r)).2 !! i
            = if decide (nextIndexToAppend r ≤ i < nextIndexToAppend r + k)
              then None else completedTexts r !! i)
    ∧ finalText (tryAppendText (a, r)).1
      = foldl appendChunk (finalText a)
          (omap (fun j => completedTexts r !! j)
             (seq (nextIndexToAppend r) k))
    ∧ (tryAppendText (a, r)).1
      = {| images := images a;
           finalText := finalText (tryAppendText (a, r)).1;
           isProcessing := isProcessing a; apiKey := apiKey a;
           showKeyModal := showKeyModal a |}
    ∧ (tryAppendText (a, r)).2
      = {| pendingItems := pendingItems r;
           nextIndexToAppend := nextIndexToAppend (tryAppendText (a, r)).2;
           completedTexts := completedTexts (tryAppendText (a, r)).2;
           queuePointer := queuePointer r;
           workers := workers r;
           calls := calls r; oracle := oracle r |}.
Proof.
  destruct (tryAppend_loop_spec (size (completedTexts r)) (completedTexts r)
              (nextIndexToAppend r) (finalText a))
    as (k & m' & Heq & H1 & H2 & H3); [done|].
  exists k. unfold tryAppendText. rewrite Heq. by cbn.
Qed.

(** ** The output and the frontier only move forward *)

Lemma string_app_nil_r (t : string) : t +:+ "" = t.
Proof.
  induction t as [|c t IH]; [done|].
  change (String c (t +:+ "") = String c t). by rewrite IH.
Qed.

Lemma appendChunk_extends t c : ∃ suf, appendChunk t c = t +:+ suf.
Proof.
  unfold appendChunk. destruct (truthy c).
  - destruct (truthy t) eqn:Ht.
    + exists (blankLine +:+ c). by rewrite string_app_assoc.
    + destruct t; [|done]. by exists c.
  - exists "". by rewrite string_app_nil_r.
Qed.

Lemma foldl_appendChunk_extends t cs :
  ∃ suf, foldl appendChunk t cs = t +:+ suf.
Proof.
  revert t. induction cs as [|c cs IH]; intros t; simpl.
  - exists "". by rewrite string_app_nil_r.
  - destruct (appendChunk_extends t c) as [s1 ->].
    destruct (IH (t +:+ s1)) as [s2 ->].
    exists (s1 +:+ s2). by rewrite string_app_assoc.
Qed.

Lemma step_forward e a r a' r' :
  step e (a, r) = Some (a', r') →
  (∃ suf, finalText a' = finalText a +:+ suf)
  ∧ nextIndexToAppend r ≤ nextIndexToAppend r'
  ∧ length (images a') = length (images a).
Proof.
  intros Hstep. destruct e as [w p|w|w].
  - apply step_progress_inv in Hstep as (item & _ & -> & ->).
    split; [exists ""; by rewrite string_app_nil_r|].
    split; [done|]. cbn. apply length_mapAt.
  - apply step_settle_inv in Hstep
      as (item & k & m' & _ & _ & _ & _ & -> & ->).
    split; [apply foldl_appendChunk_extends|]. split; [cbn; lia|].
    cbn. apply length_mapAt.
  - apply step_resume_inv in Hstep
      as (_ & [(item & _ & -> & ->)|(_ & -> & ->)]).
    + split; [exists ""; by rewrite string_app_nil_r|].
      split; [done|]. cbn. apply length_mapAt.
    + split; [exists ""; by rewrite string_app_nil_r|]. done.
Qed.

(** Whatever the state and the schedule, the pool never rewrites or
    removes text that is already in the output (the old output is a prefix
    of the new one), never moves the frontier back and never adds or drops
    a page. *)
Theorem output_only_grows sched s s' :
  exec sched s = Some s' →
  (∃ suf, finalText s'.1 = finalText s.1 +:+ suf)
  ∧ nextIndexToAppend s.2 ≤ nextIndexToAppend s'.2
  ∧ length (images s'.1) = length (images s.1).
Proof.
  revert s. induction sched as [|e sched IH]; intros s; simpl.
  - intros [= <-]. split; [exists ""; by rewrite string_app_nil_r|done].
  - destruct (step e s) as [s1|] eqn:Hstep; [|done]. intros Hexec.
    destruct s as [a r], s1 as [a1 r1].
    destruct (step_forward _ _ _ _ _ Hstep) as ([s1' H1] & H2 & H3).
    destruct (IH _ Hexec) as ([s2' H4] & H5 & H6). cbn [fst snd] in *.
    split; [|split; [lia|congruence]].
    exists (s1' +:+ s2'). by rewrite H4, H1, string_app_assoc.
Qed.

Lemma output_only_grows_witness :
  ∃ a' r',
    run_of (okAll ["A"; "B"; "C"]) appX [ESettle 0; EResume 0]
    = Some (a', r')
    ∧ finalText a' = "X" +:+ blankLine +:+ "A".
Proof.
  destruct (startBatchProcess (okAll ["A"; "B"; "C"]) appX)
    as [a1 [r1|]] eqn:Hstart; [|by vm_compute in Hstart].
  destruct (exec [ESettle 0; EResume 0] (a1, r1)) as [[a' r']|] eqn:E.
  2:{ vm_compute in Hstart. injection Hstart as <- <-. by vm_compute in E. }
  exists a', r'. split.
  - unfold run_of. by rewrite Hstart.
  - destruct (output_only_grows _ _ _ E) as ([suf Hsuf] & _).
    vm_compute in Hstart. injection Hstart as <- <-.
    vm_compute in E. injection E as <- <-. reflexivity.
Defined.

(** ** The pages when a run ends *)

(** When a run has finished, the page list has the length it had at the
    start, every page that was completed at the start is as it was, and
    every other page has been settled exactly once: it is completed and
    holds the text its call resolved to, or it is in error with its result
    text untouched.  No page is left pending or processing. *)
Theorem pages_when_run_ends orc a sched a' r' :
  run_of orc a sched = Some (a', r') → finished r' = true →
  length (images a') = length (images a)
  ∧ (∀ i img0, images a !! i = Some img0 →
       (status img0 = Completed → images a' !! i = Some img0)
       ∧ (status img0 ≠ Completed →
          ∃ p, images a' !! i
               = Some (with_progress p (settleImage (orc i) img0))))
  ∧ (∀ img, img ∈ images a' →
       status img = Completed ∨ status img = Error).
Proof.
  intros Hrun Hfin.
  pose proof (RunInv_run_of _ _ _ _ Hrun) as Hinv.
  pose proof (run_indices _ _ _ _ Hrun) as Hidx. cbn [snd] in Hidx.
  pose proof (ri_struct _ _ _ Hinv) as Hst. cbn [snd] in Hst.
  pose proof (ri_store _ _ _ Hinv) as Hso. cbn [fst snd] in Hso.
  pose proof (ri_oracle _ _ _ Hinv) as Horc. cbn [snd] in Horc.
  assert (Hcl : ∀ i, i ∈ claimed r' → i ∈ indices r').
  { intros i Hi. unfold claimed in Hi.
    by apply elem_of_take in Hi as (? & ?%list_elem_of_lookup_2 & _). }
  assert (Hpages : ∀ i img0, images a !! i = Some img0 →
       (status img0 = Completed → images a' !! i = Some img0)
       ∧ (status img0 ≠ Completed →
          ∃ p, images a' !! i
               = Some (with_progress p (settleImage (orc i) img0)))).
  { intros i img0 Hi. split.
    - intros Hc. rewrite (so_untouched _ _ _ Hso); [done|].
      intros Hin%Hcl. rewrite Hidx in Hin.
      apply elem_of_selectPending_indices in Hin as (img & ? & ?). congruence.
    - intros Hne.
      assert (Hin : i ∈ indices r').
      { rewrite Hidx. apply elem_of_selectPending_indices. eauto. }
      apply (finished_all_settled _ _ Hst Hfin) in Hin.
      destruct (so_settled _ _ _ Hso i Hin) as (img0' & p & H0 & Hi').
      assert (img0' = img0) as -> by congruence.
      exists p. by rewrite Hi', Horc. }
  split; [apply (so_length _ _ _ Hso)|]. split; [done|].
  intros img (i & Hi)%list_elem_of_lookup.
  destruct (images a !! i) as [img0|] eqn:H0.
  - destruct (Hpages i img0 H0) as [Hc Hne].
    destruct (decide (status img0 = Completed)) as [Hd|Hd].
    + rewrite (Hc Hd) in Hi. injection Hi as <-. by left.
    + destruct (Hne Hd) as [p Hp]. rewrite Hp in Hi. injection Hi as <-.
      destruct (orc i); [by left|by right].
  - apply lookup_lt_Some in Hi. apply lookup_ge_None_1 in H0.
    pose proof (so_length _ _ _ Hso). lia.
Qed.

Lemma pages_when_run_ends_witness :
  ∃ a' r',
    run_of failOuter app3
      [ESettle 0; ESettle 1; ESettle 2; EResume 0; EResume 1; EResume 2]
    = Some (a', r')
    ∧ finished r' = true
    ∧ (status <$> images a') = [Error; Completed; Error].
Proof.
  destruct (run_of failOuter app3
      [ESettle 0; ESettle 1; ESettle 2; EResume 0; EResume 1; EResume 2])
    as [[a' r']|] eqn:E; [|by vm_compute in E].
  exists a', r'. split; [done|].
  pose proof (pages_when_run_ends _ _ _ _ _ E) as H.
  vm_compute in E. injection E as <- <-.
  split; [reflexivity|]. destruct (H eq_refl) as (_ & _ & _). reflexivity.
Defined.

(** ** The shape of the pending list *)

(** When the completed pages are the first pages of the list (as they are
    for a fresh list, and after runs without failure followed by uploads),
    the pending indices are the rest of the list, without gap. *)
Theorem pending_after_completed_prefix (done rest : list BatchImage) :
  (∀ img, img ∈ done → status img = Completed) →
  (∀ img, img ∈ rest → status img ≠ Completed) →
  (selectPending (done ++ rest)).*2 = seq (length done) (length rest)
  ∧ contiguous (selectPending (done ++ rest)).*2.
Proof.
  intros Hdone Hrest.
  assert (Heq : (selectPending (done ++ rest)).*2
                = seq (length done) (length rest)).
  { apply (StronglySorted_unique_strong lt).
    - intros; lia.
    - apply selectPending_sorted.
    - apply seq_sorted.
    - apply NoDup_Permutation.
      + apply selectPending_NoDup.
      + apply NoDup_seq.
      + intros i. rewrite elem_of_selectPending_indices, elem_of_seq. split.
        * intros (img & Hi & Hne).
          apply lookup_app_Some in Hi as [Hi|[Hge Hi]].
          -- exfalso. apply Hne, Hdone. by eapply list_elem_of_lookup_2.
          -- apply lookup_lt_Some in Hi. lia.
        * intros [Hge Hlt].
          destruct (lookup_lt_is_Some_2 rest (i - length done) ltac:(lia))
            as [img Hi].
          exists img. split.
          -- apply lookup_app_Some. right. split; [lia|done].
          -- apply Hrest. by eapply list_elem_of_lookup_2. }
  split; [done|]. unfold contiguous. rewrite Heq, length_seq.
  destruct (length rest); [done|]. done.
Qed.

Lemma pending_after_completed_prefix_witness :
  (selectPending (images appDone ++ images app3)).*2 = [1; 2; 3].
Proof.
  destruct (pending_after_completed_prefix (images appDone) (images app3))
    as [Heq _].
  - intros img Hin. unfold appDone in Hin. cbn [images] in Hin.
    apply elem_of_cons in Hin as [->|Hin]; [done|].
    by apply elem_of_nil in Hin.
  - intros img Hin. unfold app3 in Hin. cbn [images] in Hin.
    repeat (apply elem_of_cons in Hin as [->|Hin]; [done|]).
    by apply elem_of_nil in Hin.
  - exact Heq.
Defined.

(** ** The output text is changed while a run is in progress *)

Lemma ReasmInv_exec orc prev first sched a r a' r' :
  Struct r → oracle r = orc → ReasmInv orc prev first (a, r) →
  exec sched (a, r) = Some (a', r') →
  Struct r' ∧ oracle r' = orc ∧ pendingItems r' = pendingItems r
  ∧ ReasmInv orc prev first (a', r').
Proof.
  revert a r. induction sched as [|e sched IH]; intros a r Hst Ho Hre; simpl.
  - by intros [= <- <-].
  - destruct (step e (a, r)) as [[a1 r1]|] eqn:Hstep; [|done]. intros Hexec.
    destruct (Struct_step _ _ _ _ _ Hst Hstep) as (Hst1 & Hp1 & Ho1).
    pose proof (ReasmInv_step _ _ _ _ _ _ _ _ Hst Ho Hre Hstep) as Hre1.
    destruct (IH a1 r1 Hst1 ltac:(congruence) Hre1 Hexec)
      as (? & ? & ? & ?).
    split_and!; try done. congruence.
Qed.

(** A finished run over contiguous pending indices, for a reassembler
    that has been following the output since the frontier stood at
    [first]. *)
Lemma drain_from orc prev first a r :
  Struct r → ReasmInv orc prev first (a, r) → finished r = true →
  contiguous (indices r) →
  hd 0 (indices r) ≤ first ≤ hd 0 (indices r) + length (indices r) →
  finalText a
  = foldl appendChunk prev
      ((chunkOf ∘ orc)
         <$> seq first (hd 0 (indices r) + length (indices r) - first)).
Proof.
  intros Hst (Hre & Hexit & _) Hfin Hctg Hfirst. cbn [fst snd] in *.
  pose proof (finished_all_settled r) as Hall.
  unfold contiguous in Hctg.
  remember (hd 0 (indices r)) as h eqn:Hh.
  remember (length (indices r)) as n eqn:Hn.
  assert (Hidx : ∀ i, settled r i ↔ h ≤ i < h + n).
  { intros i. rewrite Hall by done. rewrite Hctg, elem_of_seq. lia. }
  pose proof (re_first _ _ _ _ _ _ _ Hre) as Hle.
  assert (Hnext : nextIndexToAppend r = h + n).
  { destruct (decide (nextIndexToAppend r < h + n)) as [Hlt|Hge].
    - assert (Hs : settled r (nextIndexToAppend r)) by (apply Hidx; lia).
      assert (Hc : completedTexts r !! nextIndexToAppend r
                   = Some (chunkOf (orc (nextIndexToAppend r)))).
      { apply (re_buffer _ _ _ _ _ _ _ Hre). done. }
      congruence.
    - destruct (decide (nextIndexToAppend r = h + n)) as [|Hne]; [done|].
      assert (Hs : settled r (h + n)).
      { apply (re_flushed _ _ _ _ _ _ _ Hre). lia. }
      apply Hidx in Hs. lia. }
  by rewrite (re_text _ _ _ _ _ _ _ Hre), Hnext.
Qed.

(** The reassembler does not look at the component state beyond the
    output text, and it cannot be stopped.  If, in the middle of a run over
    contiguous pending indices, the component state is replaced by any
    other (the text is edited in the editor, or Clear All empties the queue
    and the text), the run goes on and, when it has finished, the output is
    the text as it was left followed by the chunks that had not been
    flushed at that moment, in index order. *)
Theorem text_replaced_mid_run orc a0 sched1 a r a2 sched2 a' r' :
  run_of orc a0 sched1 = Some (a, r) →
  contiguous (selectPending (images a0)).*2 →
  exec sched2 (a2, r) = Some (a', r') → finished r' = true →
  finalText a'
  = joinChunks
      (finalText a2
       :: ((chunkOf ∘ orc)
             <$> seq (nextIndexToAppend r)
                   (hd 0 (selectPending (images a0)).*2
                    + length (selectPending (images a0)).*2
                    - nextIndexToAppend r))).
Proof.
  intros Hrun Hctg Hexec Hfin.
  pose proof (RunInv_run_of _ _ _ _ Hrun) as Hinv.
  pose proof (run_indices _ _ _ _ Hrun) as Hidx. cbn [snd] in Hidx.
  pose proof (ri_struct _ _ _ Hinv) as Hst. cbn [snd] in Hst.
  pose proof (ri_oracle _ _ _ Hinv) as Horc. cbn [snd] in Horc.
  destruct (ri_reasm _ _ _ Hinv) as (Hre & Hexit & Hun). cbn [fst snd] in *.
  rewrite <- Hidx in *.
  assert (Hrange : hd 0 (indices r) ≤ nextIndexToAppend r
                   ≤ hd 0 (indices r) + length (indices r)).
  { split; [apply (re_first _ _ _ _ _ _ _ Hre)|].
    destruct (decide (nextIndexToAppend r
                      ≤ hd 0 (indices r) + length (indices r)))
      as [|Hgt]; [done|]. exfalso.
    assert (Hs : settled r (hd 0 (indices r) + length (indices r))).
    { apply (re_flushed _ _ _ _ _ _ _ Hre). lia. }
    destruct Hs as [Hcl _]. unfold claimed in Hcl.
    apply elem_of_take in Hcl as (? & Hin%list_elem_of_lookup_2 & _).
    unfold contiguous in Hctg. rewrite Hctg in Hin.
    apply elem_of_seq in Hin. rewrite <- Hctg in Hin. lia. }
  assert (Hre2 : ReasmInv orc (finalText a2) (nextIndexToAppend r) (a2, r)).
  { split_and!; cbn [fst snd]; [|done|done]. constructor.
    - done.
    - apply (re_buffer _ _ _ _ _ _ _ Hre).
    - intros i ?. lia.
    - by rewrite Nat.sub_diag. }
  destruct (ReasmInv_exec _ _ _ _ _ _ _ _ Hst Horc Hre2 Hexec)
    as (Hst' & _ & Hp' & Hre').
  assert (Hidx' : indices r' = indices r) by (unfold indices; by rewrite Hp').
  rewrite <- foldl_appendChunk, <- Hidx'.
  apply drain_from; try done; rewrite Hidx'; done.
Qed.

Lemma text_replaced_mid_run_witness :
  ∃ a r a' r',
    run_of (okAll ["A"; "B"; "C"]) app3 [ESettle 0] = Some (a, r)
    ∧ finalText a = "A"
    ∧ exec [ESettle 2; ESettle 1; EResume 0; EResume 1; EResume 2]
        (setFinalText "" (setImages (fun _ => []) a), r) = Some (a', r')
    ∧ finished r' = true
    ∧ finalText a' = "B" +:+ blankLine +:+ "C".
Proof.
  destruct (run_of (okAll ["A"; "B"; "C"]) app3 [ESettle 0])
    as [[a r]|] eqn:E1; [|by vm_compute in E1].
  destruct (exec [ESettle 2; ESettle 1; EResume 0; EResume 1; EResume 2]
              (setFinalText "" (setImages (fun _ => []) a), r))
    as [[a' r']|] eqn:E2.
  2:{ vm_compute in E1. injection E1 as <- <-. by vm_compute in E2. }
  exists a, r, a', r'. split; [done|].
  assert (Hctg : contiguous (selectPending (images app3)).*2)
    by (vm_compute; reflexivity).
  pose proof (text_replaced_mid_run _ _ _ _ _ _ _ _ _ E1 Hctg E2) as H.
  vm_compute in E1. injection E1 as <- <-.
  vm_compute in E2. injection E2 as <- <-.
  split; [reflexivity|]. split; [reflexivity|]. split; [reflexivity|].
  rewrite (H eq_refl). vm_compute. reflexivity.
Defined.

(** ** Pages are added while a run is in progress *)

Lemma mapAt_app_l index f (l1 l2 : list BatchImage) :
  index < length l1 → mapAt index f (l1 ++ l2) = mapAt index f l1 ++ l2.
Proof.
  intros Hlt. unfold mapAt. rewrite imap_app. f_equal.
  transitivity (id <$> l2); [|apply list_fmap_id].
  rewrite <- imap_const. apply imap_ext. intros i x _. simpl.
  rewrite decide_False; [done|lia].
Qed.

Lemma tryAppendText_setImages g a r :
  tryAppendText (setImages g a, r)
  = (setImages g (tryAppendText (a, r)).1, (tryAppendText (a, r)).2).
Proof.
  unfold tryAppendText. cbn [finalText setImages].
  by destruct (tryAppend_loop _ _ _ _) as [[m next] t].
Qed.

Lemma setImages_mapAt_upload index f (l : list BatchImage) a :
  index < length (images a) →
  setImages (mapAt index f) (setImages (fun prev => prev ++ l) a)
  = setImages (fun prev => prev ++ l) (setImages (mapAt index f) a).
Proof.
  intros Hlt. unfold setImages.
  cbn [images finalText isProcessing apiKey showKeyModal].
  by rewrite mapAt_app_l.
Qed.

Lemma step_after_upload e a r a' r' (l : list BatchImage) :
  (∀ w item, workers r !! w = Some (Awaiting item) →
     item.2 < length (images a)) →
  (∀ item : Item, pendingItems r !! queuePointer r = Some item →
     item.2 < length (images a)) →
  step e (a, r) = Some (a', r') →
  step e (setImages (fun prev => prev ++ l) a, r)
  = Some (setImages (fun prev => prev ++ l) a', r').
Proof.
  intros Haw Hq. unfold step. cbn [fst snd]. destruct e as [w p|w|w].
  - destruct (workers r !! w) as [[|item|]|] eqn:Hw; try done.
    intros [= <- <-]. f_equal. unfold onProgress. cbn [fst snd].
    by rewrite setImages_mapAt_upload by (by eapply Haw).
  - destruct (workers r !! w) as [[|item|]|] eqn:Hw; try done.
    rewrite !processItem_settle_eq. cbv zeta. intros [= <- <-].
    rewrite setImages_mapAt_upload by (by eapply Haw).
    by rewrite tryAppendText_setImages.
  - destruct (workers r !! w) as [[|item|]|] eqn:Hw; try done.
    unfold runWorker.
    destruct (pendingItems r !! queuePointer r) as [item|] eqn:Hitem;
      [|by intros [= <- <-]].
    unfold processItem_call. intros H. injection H as Ha Hr.
    rewrite <- Ha, <- Hr.
    by rewrite setImages_mapAt_upload by (by eapply Hq).
Qed.

(** Adding pages during a run does not change what the run does: for any
    state the component can be in, taking a pool step and then adding pages
    gives the same state as adding the pages first and then taking the
    step. *)
Theorem upload_commutes_with_pool_step trace s news e s1 :
  acts trace initial = Some s → act (APool e) s = Some s1 →
  act (AUpload news) s ≫= act (APool e) = act (AUpload news) s1.
Proof.
  intros [_ Hrun]%SysInv_reachable. destruct s as [a rn].
  cbn [act app run mbind option_bind] in *.
  destruct rn as [r|]; [|done].
  destruct (step e (a, r)) as [[a1 r1]|] eqn:Hstep; [|done].
  intros [= <-]. cbn [app run].
  erewrite step_after_upload; [done| | |exact Hstep].
  - intros w item Hw.
    destruct (po_awaited _ _ Hrun _ (awaited_lookup _ _ _ Hw))
      as (img & Hi & _).
    by eapply lookup_lt_Some.
  - intros item Hitem.
    assert (Hin : item.2 ∈ drop (queuePointer r) (indices r)).
    { apply list_elem_of_lookup. exists 0.
      rewrite lookup_drop, Nat.add_0_r. unfold indices.
      by rewrite list_lookup_fmap, Hitem. }
    destruct (po_unclaimed _ _ Hrun _ Hin) as (img & Hi & _).
    by eapply lookup_lt_Some.
Qed.

Lemma upload_commutes_with_pool_step_witness :
  acts [ASaveKey "k"; AUpload [("a", 1%N, "u0")];
        AStart (okAll ["A"]); AUpload [("b", 2%N, "u1")];
        APool (ESettle 0)] initial
  = acts [ASaveKey "k"; AUpload [("a", 1%N, "u0")];
          AStart (okAll ["A"]); APool (ESettle 0);
          AUpload [("b", 2%N, "u1")]] initial.
Proof.
  destruct (acts [ASaveKey "k"; AUpload [("a", 1%N, "u0")];
                  AStart (okAll ["A"])] initial) as [s|] eqn:E;
    [|by vm_compute in E].
  destruct (act (APool (ESettle 0)) s) as [s1|] eqn:E1.
  2:{ vm_compute in E. injection E as <-. by vm_compute in E1. }
  pose proof (upload_commutes_with_pool_step _ _ [("b", 2%N, "u1")] _ _
                E E1) as H.
  vm_compute in E. injection E as <-.
  vm_compute in E1. injection E1 as <-.
  vm_compute in H. vm_compute. exact H.
Defined.

(** ** The batch button *)

Lemma filter_all_length {A} (P : A → Prop) `{!∀ x, Decision (P x)}
    (l : list A) :
  length (filter P l) = length l ↔ ∀ x, x ∈ l → P x.
Proof.
  induction l as [|x l IH].
  - split; [by intros _ ? ?%elem_of_nil|done].
  - rewrite filter_cons. pose proof (length_filter P l) as Hle.
    destruct (decide (P x)) as [Hx|Hx]; cbn [length].
    + split.
      * intros Hlen y [->|Hy]%elem_of_cons; [done|].
        apply IH; [lia|done].
      * intros Hall. f_equal. apply IH. intros y Hy. apply Hall. by right.
    + split; [lia|]. intros Hall. exfalso. apply Hx, Hall. by left.
Qed.

(** With a page list that is not empty (the button is rendered) and a key
    saved, pressing the batch button starts a pool exactly when the button
    is enabled; a disabled button, were it pressed, would change nothing. *)
Theorem button_enabled_iff_start_runs orc a :
  images a ≠ [] → apiKey a ≠ "" →
  (startDisabled a = false
   ↔ ∃ a1 r1, startBatchProcess orc a = (a1, Some r1))
  ∧ (startDisabled a = true → startBatchProcess orc a = (a, None)).
Proof.
  intros Hne Hkey%truthy_true.
  assert (Hdone : isAllDone a = true ↔ selectPending (images a) = []).
  { unfold isAllDone, processedCount. rewrite selectPending_nil.
    rewrite andb_true_iff, Nat.ltb_lt, Nat.eqb_eq, filter_all_length.
    split; [by intros [_ ?]|]. intros Hall. split; [|done].
    destruct (images a); [done|]. simpl. lia. }
  unfold startDisabled, startBatchProcess. rewrite Hkey. cbn [negb].
  destruct (isProcessing a) eqn:Hp; cbn [orb].
  - split; [|done]. split; [done|]. by intros (? & ? & [=]).
  - destruct (selectPending (images a)) as [|first rest] eqn:Hsel.
    + rewrite (proj2 Hdone eq_refl). split.
      * split; [done|]. by intros (? & ? & [=]).
      * intros _. by rewrite setIsProcessing_back.
    + assert (isAllDone a = false) as ->.
      { destruct (isAllDone a); [|done]. by pose proof (proj1 Hdone eq_refl). }
      split; [|done]. split; [|done]. intros _. eauto.
Qed.

Lemma button_enabled_iff_start_runs_witness :
  startDisabled appDone = true
  ∧ startBatchProcess (okAll []) appDone = (appDone, None)
  ∧ startDisabled app3 = false
  ∧ ∃ a1 r1, startBatchProcess (okAll []) app3 = (a1, Some r1).
Proof.
  destruct (button_enabled_iff_start_runs (okAll []) appDone)
    as [_ H1]; [done|done|].
  destruct (button_enabled_iff_start_runs (okAll []) app3)
    as [H2 _]; [done|done|].
  split; [reflexivity|]. split; [apply H1; reflexivity|].
  split; [reflexivity|]. apply H2. reflexivity.
Defined.

(** ** The export libraries *)

Lemma check_spec fuel env attempts f :
  maxAttempts - attempts ≤ fuel → attempts < maxAttempts →
  (∀ k, attempts ≤ k < maxAttempts → libsReady (env k) = false) ∧
    check fuel env attempts f
    = Some ({| libsLoaded := libsLoaded f; libsError := true |},
            maxAttempts - 1 - attempts)
  ∨ ∃ k, attempts ≤ k < maxAttempts ∧ libsReady (env k) = true
      ∧ (∀ j, attempts ≤ j < k → libsReady (env j) = false)
      ∧ check fuel env attempts f
        = Some ({| libsLoaded := true; libsError := false |}, k - attempts).
Proof.
  revert attempts. induction fuel as [|fuel IH]; intros attempts Hfuel Hlt.
  { lia. }
  cbn [check]. destruct (libsReady (env attempts)) eqn:Hr.
  - right. exists attempts. split_and!; try done; try lia.
    by rewrite Nat.sub_diag.
  - destruct (maxAttempts <=? S attempts) eqn:Hmax.
    + apply Nat.leb_le in Hmax. left. split.
      * intros k Hk. by replace k with attempts by lia.
      * do 2 f_equal. lia.
    + apply Nat.leb_gt in Hmax.
      destruct (IH (S attempts) ltac:(lia) ltac:(lia))
        as [[Hall ->]|(k & Hk & Hrk & Hbefore & ->)].
      * left. split.
        -- intros k Hk. destruct (decide (k = attempts)) as [->|]; [done|].
           apply Hall. lia.
        -- do 2 f_equal. lia.
      * right. exists k. split_and!; try done; try lia.
        -- intros j Hj. destruct (decide (j = attempts)) as [->|]; [done|].
           apply Hbefore. lia.
        -- do 2 f_equal. lia.
Qed.

(** [checkLibs] always stops, after at most 60 polls.  If the libraries
    are all present at some poll among the first 60, it stops at the first
    such poll [k] with [libsLoaded] set and [libsError] cleared, having
    waited [k] delays of 500 ms.  If they are not, it raises [libsError]
    after 59 delays (29.5 s) and leaves [libsLoaded] as it was. *)
Theorem checkLibs_stops env f :
  (∀ k, k < 60 → libsReady (env k) = false) ∧
    checkLibs env f
    = Some ({| libsLoaded := libsLoaded f; libsError := true |}, 59)
  ∨ ∃ k, k < 60 ∧ libsReady (env k) = true
      ∧ (∀ j, j < k → libsReady (env j) = false)
      ∧ checkLibs env f
        = Some ({| libsLoaded := true; libsError := false |}, k).
Proof.
  unfold checkLibs.
  destruct (check_spec maxAttempts env 0
              {| libsLoaded := libsLoaded f; libsError := false |})
    as [[Hall Heq]|(k & Hk & Hrk & Hbefore & Heq)];
    unfold maxAttempts in *; try lia.
  - left. split; [intros k ?; apply Hall; lia|]. exact Heq.
  - right. exists k. split; [lia|]. split; [done|].
    split; [intros j ?; apply Hbefore; lia|].
    rewrite Heq. by rewrite Nat.sub_0_r.
Qed.

(** ** The API key *)

(** From the mount of the component on, whatever is stored and whatever
    the user does: the key in the component state is the key a reload would
    restore from [localStorage], and whenever there is no key the key
    dialog is showing. *)
Theorem key_dialog_invariant (st0 : option string) trace s :
  keyActs trace (mountKey (app initial, st0)) = Some s →
  apiKey s.1 = apiKey (mountKey (app initial, s.2)).1
  ∧ (apiKey s.1 = "" → showKeyModal s.1 = true).
Proof.
  set (Inv := fun s : KeyUI =>
         apiKey s.1 = apiKey (mountKey (app initial, s.2)).1
         ∧ (apiKey s.1 = "" → showKeyModal s.1 = true)).
  assert (Hmount : ∀ st, Inv (mountKey (app initial, st))).
  { intros [k|]; unfold Inv, mountKey; cbn [fst snd]; [|done].
    destruct (truthy k) eqn:Hk; cbn [fst snd]; rewrite Hk; cbn [fst snd].
    - split; [done|]. cbn. intros ->. by cbn in Hk.
    - done. }
  assert (Hstep : ∀ x s s', Inv s → keyAct x s = Some s' → Inv s').
  { intros x [a st] s' [H1 H2]. cbn [fst snd] in *.
    destruct x as [val| | | |orc]; cbn [keyAct fst snd].
    - destruct (showKeyModal a) eqn:Hm; [|done]. intros [= <-].
      destruct (truthy val) eqn:Hv; [|split; [exact H1|by intros _]].
      unfold Inv, handleSaveKey, mountKey. cbn. rewrite Hv. cbn.
      split; [done|]. intros ->. by cbn in Hv.
    - destruct (showKeyModal a && truthy (apiKey a)); [|done].
      intros [= <-]. by split.
    - destruct (showKeyModal a && truthy (apiKey a)) eqn:Hc; [|done].
      intros [= <-]. apply andb_true_iff in Hc as [_ Hk].
      split; [done|]. cbn. intros Hempty. by rewrite Hempty in Hk.
    - intros [= <-]. by split.
    - intros [= <-]. unfold Inv. cbn [fst snd].
      unfold startBatchProcess.
      destruct (isProcessing a); [done|].
      destruct (truthy (apiKey a)) eqn:Hk; cbn [negb]; [|done].
      assert (Hne : apiKey a ≠ "") by (by apply truthy_true).
      destruct (selectPending (images a)); cbn [fst]; [done|].
      destruct (foldl _ _ _) as [a1 r1] eqn:Hf. cbn [fst].
      assert (Hflags : apiKey a1 = apiKey a).
      { pose proof (spawn_exec (seq 0 (Nat.min CONCURRENCY_LIMIT
                      (length (p :: l))))) as Hsp.
        specialize (Hsp (setIsProcessing true a,
          {| pendingItems := p :: l; nextIndexToAppend := p.2;
             completedTexts := ∅; queuePointer := 0;
             workers := replicate (Nat.min CONCURRENCY_LIMIT
                                     (length (p :: l))) AtLoopHead;
             calls := []; oracle := orc |}) (NoDup_seq _ _)).
        rewrite Hf in Hsp.
        assert (Hflag : ∀ sched s1 s2, exec sched s1 = Some s2 →
                  apiKey s2.1 = apiKey s1.1).
        { clear. induction sched as [|e sched IH]; intros s1 s2; simpl.
          - by intros [= <-].
          - destruct (step e s1) as [s3|] eqn:Hs; [|done]. intros He.
            rewrite (IH _ _ He). destruct s1, s3.
            by apply step_flags in Hs as (_ & ? & _). }
        apply Hflag in Hsp; [done|].
        intros w (_ & Hw)%elem_of_seq. cbn [snd workers].
        apply lookup_replicate_2. lia. }
      rewrite Hflags. split; [done|]. intros ?. done. }
  revert s. generalize (mountKey (app initial, st0)) (Hmount st0).
  induction trace as [|x trace IH]; intros s0 H0 s; simpl.
  - by intros [= <-].
  - destruct (keyAct x s0) as [s1|] eqn:Hact; [|done].
    apply IH. by eapply Hstep.
Qed.

Lemma key_dialog_invariant_witness :
  ∃ s,
    keyActs [KOpen; KSubmit ""; KSubmit "k1"; KOpen; KRemove;
             KStart (okAll [])]
      (mountKey (app initial, Some "k0")) = Some s
    ∧ s.2 = None ∧ apiKey s.1 = "" ∧ showKeyModal s.1 = true.
Proof.
  destruct (keyActs
      [KOpen; KSubmit ""; KSubmit "k1"; KOpen; KRemove; KStart (okAll [])]
      (mountKey (app initial, Some "k0"))) as [s|] eqn:E.
  2:{ by vm_compute in E. }
  exists s.
  destruct (key_dialog_invariant _ _ _ E) as [_ H2].
  vm_compute in E. injection E as <-.
  split; [reflexivity|]. split; [reflexivity|]. split; [reflexivity|].
  apply H2. reflexivity.
Defined.

(** ** The archive *)

Lemma chars_app a b : chars (a +:+ b) = chars a ++ chars b.
Proof.
  induction a as [|c a IH]; [done|].
  change (String c a +:+ b) with (String c (a +:+ b)).
  cbn [chars]. by rewrite IH.
Qed.

Lemma str_chars s : str (chars s) = s.
Proof. induction s as [|c s IH]; [done|]. cbn [chars str]. by rewrite IH. Qed.

Lemma chars_str l : chars (str l) = l.
Proof. induction l as [|c l IH]; [done|]. cbn [chars str]. by rewrite IH. Qed.

Lemma chars_inj a b : chars a = chars b → a = b.
Proof. intros H. rewrite <- (str_chars a), <- (str_chars b). by rewrite H. Qed.

Lemma string_app_inv_tail a b c : a +:+ c = b +:+ c → a = b.
Proof.
  intros H. apply chars_inj. apply (f_equal chars) in H.
  rewrite !chars_app in H. by apply app_inv_tail in H.
Qed.

(** The names given to the entries of pages [i+1 ..], two per page. *)
Lemma zipPages_names render i imgs entries :
  zipPages render i imgs = Some entries →
  entries.*1 =
    seq i (length imgs) ≫= (fun k =>
      [("Note_Page_" +:+ pretty (k + 1)) +:+ ".txt";
       ("Note_Page_" +:+ pretty (k + 1)) +:+ ".docx"]).
Proof.
  revert i entries. induction imgs as [|img imgs IH]; intros i entries.
  - by intros [= <-].
  - cbn [zipPages].
    destruct (render _ _) as [blob|]; [|done].
    destruct (zipPages render (S i) imgs) as [rest|] eqn:Hrest; [|done].
    intros [= <-]. cbn [length seq]. rewrite bind_cons.
    cbn [fmap list_fmap fst]. rewrite (IH _ _ Hrest). reflexivity.
Qed.

Lemma zip_name_inj (k k' : nat) e e' :
  e ∈ [".txt"; ".docx"] → e' ∈ [".txt"; ".docx"] →
  ("Note_Page_" +:+ pretty k) +:+ e = ("Note_Page_" +:+ pretty k') +:+ e' →
  k = k' ∧ e = e'.
Proof.
  assert (Hsame : ∀ x, ("Note_Page_" +:+ pretty k) +:+ x
                       = ("Note_Page_" +:+ pretty k') +:+ x → k = k').
  { intros x Hx. apply string_app_inv_tail in Hx.
    apply (inj (String.append "Note_Page_")) in Hx.
    by apply (inj pretty) in Hx. }
  assert (Hdiff : ∀ a b : nat, ("Note_Page_" +:+ pretty a) +:+ ".txt"
                         ≠ ("Note_Page_" +:+ pretty b) +:+ ".docx").
  { intros a b Hx. apply (f_equal (fun x => last (chars x))) in Hx.
    rewrite !chars_app, !last_app in Hx. by vm_compute in Hx. }
  intros He He' Heq.
  apply elem_of_cons in He as [->|He];
    [|apply list_elem_of_singleton in He as ->];
    (apply elem_of_cons in He' as [->|He'];
      [|apply list_elem_of_singleton in He' as ->]).
  - split; [by eapply Hsame|done].
  - by apply Hdiff in Heq.
  - symmetry in Heq. by apply Hdiff in Heq.
  - split; [by eapply Hsame|done].
Qed.

Lemma zip_names_NoDup i n :
  NoDup (seq i n ≫= (fun k =>
    [("Note_Page_" +:+ pretty (k + 1)) +:+ ".txt";
     ("Note_Page_" +:+ pretty (k + 1)) +:+ ".docx"])).
Proof.
  revert i. induction n as [|n IH]; intros i; [constructor|].
  cbn [seq]. rewrite bind_cons. cbn [app].
  assert (Hrest : ∀ e, e ∈ [".txt"; ".docx"] →
            (("Note_Page_" +:+ pretty (i + 1)) +:+ e) ∉
              (seq (S i) n ≫= (fun k =>
                 [("Note_Page_" +:+ pretty (k + 1)) +:+ ".txt";
                  ("Note_Page_" +:+ pretty (k + 1)) +:+ ".docx"]))).
  { intros e He (k & Hin & Hk)%list_elem_of_bind.
    apply elem_of_seq in Hk.
    apply elem_of_cons in Hin as [Hin|Hin];
      [|apply list_elem_of_singleton in Hin];
      apply zip_name_inj in Hin as [? _];
      first [lia | done | set_unfold; tauto]. }
  constructor.
  - intros [Hin|Hin]%elem_of_cons.
    + apply zip_name_inj in Hin as [_ ?]; [done|set_unfold; tauto..].
    + revert Hin. apply Hrest. set_unfold; tauto.
  - constructor; [|apply IH]. apply Hrest. set_unfold; tauto.
Qed.

Lemma zipPages_length render i imgs entries :
  zipPages render i imgs = Some entries →
  length entries = 2 * length imgs.
Proof.
  revert i entries. induction imgs as [|img imgs IH]; intros i entries.
  - by intros [= <-].
  - cbn [zipPages].
    destruct (render _ _) as [blob|]; [|done].
    destruct (zipPages render (S i) imgs) as [rest|] eqn:Hrest; [|done].
    intros [= <-]. cbn [length]. apply IH in Hrest. lia.
Qed.

Lemma zipPages_txt render i imgs entries :
  zipPages render i imgs = Some entries →
  txtFiles entries = (fun img => orElse (processedText img) "") <$> imgs.
Proof.
  revert i entries. induction imgs as [|img imgs IH]; intros i entries.
  - by intros [= <-].
  - cbn [zipPages].
    destruct (render _ _) as [blob|]; [|done].
    destruct (zipPages render (S i) imgs) as [rest|] eqn:Hrest; [|done].
    intros [= <-]. unfold txtFiles. cbn [omap list_omap snd fmap list_fmap].
    f_equal. by eapply IH.
Qed.

Lemma handleDownloadZip_saved loaded render packs a entries :
  handleDownloadZip loaded render packs a = ZipSaved entries →
  loaded = true ∧ 0 < processedCount a
  ∧ zipPages render 0
      (filter (fun img => status img = Completed) (images a)) = Some entries.
Proof.
  unfold handleDownloadZip, processedCount.
  destruct loaded; cbn [negb]; [|done].
  destruct (filter _ (images a)) as [|img imgs] eqn:Hf; [done|].
  destruct (zipPages render 0 (img :: imgs)) as [es|] eqn:Hz; [|done].
  destruct packs; [|done]. intros [= <-].
  split; [done|]. split; [cbn [length]; lia|done].
Qed.

(** An archive is saved only when the libraries are loaded and some page
    is completed; it then holds two entries per completed page, and no two
    entries share a name, so no [zip.file] call replaced an earlier
    entry. *)
Theorem zip_names_distinct loaded render packs a entries :
  handleDownloadZip loaded render packs a = ZipSaved entries →
  loaded = true
  ∧ 0 < processedCount a
  ∧ length entries = 2 * processedCount a
  ∧ NoDup entries.*1.
Proof.
  intros (Hl & Hpos & Hz)%handleDownloadZip_saved.
  split; [done|]. split; [done|]. split.
  - by apply zipPages_length in Hz.
  - apply zipPages_names in Hz. rewrite Hz. apply zip_names_NoDup.
Qed.

Lemma zip_names_distinct_witness :
  ∃ entries,
    handleDownloadZip true (fun _ _ => Some 7%N) true appDone
      = ZipSaved entries
    ∧ length entries = 2 ∧ NoDup entries.*1.
Proof.
  destruct (handleDownloadZip true (fun _ _ => Some 7%N) true appDone)
    as [| | |entries] eqn:E; try by vm_compute in E.
  exists entries. split; [reflexivity|].
  destruct (zip_names_distinct _ _ _ _ _ E) as (_ & _ & Hlen & Hnd).
  split; [|exact Hnd]. rewrite Hlen. reflexivity.
Defined.

(** On every state the component can reach, the [.txt] entries of a saved
    archive are, in page order, the stored result texts of the completed
    pages: the fallback of [img.processedText || ""] never replaces a
    text. *)
Theorem zip_holds_stored_texts trace s loaded render packs entries :
  acts trace initial = Some s →
  handleDownloadZip loaded render packs (app s) = ZipSaved entries →
  Some <$> txtFiles entries =
    processedText <$>
      filter (fun img => status img = Completed) (images (app s)).
Proof.
  intros [Hitems _]%SysInv_reachable (_ & _ & Hz)%handleDownloadZip_saved.
  apply zipPages_txt in Hz. rewrite Hz, <- list_fmap_compose.
  apply Forall_fmap_ext_1, Forall_forall.
  intros img [Hdone Hin]%list_elem_of_filter.
  rewrite Forall_forall in Hitems.
  destruct (Hitems _ Hin) as [_ Htext].
  apply Htext in Hdone as [t Ht]. unfold compose. rewrite Ht.
  cbn [orElse]. by destruct t.
Qed.

Lemma zip_holds_stored_texts_witness :
  ∃ s entries,
    acts [ASaveKey "k"; AUpload [("a", 1%N, "u0"); ("b", 2%N, "u1")];
          AStart (fun i => if i =? 0 then Resolved "A" else Rejected);
          APool (ESettle 0); APool (ESettle 1);
          APool (EResume 0); APool (EResume 1); AJoin] initial = Some s
    ∧ handleDownloadZip true (fun _ _ => Some 7%N) true (app s)
      = ZipSaved entries
    ∧ txtFiles entries = ["A"].
Proof.
  destruct (acts [ASaveKey "k"; AUpload [("a", 1%N, "u0"); ("b", 2%N, "u1")];
          AStart (fun i => if i =? 0 then Resolved "A" else Rejected);
          APool (ESettle 0); APool (ESettle 1);
          APool (EResume 0); APool (EResume 1); AJoin] initial)
    as [s|] eqn:E; [|by vm_compute in E].
  destruct (handleDownloadZip true (fun _ _ => Some 7%N) true (app s))
    as [| | |entries] eqn:Ez.
  1-3: by vm_compute in E; injection E as <-; vm_compute in Ez.
  exists s, entries. split; [reflexivity|]. split; [exact Ez|].
  pose proof (zip_holds_stored_texts _ _ _ _ _ _ E Ez) as H.
  vm_compute in E. injection E as <-.
  apply (inj (fmap Some)). rewrite H. reflexivity.
Defined.

(** ** The size of the canvas *)

Lemma roundDiv_spec a b :
  (0 < b)%Z →
  (2 * b * roundDiv a b ≤ 2 * a + b < 2 * b * roundDiv a b + 2 * b)%Z.
Proof.
  intros Hb. unfold roundDiv.
  pose proof (Z.mul_div_le (2 * a + b) (2 * b) ltac:(lia)).
  pose proof (Z.mul_succ_div_gt (2 * a + b) (2 * b) ltac:(lia)).
  lia.
Qed.

(** The canvas never exceeds 1536 in either direction and is never larger
    than the image; its longer side is the longer side of the image cut
    down to 1536, on the same axis (the width for an image wider than
    high, the height otherwise); and a canvas size is left as it is when
    it is taken as an image size again. *)
Theorem canvasSize_fits w h :
  (0 ≤ w)%Z → (0 ≤ h)%Z →
  (0 ≤ (canvasSize w h).1 ≤ Z.min w MAX_DIMENSION)%Z
  ∧ (0 ≤ (canvasSize w h).2 ≤ Z.min h MAX_DIMENSION)%Z
  ∧ Z.max (canvasSize w h).1 (canvasSize w h).2
    = Z.min (Z.max w h) MAX_DIMENSION
  ∧ ((h < w)%Z → ((canvasSize w h).2 ≤ (canvasSize w h).1)%Z)
  ∧ ((h < w)%Z → (canvasSize w h).1 = Z.min w MAX_DIMENSION)
  ∧ ((w ≤ h)%Z →
     ((canvasSize w h).1 ≤ (canvasSize w h).2)%Z
     ∧ (canvasSize w h).2 = Z.min h MAX_DIMENSION)
  ∧ canvasSize (canvasSize w h).1 (canvasSize w h).2 = canvasSize w h.
Proof.
  intros Hw Hh.
  assert (Hsmall : ∀ x y, (x ≤ MAX_DIMENSION)%Z → (y ≤ MAX_DIMENSION)%Z →
            canvasSize x y = (x, y)).
  { intros x y Hx Hy. unfold canvasSize.
    destruct (Z.ltb_spec MAX_DIMENSION x); [lia|].
    destruct (Z.ltb_spec MAX_DIMENSION y); [lia|]. done. }
  destruct (canvasSize w h) as [w' h'] eqn:E. cbn [fst snd].
  unfold canvasSize in E. unfold MAX_DIMENSION in *.
  destruct (Z.ltb_spec 1536 w) as [Hbw|Hbw];
    destruct (Z.ltb_spec 1536 h) as [Hbh|Hbh]; cbn [orb] in E;
    try (destruct (Z.ltb_spec h w) as [Hlt|Hge]);
    injection E as <- <-;
    try (pose proof (roundDiv_spec (h * 1536) w ltac:(lia)));
    try (pose proof (roundDiv_spec (w * 1536) h ltac:(lia)));
    (split; [nia|]); (split; [nia|]); (split; [nia|]); (split; [nia|]);
    (split; [nia|]); (split; [nia|]);
    apply Hsmall; nia.
Qed.

Lemma canvasSize_fits_witness :
  (0 ≤ 4000)%Z ∧ (0 ≤ 3000)%Z
  ∧ Z.max (canvasSize 4000 3000).1 (canvasSize 4000 3000).2 = 1536%Z.
Proof.
  split; [lia|]. split; [lia|].
  destruct (canvasSize_fits 4000 3000) as (_ & _ & Hmax & _); [lia..|].
  rewrite Hmax. reflexivity.
Defined.

(** The canvas has the proportions of the image up to the rounding of one
    side: cross-multiplied, the two ratios differ by at most half the
    longer side of the image. *)
Theorem canvasSize_keeps_ratio w h :
  (0 ≤ w)%Z → (0 ≤ h)%Z →
  (2 * Z.abs ((canvasSize w h).1 * h - (canvasSize w h).2 * w)
   ≤ Z.max w h)%Z.
Proof.
  intros Hw Hh.
  destruct (canvasSize w h) as [w' h'] eqn:E. cbn [fst snd].
  unfold canvasSize in E. unfold MAX_DIMENSION in *.
  destruct (Z.ltb_spec 1536 w) as [Hbw|Hbw];
    destruct (Z.ltb_spec 1536 h) as [Hbh|Hbh]; cbn [orb] in E;
    try (destruct (Z.ltb_spec h w) as [Hlt|Hge]);
    injection E as <- <-;
    try (pose proof (roundDiv_spec (h * 1536) w ltac:(lia)));
    try (pose proof (roundDiv_spec (w * 1536) h ltac:(lia)));
    lia.
Qed.

Lemma canvasSize_keeps_ratio_witness :
  (0 ≤ 4032)%Z ∧ (0 ≤ 3025)%Z
  ∧ (2 * Z.abs ((canvasSize 4032 3025).1 * 3025
                - (canvasSize 4032 3025).2 * 4032) ≤ 4032)%Z.
Proof.
  split; [lia|]. split; [lia|].
  apply (canvasSize_keeps_ratio 4032 3025); lia.
Defined.

(** A side of the canvas size is zero exactly when the longer side of the
    image is more than 3072 times the shorter one: the short side is then
    rounded to nothing. *)
Theorem canvasSize_degenerate w h :
  (0 < w)%Z → (0 < h)%Z →
  ((canvasSize w h).1 = 0%Z ∨ (canvasSize w h).2 = 0%Z)
  ↔ (2 * MAX_DIMENSION * Z.min w h < Z.max w h)%Z.
Proof.
  intros Hw Hh.
  destruct (canvasSize w h) as [w' h'] eqn:E. cbn [fst snd].
  unfold canvasSize in E. unfold MAX_DIMENSION in *.
  destruct (Z.ltb_spec 1536 w) as [Hbw|Hbw];
    destruct (Z.ltb_spec 1536 h) as [Hbh|Hbh]; cbn [orb] in E;
    try (destruct (Z.ltb_spec h w) as [Hlt|Hge]);
    injection E as <- <-;
    try (pose proof (roundDiv_spec (h * 1536) w ltac:(lia)));
    try (pose proof (roundDiv_spec (w * 1536) h ltac:(lia)));
    (split; [intros [?|?]; nia|intros ?; try nia]).
  all: first [left; nia | right; nia].
Qed.

Lemma canvasSize_degenerate_witness :
  (0 < 4000)%Z ∧ (0 < 1)%Z ∧ canvasSize 4000 1 = (1536, 0)%Z.
Proof.
  split; [lia|]. split; [lia|].
  pose proof (proj2 (canvasSize_degenerate 4000 1 ltac:(lia) ltac:(lia)))
    as H.
  destruct H as [H|H]; [unfold MAX_DIMENSION; lia|by vm_compute in H|].
  reflexivity.
Defined.

(** ** The toolbar of the editor *)

Lemma length_chars s : length (chars s) = String.length s.
Proof. induction s as [|c s IH]; [done|]. cbn. by rewrite IH. Qed.

Lemma str_app l k : str (l ++ k) = str l +:+ str k.
Proof.
  apply chars_inj. by rewrite chars_app, !chars_str.
Qed.

Lemma chars_substring s a b :
  a ≤ b ≤ String.length s →
  chars (substring s a b) = take (b - a) (drop a (chars s)).
Proof.
  intros Hab. unfold substring. rewrite chars_str.
  by rewrite !Nat.min_l, Nat.max_r by lia.
Qed.

(** The five pieces of the text [insertText] produces. *)
Lemma chars_insertText before after t :
  selectionStart t ≤ selectionEnd t ≤ String.length (value t) →
  chars (value (insertText before after t))
  = take (selectionStart t) (chars (value t)) ++ chars before
    ++ take (selectionEnd t - selectionStart t)
         (drop (selectionStart t) (chars (value t)))
    ++ chars after ++ drop (selectionEnd t) (chars (value t)).
Proof.
  intros Hsel. unfold insertText, setSelectionRange. cbn [value].
  rewrite !chars_app, !chars_substring by lia.
  unfold substringFrom. rewrite chars_str, Nat.sub_0_r.
  by rewrite drop_0, <- !(assoc_L (++)).
Qed.

(** On a textarea whose selection lies within its value, as the selection
    of a textarea does: after [insertText] the selection has moved right by
    the length of [before] without being clamped, it lies within the new
    value and covers the same text as before; the text before it is the
    old one followed by [before], and the text after it is [after] followed
    by the old one.  So nothing of the text is lost, and the markers sit
    right around the selection. *)
Theorem insertText_keeps_selection before after t :
  selectionStart t ≤ selectionEnd t ≤ String.length (value t) →
  selectionStart (insertText before after t)
    = selectionStart t + String.length before
  ∧ selectionEnd (insertText before after t)
    = selectionEnd t + String.length before
  ∧ selectionEnd (insertText before after t)
    ≤ String.length (value (insertText before after t))
  ∧ substring (value (insertText before after t))
      (selectionStart (insertText before after t))
      (selectionEnd (insertText before after t))
    = substring (value t) (selectionStart t) (selectionEnd t)
  ∧ substring (value (insertText before after t)) 0
      (selectionStart (insertText before after t))
    = substring (value t) 0 (selectionStart t) +:+ before
  ∧ substringFrom (value (insertText before after t))
      (selectionEnd (insertText before after t))
    = after +:+ substringFrom (value t) (selectionEnd t).
Proof.
  intros Hsel.
  pose proof (chars_insertText before after t Hsel) as Hnew.
  pose proof (length_chars (value t)) as Hlen.
  pose proof (length_chars before) as Hb.
  set (l := chars (value t)) in *.
  set (s := selectionStart t) in *. set (e := selectionEnd t) in *.
  assert (Hl1 : length (take s l) = s) by (rewrite length_take; lia).
  assert (Hl2 : length (take (e - s) (drop s l)) = e - s).
  { rewrite length_take, length_drop. lia. }
  assert (Hlen' : String.length (value (insertText before after t))
                  = String.length (value t) + String.length before
                    + String.length after).
  { rewrite <- !length_chars, Hnew, !length_app, Hl1, Hl2, length_drop.
    fold l. lia. }
  assert (He : selectionEnd (insertText before after t)
               = e + String.length before).
  { unfold insertText, setSelectionRange at 1. cbn [selectionEnd value].
    fold (insertText before after t) in *.
    change (value (setSelectionRange _ _ _))
      with (value (insertText before after t)) in Hlen'.
    unfold insertText, setSelectionRange in Hlen'. cbn [value] in Hlen'.
    rewrite Hlen'. fold s e. lia. }
  assert (Hs : selectionStart (insertText before after t)
               = s + String.length before).
  { unfold insertText, setSelectionRange at 1. cbn [selectionStart value].
    unfold insertText, setSelectionRange in Hlen'. cbn [value] in Hlen'.
    rewrite Hlen'. fold s e. lia. }
  rewrite Hs, He. split; [done|]. split; [done|]. split; [lia|].
  split; [|split].
  - apply chars_inj. rewrite !chars_substring by lia. rewrite Hnew. fold l.
    rewrite (assoc_L (++) (take s l)).
    rewrite drop_app_length' by (rewrite length_app; lia).
    replace (e + String.length before - (s + String.length before))
      with (e - s) by lia.
    by rewrite take_app_length' by lia.
  - apply chars_inj. rewrite chars_app, !chars_substring by lia.
    rewrite Hnew. fold l. rewrite !drop_0, !Nat.sub_0_r.
    rewrite (assoc_L (++) (take s l)).
    by rewrite take_app_length' by (rewrite length_app; lia).
  - apply chars_inj. unfold substringFrom.
    rewrite chars_app, !chars_str, Hnew. fold l.
    rewrite !(assoc_L (++)), <- (assoc_L (++) _ (chars after)).
    rewrite drop_app_length'; [done|]. rewrite !length_app. lia.
Qed.

Lemma insertText_keeps_selection_witness :
  insertText "**" "**" {| value := "a note here"; selectionStart := 2;
                          selectionEnd := 6 |}
  = {| value := "a **note** here"; selectionStart := 4;
       selectionEnd := 8 |}
  ∧ substring "a **note** here" 4 8 = "note".
Proof.
  destruct (insertText_keeps_selection "**" "**"
              {| value := "a note here"; selectionStart := 2;
                 selectionEnd := 6 |}) as (_ & _ & _ & Hsel & _).
  { cbn. lia. }
  split; [reflexivity|]. exact Hsel.
Defined.

(** ** The paragraphs of the document *)

Lemma trimStart_Forall (P : Ascii.ascii → Prop) l :
  Forall P l → Forall P (trimStart l).
Proof.
  induction 1 as [|c l Hc Hl IH]; [constructor|].
  cbn [trimStart]. destruct (isWhite c); [exact IH|by constructor].
Qed.

Lemma trimStart_head l c : head (trimStart l) = Some c → isWhite c = false.
Proof.
  induction l as [|d l IH]; [done|]. cbn [trimStart].
  destruct (isWhite d) eqn:Hd; [exact IH|]. by intros [= <-].
Qed.

Lemma trimStart_last l : trimStart l ≠ [] → last (trimStart l) = last l.
Proof.
  induction l as [|d l IH]; [done|]. cbn [trimStart].
  destruct (isWhite d); [|done]. intros Hne. rewrite (IH Hne).
  destruct l; [done|]. by rewrite last_cons_cons.
Qed.

Lemma trimStart_id l c : head l = Some c → isWhite c = false → trimStart l = l.
Proof. destruct l as [|d l]; [done|]. intros [= ->] Hc. cbn. by rewrite Hc. Qed.

Lemma chars_trim s :
  chars (trim s) = reverse (trimStart (reverse (trimStart (chars s)))).
Proof. unfold trim. by rewrite chars_str. Qed.

Lemma trim_Forall (P : Ascii.ascii → Prop) s :
  Forall P (chars s) → Forall P (chars (trim s)).
Proof.
  intros H. rewrite chars_trim.
  by apply Forall_reverse, trimStart_Forall, Forall_reverse, trimStart_Forall.
Qed.

(** What is left by [trim], if anything, begins and ends with a character
    that is not white space. *)
Lemma trim_ends s :
  chars (trim s) ≠ [] →
  (∃ c, head (chars (trim s)) = Some c ∧ isWhite c = false)
  ∧ (∃ c, last (chars (trim s)) = Some c ∧ isWhite c = false).
Proof.
  rewrite chars_trim. intros Hne.
  set (y := trimStart (chars s)) in *.
  assert (Hne' : trimStart (reverse y) ≠ []).
  { intros Hnil. by rewrite Hnil in Hne. }
  split.
  - rewrite head_reverse, (trimStart_last _ Hne'), last_reverse.
    destruct (head y) as [c|] eqn:Hy.
    + exists c. split; [done|]. by apply (trimStart_head (chars s)).
    + destruct y; [|done]. done.
  - rewrite last_reverse.
    destruct (head (trimStart (reverse y))) as [c|] eqn:Hc.
    + exists c. split; [done|]. by apply (trimStart_head (reverse y)).
    + by destruct (trimStart (reverse y)).
Qed.

Lemma trim_id s c d :
  head (chars s) = Some c → isWhite c = false →
  last (chars s) = Some d → isWhite d = false →
  trim s = s.
Proof.
  intros Hh Hc Hl Hd. apply chars_inj. rewrite chars_trim.
  rewrite (trimStart_id _ _ Hh Hc).
  rewrite (trimStart_id (reverse (chars s)) d); [|by rewrite head_reverse|done].
  apply reverse_involutive.
Qed.

Lemma chars_nil s : chars s = [] ↔ s = "".
Proof. by destruct s. Qed.

Lemma truthy_chars s : truthy s = true ↔ chars s ≠ [].
Proof. by destruct s. Qed.

Lemma splitLines_cons l : ∃ line lines, splitLines l = line :: lines.
Proof.
  destruct l as [|c l]; [by eexists _, _|]. cbn [splitLines].
  destruct (bool_decide (c = LF)); [by eexists _, _|].
  destruct (splitLines l); by eexists _, _.
Qed.

Lemma splitLines_no_LF l :
  Forall (fun line => LF ∉ chars line) (splitLines l).
Proof.
  induction l as [|c l IH]; cbn [splitLines].
  - constructor; [|constructor]. cbn. by intros ?%elem_of_nil.
  - destruct (bool_decide (c = LF)) eqn:Hc.
    + constructor; [|exact IH]. cbn. by intros ?%elem_of_nil.
    + apply bool_decide_eq_false in Hc.
      destruct (splitLines l) as [|line lines].
      * constructor; [|constructor]. cbn.
        intros [?|?%elem_of_nil]%elem_of_cons; [congruence|done].
      * inversion IH as [|? ? Hline Hlines]; subst.
        constructor; [|done]. cbn [chars].
        intros [?|?]%elem_of_cons; [congruence|done].
Qed.

Lemma splitLines_one_line l : LF ∉ l → splitLines l = [str l].
Proof.
  induction l as [|c l IH]; [done|]. intros Hno.
  cbn [splitLines]. rewrite bool_decide_eq_false_2.
  - rewrite IH; [done|]. intros ?. apply Hno. by right.
  - intros ->. apply Hno. by left.
Qed.

Lemma chars_sanitize s :
  chars (sanitize s) = filter (fun c => isControl c = false) (chars s).
Proof. unfold sanitize. by rewrite chars_str. Qed.

Lemma chars_substringFrom s n : chars (substringFrom s n) = drop n (chars s).
Proof. unfold substringFrom. by rewrite chars_str. Qed.

Lemma elem_of_sections content p :
  p ∈ sections content →
  ∃ line, (LF ∉ chars line) ∧ paragraphOf line = Some p.
Proof.
  unfold sections. intros (line & Hin & Hp)%list_elem_of_omap.
  exists line. split; [|done].
  pose proof (splitLines_no_LF (chars content)) as Hall.
  rewrite Forall_forall in Hall. by apply Hall.
Qed.

(** No paragraph [sections] holds contains a character of the class
    [sanitize] removes, nor a line feed: whatever the content is, every
    paragraph text can be written into the XML of the document. *)
Theorem paragraphs_are_clean content p :
  p ∈ sections content →
  Forall (fun c => isControl c = false ∧ c ≠ LF) (chars (para_text p)).
Proof.
  intros (line & Hno & Hp)%elem_of_sections.
  unfold paragraphOf in Hp.
  destruct (truthy (trim line)); cbn [negb] in Hp; [|done].
  assert (Hclean : Forall (fun c => isControl c = false ∧ c ≠ LF)
                     (chars (sanitize (trim line)))).
  { rewrite chars_sanitize. apply Forall_forall.
    intros c [Hc Hin]%list_elem_of_filter. split; [done|].
    intros ->. apply Hno.
    assert (Hall : Forall (fun c => c ∈ chars line) (chars (trim line))).
    { apply trim_Forall, Forall_forall. auto. }
    rewrite Forall_forall in Hall. by apply Hall. }
  assert (Hrest : ∀ n, Forall (fun c => isControl c = false ∧ c ≠ LF)
            (chars (trim (substringFrom (sanitize (trim line)) n)))).
  { intros n. apply trim_Forall. rewrite chars_substringFrom.
    by apply Forall_drop. }
  repeat match type of Hp with
         | (if ?b then _ else _) = _ => destruct b
         end; injection Hp as <-; cbn [para_text]; auto.
Qed.

Lemma startsWith_chars s prefix :
  startsWith s prefix = true →
  chars s = chars prefix ++ drop (String.length prefix) (chars s).
Proof.
  unfold startsWith. intros H%bool_decide_eq_true.
  rewrite <- H at 1. by rewrite take_drop.
Qed.

(** What the earlier revision puts after a marker, and what it puts
    without one, is never empty and never ends in white space. *)
Lemma after_marker_v1 text prefix c :
  last (chars prefix) = Some c → isWhite c = true →
  (∃ d, last (chars text) = Some d ∧ isWhite d = false) →
  startsWith text prefix = true →
  ∃ d, last (chars (substringFrom text (String.length prefix))) = Some d
       ∧ isWhite d = false.
Proof.
  intros Hc Hw (d & Hd & Hdw) Hs%startsWith_chars.
  rewrite chars_substringFrom.
  rewrite Hs, last_app in Hd.
  destruct (last (drop (String.length prefix) (chars text))) as [d'|].
  - exists d'. split; [done|]. congruence.
  - congruence.
Qed.

(** In the earlier revision no paragraph of [sections] is empty, and none
    ends in white space. *)
Theorem paragraphs_v1_not_empty content p :
  p ∈ sections_v1 content →
  ∃ d, last (chars (para_text p)) = Some d ∧ isWhite d = false.
Proof.
  unfold sections_v1. intros (line & _ & Hp)%list_elem_of_omap.
  unfold paragraphOf_v1 in Hp.
  destruct (truthy (trim line)) eqn:Ht; cbn [negb] in Hp; [|done].
  apply truthy_chars in Ht. apply trim_ends in Ht as [_ Hlast].
  destruct (startsWith (trim line) "# ") eqn:H1.
  { injection Hp as <-.
    by apply (after_marker_v1 (trim line) "# " (Ascii.ascii_of_nat 32)). }
  destruct (startsWith (trim line) "## ") eqn:H2.
  { injection Hp as <-.
    by apply (after_marker_v1 (trim line) "## " (Ascii.ascii_of_nat 32)). }
  destruct (startsWith (trim line) "- ") eqn:H3.
  { injection Hp as <-.
    by apply (after_marker_v1 (trim line) "- " (Ascii.ascii_of_nat 32)). }
  by injection Hp as <-.
Qed.

Lemma trim_no_white s :
  Forall (fun c => isWhite c = false) (chars s) → trim s = s.
Proof.
  intros Hall. destruct (chars s) as [|c l] eqn:Hs.
  { apply chars_nil in Hs as ->. done. }
  assert (Hne : chars s ≠ []) by (by rewrite Hs).
  apply last_is_Some in Hne as [d Hd].
  rewrite <- Hs in Hall. rewrite Forall_forall in Hall.
  eapply (trim_id s c d); [by rewrite Hs| |done|].
  - apply Hall. rewrite Hs. by left.
  - apply Hall. apply last_Some in Hd as [l' ->].
    apply elem_of_app. right. by left.
Qed.

(** A line that is not empty and made of control characters only (none of
    them white space) is not skipped: its text is not empty when it is
    tested, and [sanitize] then empties it.  The later revision pushes an
    empty body paragraph for it, where the earlier one pushes the line. *)
Theorem control_line_gives_empty_paragraph line :
  line ≠ "" →
  Forall (fun c => isControl c = true ∧ isWhite c = false) (chars line) →
  paragraphOf line = Some (mkParagraph Body "")
  ∧ paragraphOf_v1 line = Some (mkParagraph Body line).
Proof.
  intros Hne Hall.
  assert (Htrim : trim line = line).
  { apply trim_no_white. eapply Forall_impl; [exact Hall|]. by intros ? []. }
  assert (Htruthy : truthy line = true) by (by destruct line).
  assert (Hsan : sanitize line = "").
  { apply chars_inj. rewrite chars_sanitize. cbn [chars].
    induction Hall as [|c l [Hc _] _ IH]; [done|].
    rewrite filter_cons_False; [done|]. by rewrite Hc. }
  split.
  - unfold paragraphOf. rewrite Htrim, Htruthy, Hsan. reflexivity.
  - unfold paragraphOf_v1. rewrite Htrim, Htruthy. cbn [negb].
    destruct (chars line) as [|c l] eqn:Hl; [by apply chars_nil in Hl|].
    inversion Hall as [|? ? [Hc Hw] _]; subst.
    assert (Hnot : ∀ m rest, isControl m = false →
              startsWith line (String m rest) = false).
    { intros m rest Hm. unfold startsWith. apply bool_decide_eq_false.
      rewrite Hl. cbn. intros [= -> _]. congruence. }
    by rewrite !Hnot.
Qed.

Lemma control_line_gives_empty_paragraph_witness :
  paragraphOf (String (Ascii.ascii_of_nat 0) EmptyString)
  = Some (mkParagraph Body "").
Proof.
  apply (control_line_gives_empty_paragraph
           (String (Ascii.ascii_of_nat 0) EmptyString)).
  - done.
  - repeat constructor.
Defined.

Lemma paragraphs_v1_not_empty_witness :
  ∃ d, last (chars "Title") = Some d ∧ isWhite d = false.
Proof.
  apply (paragraphs_v1_not_empty "  # Title  " (mkParagraph Heading1 "Title")).
  vm_compute. by left.
Defined.

Lemma paragraphs_are_clean_witness :
  Forall (fun c => isControl c = false ∧ c ≠ LF) (chars "Title").
Proof.
  apply (paragraphs_are_clean "  # Title  " (mkParagraph Heading1 "Title")).
  vm_compute. by left.
Defined.

(** ** From the toolbar to the document *)

Lemma insertText_at_start marker t :
  selectionStart t = 0 → selectionEnd t ≤ String.length (value t) →
  value (insertText marker "" t) = marker +:+ value t.
Proof.
  intros Hs He. apply chars_inj.
  rewrite chars_insertText by lia.
  rewrite Hs, chars_app, Nat.sub_0_r, take_0, drop_0.
  change (chars "") with (@nil Ascii.ascii).
  by rewrite !app_nil_l, take_drop.
Qed.

Lemma startsWith_app_closed m p s :
  String.length p ≤ String.length m →
  startsWith (m +:+ s) p = startsWith m p.
Proof.
  intros Hle. unfold startsWith.
  by rewrite chars_app, take_app_le by (by rewrite length_chars).
Qed.

Lemma startsWith_first s p c d :
  head (chars s) = Some c → head (chars p) = Some d → c ≠ d →
  startsWith s p = false.
Proof.
  intros Hs Hp Hne. unfold startsWith. apply bool_decide_eq_false.
  destruct (chars p) as [|d' p'] eqn:Ep; [done|]. injection Hp as ->.
  destruct (chars s) as [|c' s'] eqn:Es; [done|]. injection Hs as ->.
  rewrite <- length_chars, Ep. cbn. congruence.
Qed.

Lemma filter_clean_id (l : list Ascii.ascii) :
  Forall (fun c => isControl c = false) l →
  filter (fun c => isControl c = false) l = l.
Proof.
  induction 1 as [|x l Hx _ IH]; [done|].
  rewrite filter_cons_True by done. by rewrite IH.
Qed.

(** A line made of a marker and a text that needs neither trimming nor
    sanitizing is kept as it is up to the tests on its beginning. *)
Lemma marked_line_kept m L c :
  head (chars m) = Some c → isWhite c = false →
  Forall (fun c => isControl c = false) (chars m) →
  L ≠ "" → trim L = L → sanitize L = L →
  trim (m +:+ L) = m +:+ L ∧ sanitize (m +:+ L) = m +:+ L
  ∧ truthy (m +:+ L) = true
  ∧ ∀ n, n = String.length m → trim (substringFrom (m +:+ L) n) = L.
Proof.
  intros Hm Hc Hclean Hne Htrim Hsan.
  assert (HL : chars L ≠ []) by (by rewrite chars_nil).
  assert (Hlast : ∃ d, last (chars L) = Some d ∧ isWhite d = false).
  { rewrite <- Htrim in HL. apply trim_ends in HL as [_ Hl].
    by rewrite Htrim in Hl. }
  destruct Hlast as (d & Hd & Hdw).
  split_and!.
  - apply (trim_id _ c d); [|done| |done].
    + rewrite chars_app. destruct (chars m); [done|]. done.
    + by rewrite chars_app, last_app, Hd.
  - apply chars_inj. rewrite chars_sanitize, chars_app, filter_app.
    apply (f_equal chars) in Hsan. rewrite chars_sanitize in Hsan.
    rewrite Hsan. f_equal. by apply filter_clean_id.
  - apply truthy_chars. rewrite chars_app.
    intros [_ ?]%app_eq_nil. done.
  - intros n ->.
    replace (substringFrom (m +:+ L) (String.length m)) with L; [done|].
    apply chars_inj. rewrite chars_substringFrom, chars_app.
    by rewrite drop_app_length' by (by rewrite length_chars).
Qed.

Lemma sections_one_line s :
  LF ∉ chars s → sections s = omap paragraphOf [s].
Proof.
  intros Hno. unfold sections. by rewrite splitLines_one_line, str_chars.
Qed.

(** Decide a test on the beginning of a line that starts with a known
    marker. *)
Ltac marker_test :=
  rewrite startsWith_app_closed by (cbn; lia);
  match goal with
  | |- context [startsWith ?a ?b] =>
      let v := eval vm_compute in (startsWith a b) in
      change (startsWith a b) with v
  end; cbv iota.

Ltac not_in_marker :=
  let H := fresh in
  cbn [chars]; intros H;
  repeat (apply elem_of_cons in H as [H|H]; [by vm_compute in H|]);
  by apply elem_of_nil in H.

(** The toolbar and the export agree on the markers.  On a one-line text
    that needs neither trimming nor sanitizing, with the caret at the
    start, the Heading 1 button followed by the export gives one heading
    paragraph holding the text, the Heading 2 button a second-level one,
    and the List Item button a bullet. *)
Theorem toolbar_marker_becomes_style t :
  selectionStart t = 0 → selectionEnd t ≤ String.length (value t) →
  value t ≠ "" → trim (value t) = value t →
  sanitize (value t) = value t → LF ∉ chars (value t) →
  sections (value (insertText "# " "" t))
    = [mkParagraph Heading1 (value t)]
  ∧ sections (value (insertText "## " "" t))
    = [mkParagraph Heading2 (value t)]
  ∧ sections (value (insertText "- " "" t))
    = [mkParagraph Bullet (value t)].
Proof.
  intros Hs He Hne Htrim Hsan Hno.
  rewrite !insertText_at_start by done.
  assert (Hline : ∀ m, LF ∉ chars m → LF ∉ chars (m +:+ value t)).
  { intros m Hm. rewrite chars_app. intros [?|?]%elem_of_app; tauto. }
  assert (Hkept : ∀ m c, head (chars m) = Some c → isWhite c = false →
            Forall (fun c => isControl c = false) (chars m) →
            paragraphOf (m +:+ value t)
            = (let text := m +:+ value t in
               if startsWith text "# "
               then Some (mkParagraph Heading1 (trim (substringFrom text 2)))
               else if startsWith text "## "
               then Some (mkParagraph Heading2 (trim (substringFrom text 3)))
               else if startsWith text "- "
               then Some (mkParagraph Bullet (trim (substringFrom text 2)))
               else Some (mkParagraph Body text))).
  { intros m c Hm Hc Hclean.
    destruct (marked_line_kept m (value t) c) as (H1 & H2 & H3 & _);
      try done.
    unfold paragraphOf. by rewrite H1, H3, H2. }
  split_and!.
  - rewrite sections_one_line by (apply Hline; not_in_marker).
    cbn [omap list_omap].
    rewrite (Hkept "# " (Ascii.ascii_of_nat 35)); [|done|done|].
    2:{ cbn [chars]. repeat constructor. }
    cbv zeta. marker_test.
    destruct (marked_line_kept "# " (value t) (Ascii.ascii_of_nat 35))
      as (_ & _ & _ & H4); try done.
    { cbn [chars]. repeat constructor. }
    by rewrite (H4 2).
  - rewrite sections_one_line by (apply Hline; not_in_marker).
    cbn [omap list_omap].
    rewrite (Hkept "## " (Ascii.ascii_of_nat 35)); [|done|done|].
    2:{ cbn [chars]. repeat constructor. }
    cbv zeta. marker_test. marker_test.
    destruct (marked_line_kept "## " (value t) (Ascii.ascii_of_nat 35))
      as (_ & _ & _ & H4); try done.
    { cbn [chars]. repeat constructor. }
    by rewrite (H4 3).
  - rewrite sections_one_line by (apply Hline; not_in_marker).
    cbn [omap list_omap].
    rewrite (Hkept "- " (Ascii.ascii_of_nat 45)); [|done|done|].
    2:{ cbn [chars]. repeat constructor. }
    cbv zeta. marker_test.
    rewrite (startsWith_first ("- " +:+ value t) "## "
               (Ascii.ascii_of_nat 45) (Ascii.ascii_of_nat 35));
      [|by rewrite chars_app|done|done].
    marker_test.
    destruct (marked_line_kept "- " (value t) (Ascii.ascii_of_nat 45))
      as (_ & _ & _ & H4); try done.
    { cbn [chars]. repeat constructor. }
    by rewrite (H4 2).
Qed.

Lemma toolbar_marker_becomes_style_witness :
  sections "# Shopping" = [mkParagraph Heading1 "Shopping"]
  ∧ sections "- Shopping" = [mkParagraph Bullet "Shopping"].
Proof.
  destruct (toolbar_marker_becomes_style
              {| value := "Shopping"; selectionStart := 0;
                 selectionEnd := 0 |}) as (H1 & _ & H3).
  - reflexivity.
  - cbn. lia.
  - done.
  - by vm_compute.
  - by vm_compute.
  - not_in_marker.
  - split; [exact H1|exact H3].
Defined.

(** ** A page is removed while a run is in progress *)

Lemma filter_other_ids x (l : list BatchImage) :
  x ∉ img_id <$> l → filter (fun img => img_id img <> x) l = l.
Proof.
  induction l as [|img l IH]; [done|]. cbn [fmap list_fmap].
  intros Hno. rewrite filter_cons_True.
  - f_equal. apply IH. intros ?. apply Hno. by right.
  - intros Heq. apply Hno. rewrite <- Heq. by left.
Qed.

Lemma onRemove_delete a j victim :
  NoDup (img_id <$> images a) → images a !! j = Some victim →
  images (onRemove (img_id victim) a) = delete j (images a).
Proof.
  unfold onRemove. cbn [images setImages]. generalize (images a). clear a.
  intros l. revert j. induction l as [|img l IH]; intros j Hnd Hj; [done|].
  cbn [fmap list_fmap] in Hnd. apply NoDup_cons in Hnd as [Hhd Hnd].
  destruct j as [|j]; cbn in Hj.
  - injection Hj as ->. rewrite filter_cons_False by (by intros ?).
    by rewrite filter_other_ids.
  - rewrite filter_cons_True.
    + rewrite (IH j) by done. reflexivity.
    + intros Heq. apply Hhd. rewrite Heq.
      apply list_elem_of_fmap. exists victim. split; [done|].
      by eapply list_elem_of_lookup_2.
Qed.

Lemma step_settle_images w item a r :
  workers r !! w = Some (Awaiting item) →
  ∃ a' r', step (ESettle w) (a, r) = Some (a', r')
    ∧ images a' = mapAt item.2 (settleImage (oracle r item.2)) (images a).
Proof.
  intros Hw.
  destruct (step (ESettle w) (a, r)) as [[a' r']|] eqn:Hstep.
  - exists a', r'. split; [done|].
    apply step_settle_inv in Hstep
      as (item' & k & m' & Hw' & _ & _ & _ & -> & _).
    rewrite Hw in Hw'. by injection Hw' as <-.
  - unfold step in Hstep. cbn [snd] in Hstep. by rewrite Hw in Hstep.
Qed.

(** The queue lets a page be removed during a run, and the run addresses
    pages by the index they had when it started.  With distinct page ids,
    if a page at or before the index a worker is waiting on is removed,
    the result of that call is stored on the page that came next: it gets
    the status and the text of a transcription of another image.  No other
    page changes, so the page that was transcribed, if it is still there,
    stays as it was, one place down. *)
Theorem result_lands_on_next_page a r w item j victim :
  workers r !! w = Some (Awaiting item) →
  NoDup (img_id <$> images a) →
  images a !! j = Some victim → j ≤ item.2 →
  ∃ a' r',
    step (ESettle w) (onRemove (img_id victim) a, r) = Some (a', r')
    ∧ images a' !! item.2
      = settleImage (oracle r item.2) <$> images a !! S item.2
    ∧ (∀ k, k ≠ item.2 → images a' !! k = delete j (images a) !! k)
    ∧ (j < item.2 → images a' !! pred item.2 = images a !! item.2).
Proof.
  intros Hw Hnd Hj Hle.
  destruct (step_settle_images w item (onRemove (img_id victim) a) r Hw)
    as (a' & r' & Hstep & Himgs).
  exists a', r'. split; [done|].
  rewrite Himgs, (onRemove_delete _ _ _ Hnd Hj). split_and!.
  - by rewrite lookup_mapAt_eq, list_lookup_delete_ge.
  - intros k Hk. by rewrite lookup_mapAt_ne.
  - intros Hlt. rewrite lookup_mapAt_ne by lia.
    rewrite list_lookup_delete_ge by lia. f_equal. lia.
Qed.

Lemma result_lands_on_next_page_witness :
  ∃ a r a' r',
    startBatchProcess (okAll ["A"; "B"; "C"]) app3 = (a, Some r)
    ∧ step (ESettle 1) (onRemove "a" a, r) = Some (a', r')
    ∧ (fun img => (img_id img, status img, processedText img))
        <$> images a'
      = [("b", Processing, None); ("c", Completed, Some "B")].
Proof.
  destruct (startBatchProcess (okAll ["A"; "B"; "C"]) app3)
    as [a [r|]] eqn:E; [|by vm_compute in E].
  vm_compute in E. injection E as <- <-.
  match goal with
  | |- ∃ a r a' r', (?a0, Some ?r0) = _ ∧ _ =>
      destruct (result_lands_on_next_page a0 r0 1
                  (newImage "b" 2 "u1", 1) 0
                  (with_status Processing (newImage "a" 1 "u0")))
        as (a' & r' & Hstep & _);
        [reflexivity|by apply (bool_decide_unpack _)
        |reflexivity|cbn; lia|];
      exists a0, r0, a', r'
  end.
  split; [reflexivity|]. split; [exact Hstep|].
  vm_compute in Hstep. injection Hstep as <- _. reflexivity.
Defined.
